(** * MTFS: a Merkle tree over a directory structure

    A shallow embedding of the C++ engine of MTFS (merkle.hpp,
    merkleNode.cpp, merkleTree.cpp) and the properties of its hashing,
    verification, statistics, lookup and build operations.

    Nodes live in a heap and are referred to by address, as the
    [shared_ptr<MerkleNode>] of the program do: the tree, the registry
    [nodes] and the index [file_objects] all alias the same objects. *)

From Stdlib Require Import String Ascii NArith ZArith Lia DecimalString.
From Stdlib Require Import Init.Byte.
From stdpp Require Import gmap strings list sorting.

(** ** Strings, [std::sort] and [std::map] iteration order *)

(** [std::sort] on a [vector<string>]: the order is [operator<] of
    [std::string], lexicographic on unsigned characters ([String.le]). *)
Definition sort (l : list string) : list string := merge_sort String.le l.

(** Keys of a [std::map<string, V>] in iteration order: a [std::map]
    is a finite map whose iterator walks the keys in increasing order. *)
Definition map_keys {V} (m : gmap string V) : list string :=
  sort (fst <$> map_to_list m).

(** [for (const auto &kv : m)]: the entries in iteration order. *)
Definition map_items {V} (m : gmap string V) : list (string * V) :=
  omap (fun k => pair k <$> m !! k) (map_keys m).

(** [m[k]] of [std::map]: a missing key is inserted with a
    value-initialised ([dflt]) value. *)
Definition map_subscript {V} (dflt : V) (m : gmap string V) (k : string)
  : V * gmap string V :=
  match m !! k with
  | Some v => (v, m)
  | None => (dflt, <[k := dflt]> m)
  end.

(** ** Integers *)

(** [size_t] is 64 bits wide; arithmetic on it wraps around. *)
Definition size_t_modulus : N := 2 ^ 64.

Definition wrap (n : N) : N := (n mod size_t_modulus)%N.

(** [namespace MTFSConstants]. *)
Definition DEFAULT_CHUNK_SIZE : N := 1024 * 1024.
Definition MAX_CHUNK_SIZE : N := 100 * 1024 * 1024.
Definition MIN_CHUNK_SIZE : N := 1024.

(** ** Outcomes of a call *)

(** The [runtime_error]s of the program, one constructor per [throw]
    site; a rethrown error keeps what it wraps. *)
Inductive exn : Type :=
  | InvalidChunkSize
  | DirectoryDoesNotExist
  | PathIsNotADirectory
  | PathDoesNotExist
  | CannotOpenFile
  | ErrorProcessingFile (cause : exn)
  | ErrorReadingDirectory
  | AddChildToFileNode
  | AddNullChild.

(** A call returns, throws (the state is what it was at the [throw]), or
    has no defined result: a null or dangling pointer is dereferenced, or
    the recursion or loop does not end. *)
Inductive outcome (S A : Type) : Type :=
  | Ret (a : A) (s : S)
  | Throw (e : exn) (s : S)
  | Undef.
Arguments Ret {S A} a s.
Arguments Throw {S A} e s.
Arguments Undef {S A}.

Definition M (S A : Type) : Type := S -> outcome S A.

Definition ret {S A} (a : A) : M S A := fun s => Ret a s.

Definition throw {S A} (e : exn) : M S A := fun s => Throw e s.

Definition undef {S A} : M S A := fun _ => Undef.

Definition bind {S A B} (m : M S A) (k : A -> M S B) : M S B :=
  fun s => match m s with
           | Ret a s' => k a s'
           | Throw e s' => Throw e s'
           | Undef => Undef
           end.

(** [try { m } catch (const exception &e) { handler }]. *)
Definition try_catch {S A} (m : M S A) (handler : exn -> M S A) : M S A :=
  fun s => match m s with
           | Ret a s' => Ret a s'
           | Throw e s' => handler e s'
           | Undef => Undef
           end.

Definition get {S} : M S S := fun s => Ret s s.

Definition put {S} (s : S) : M S unit := fun _ => Ret tt s.

Notation "x <- m ;; k" := (bind m (fun x => k))
  (at level 100, m at next level, right associativity,
   format "'[v' x  <-  m  ;;  '/' k ']'").
Notation "m ;;; k" := (bind m (fun _ => k))
  (at level 100, right associativity).

(** ** Nodes and the heap *)

(** An address in the heap. *)
Abbreviation ptr := nat (only parsing).

(** [struct MerkleNode]; a [shared_ptr<MerkleNode>] is [option ptr],
    [None] being [nullptr]. *)
Record MerkleNode : Type := mkNode {
  name : string;
  hash : string;
  contentHash : string;
  chunkHashes : list string;
  children : gmap string (option ptr);
  isFile : bool;
  fileSize : N;
  cachedDepth : Z
}.

Definition set_hash (v : string) (n : MerkleNode) : MerkleNode :=
  mkNode (name n) v (contentHash n) (chunkHashes n) (children n)
         (isFile n) (fileSize n) (cachedDepth n).

Definition set_children (m : gmap string (option ptr)) (n : MerkleNode)
  : MerkleNode :=
  mkNode (name n) (hash n) (contentHash n) (chunkHashes n) m
         (isFile n) (fileSize n) (cachedDepth n).

Definition set_cachedDepth (d : Z) (n : MerkleNode) : MerkleNode :=
  mkNode (name n) (hash n) (contentHash n) (chunkHashes n) (children n)
         (isFile n) (fileSize n) d.

(** The objects allocated so far; an address is an index. *)
Abbreviation heap := (list MerkleNode) (only parsing).

Definition load (p : ptr) : M heap MerkleNode :=
  fun h => match h !! p with
           | Some n => Ret n h
           | None => Undef
           end.

Definition modify (p : ptr) (f : MerkleNode -> MerkleNode) : M heap unit :=
  fun h => match h !! p with
           | Some n => Ret tt (<[p := f n]> h)
           | None => Undef
           end.

(** [make_shared<MerkleNode>(name, isFile)], with the constructor
    [MerkleNode::MerkleNode]. *)
Definition new_node (nm : string) (is_file : bool) : MerkleNode :=
  mkNode nm "" "" [] ∅ is_file 0%N (-1)%Z.

Definition make_shared (nm : string) (is_file : bool) : M heap ptr :=
  fun h => Ret (length h) (h ++ [new_node nm is_file]).

(** [MerkleNode::addChild]. *)
Definition addChild (this : ptr) (child : option ptr) : M heap unit :=
  n <- load this ;;
  if isFile n then throw AddChildToFileNode
  else match child with
       | None => throw AddNullChild
       | Some c =>
           cn <- load c ;;
           modify this (fun n =>
             set_cachedDepth (-1)%Z
               (set_children (<[name cn := Some c]> (children n)) n))
       end.

(** [int] is 32 bits wide; an overflow of signed arithmetic has no
    defined result. *)
Definition INT_MAX : Z := 2147483647.

(** The loop of [getDepth] over [children]; [child.second->getDepth()]
    on a null child has no defined result. *)
Fixpoint getDepth_loop (rec : ptr -> M heap Z)
    (kids : list (string * option ptr)) (maxChildDepth : Z) : M heap Z :=
  match kids with
  | [] => ret maxChildDepth
  | child :: rest =>
      match snd child with
      | None => undef
      | Some c =>
          childDepth <- rec c ;;
          getDepth_loop rec rest (Z.max maxChildDepth childDepth)
      end
  end.

(** [MerkleNode::getDepth]; [cachedDepth] is [mutable], the method
    writes it. *)
Fixpoint getDepth_rec (fuel : nat) (this : ptr) : M heap Z :=
  match fuel with
  | O => undef
  | S fuel' =>
      n <- load this ;;
      if negb (cachedDepth n =? -1)%Z then ret (cachedDepth n)
      else if bool_decide (children n = ∅) then
        modify this (set_cachedDepth 0) ;;;
        ret 0%Z
      else
        maxChildDepth <- getDepth_loop (getDepth_rec fuel')
                           (map_items (children n)) 0%Z ;;
        if (maxChildDepth <? INT_MAX)%Z then
          modify this (set_cachedDepth (maxChildDepth + 1)) ;;;
          ret (maxChildDepth + 1)%Z
        else undef
  end.

(** A recursion deeper than the number of nodes visits a node again
    while its cache is still unset, and never ends. *)
Definition getDepth (this : ptr) : M heap Z :=
  fun h => getDepth_rec (length h) this h.

(** [MerkleNode::isLeaf]. *)
Definition isLeaf (this : ptr) : M heap bool :=
  n <- load this ;; ret (bool_decide (children n = ∅)).

(** The loops of [getTotalSize] and [getFileCount] over [children]:
    [total += child.second->f()]. *)
Fixpoint sum_loop (rec : ptr -> M heap N)
    (kids : list (string * option ptr)) (total : N) : M heap N :=
  match kids with
  | [] => ret total
  | child :: rest =>
      match snd child with
      | None => undef
      | Some c =>
          s <- rec c ;;
          sum_loop rec rest (wrap (total + s))
      end
  end.

(** [MerkleNode::getTotalSize]. *)
Fixpoint getTotalSize_rec (fuel : nat) (this : ptr) : M heap N :=
  match fuel with
  | O => undef
  | S fuel' =>
      n <- load this ;;
      if isFile n then ret (fileSize n)
      else sum_loop (getTotalSize_rec fuel') (map_items (children n)) 0%N
  end.

Definition getTotalSize (this : ptr) : M heap N :=
  fun h => getTotalSize_rec (length h) this h.

(** [MerkleNode::getFileCount]. *)
Fixpoint getFileCount_rec (fuel : nat) (this : ptr) : M heap N :=
  match fuel with
  | O => undef
  | S fuel' =>
      n <- load this ;;
      if isFile n then ret 1%N
      else sum_loop (getFileCount_rec fuel') (map_items (children n)) 0%N
  end.

Definition getFileCount (this : ptr) : M heap N :=
  fun h => getFileCount_rec (length h) this h.

(** ** The file system, as the program observes it *)

(** What a path denotes. [filename] is [path.filename()]. Of a regular
    file the program sees two things: [content], the bytes that reading
    it delivers, and [reported_size], the position the stream reports at
    its end, which is the size the file system records for the file. The
    two agree for an ordinary file on disk that nobody writes to; they
    need not for a file whose content is made up when it is read.
    [readable] is false when the file cannot be opened. A directory
    lists [entries] in the order [fs::directory_iterator] reports them;
    when [listing_ok] is false the iterator throws once they have been
    reported (with no entries: the directory cannot be opened). *)
#[warnings="-register-all"]
Inductive FsEntry : Type :=
  | FsMissing (filename : string)
  | FsFile (filename : string) (content : list byte) (reported_size : N)
           (readable : bool)
  | FsDir (filename : string) (entries : list FsEntry) (listing_ok : bool)
  | FsOther (filename : string).

Definition fs_exists (path : FsEntry) : bool :=
  match path with FsMissing _ => false | _ => true end.

Definition fs_is_regular_file (path : FsEntry) : bool :=
  match path with FsFile _ _ _ _ => true | _ => false end.

Definition fs_is_directory (path : FsEntry) : bool :=
  match path with FsDir _ _ _ => true | _ => false end.

Definition fs_filename (path : FsEntry) : string :=
  match path with
  | FsMissing nm | FsFile nm _ _ _ | FsDir nm _ _ | FsOther nm => nm
  end.

(** The file system: what each path string denotes. *)
Definition filesystem : Type := string -> FsEntry.

(** [ifstream]: the bytes not yet read, whether the stream is still
    good ([operator bool]), and [end_pos], what [tellg()] returns after
    [seekg(0, ios::end)]: [-1] on a stream that cannot seek. *)
Record ifstream : Type := mkStream {
  unread : list byte;
  good : bool;
  end_pos : Z
}.

(** [ifstream file(path, ios::binary)]; [None] when [is_open()] is
    false. A directory opens, as it does with libstdc++ on Linux, but
    neither seeks nor reads; a path that exists and is neither a regular
    file nor a directory is taken not to open ([build_node] opens
    regular files only). *)
Definition ifstream_open (path : FsEntry) : option ifstream :=
  match path with
  | FsFile _ content reported_size true =>
      Some (mkStream content true (Z.of_N reported_size))
  | FsDir _ _ _ => Some (mkStream [] false (-1))
  | _ => None
  end.

(** [size_t fileSize = file.tellg()]: the conversion of a stream
    position to [size_t]. *)
Definition size_t_of_pos (pos : Z) : N :=
  Z.to_N (pos mod Z.of_N size_t_modulus).

(** [file.read(buffer, n)]: the bytes stored in the buffer (their number
    is [gcount()]) and the stream after the call. Fewer than [n] bytes
    left sets [eofbit] and [failbit]; a stream that is not good reads
    nothing. *)
Definition ifstream_read (n : nat) (file : ifstream) : list byte * ifstream :=
  if good file then
    if decide (n <= length (unread file)) then
      (take n (unread file),
       mkStream (drop n (unread file)) true (end_pos file))
    else
      (unread file, mkStream [] false (end_pos file))
  else ([], file).

(** ** The tree object *)

(** [class MerkleTree]: the private members. *)
Record MerkleTree : Type := mkTree {
  root : option ptr;
  file_objects : gmap string ptr;
  nodes : list ptr;
  CHUNK_SIZE : N
}.

(** The state a member function of [MerkleTree] runs in. *)
Abbreviation world := (list MerkleNode * MerkleTree)%type (only parsing).

Definition lift {A} (m : M heap A) : M world A :=
  fun w => match m (fst w) with
           | Ret a h => Ret a (h, snd w)
           | Throw e h => Throw e (h, snd w)
           | Undef => Undef
           end.

Definition this_tree : M world MerkleTree := fun w => Ret (snd w) w.

Definition modify_tree (f : MerkleTree -> MerkleTree) : M world unit :=
  fun w => Ret tt (fst w, f (snd w)).

Definition set_root (r : option ptr) (t : MerkleTree) : MerkleTree :=
  mkTree r (file_objects t) (nodes t) (CHUNK_SIZE t).

Definition set_file_objects (m : gmap string ptr) (t : MerkleTree)
  : MerkleTree :=
  mkTree (root t) m (nodes t) (CHUNK_SIZE t).

Definition set_nodes (l : list ptr) (t : MerkleTree) : MerkleTree :=
  mkTree (root t) (file_objects t) l (CHUNK_SIZE t).

Definition set_CHUNK_SIZE (c : N) (t : MerkleTree) : MerkleTree :=
  mkTree (root t) (file_objects t) (nodes t) c.

(** [MerkleTree::MerkleTree()]. *)
Definition new_tree : MerkleTree := mkTree None ∅ [] DEFAULT_CHUNK_SIZE.

(** [MerkleTree::MerkleTree(size_t)]: the object constructed, or the
    exception thrown. *)
Definition new_tree_sized (chunkSize : N) : exn + MerkleTree :=
  if ((chunkSize <? MIN_CHUNK_SIZE) || (MAX_CHUNK_SIZE <? chunkSize))%N
  then inl InvalidChunkSize
  else inr (mkTree None ∅ [] chunkSize).

(** [MerkleTree::setChunkSize]. *)
Definition setChunkSize (chunkSize : N) : M world unit :=
  if ((chunkSize <? MIN_CHUNK_SIZE) || (MAX_CHUNK_SIZE <? chunkSize))%N
  then throw InvalidChunkSize
  else modify_tree (set_CHUNK_SIZE chunkSize).

(** [MerkleTree::getChunkSize]. *)
Definition getChunkSize : M world N :=
  t <- this_tree ;; ret (CHUNK_SIZE t).

(** ** Text *)

Definition dquote : string := String (ascii_of_nat 34) EmptyString.

Definition newline : string := String (ascii_of_nat 10) EmptyString.

(** [string(n, ' ')]. *)
Definition spaces (n : nat) : string :=
  string_of_list_ascii (replicate n (ascii_of_nat 32)).

(** [ss << n] for an unsigned integer. *)
Definition decimal (n : N) : string := NilZero.string_of_uint (N.to_uint n).

Section MTFS.

(** The digest: [SHA256_Init], [SHA256_Update], [SHA256_Final] of OpenSSL
    followed by the rendering in lowercase hexadecimal. *)
Variable sha256 : string -> string.

(** The loop of [calculateHash] over the sorted names; [rec] is the
    call [child->calculateHash()]. *)
Fixpoint calculateHash_loop (rec : ptr -> M heap string) (this : ptr)
    (names : list string) (combined : string) : M heap string :=
  match names with
  | [] => ret combined
  | childName :: rest =>
      n <- load this ;;
      let '(child, m) := map_subscript None (children n) childName in
      modify this (set_children m) ;;;
      match child with
      | None => undef
      | Some c =>
          childHash <- rec c ;;
          calculateHash_loop rec this rest
            (combined +:+ (childName +:+ ":" +:+ childHash +:+ ";"))
      end
  end.

(** [MerkleNode::calculateHash]. *)
Fixpoint calculateHash_rec (fuel : nat) (this : ptr) : M heap string :=
  match fuel with
  | O => undef
  | S fuel' =>
      n <- load this ;;
      if isFile n then
        modify this (set_hash (contentHash n)) ;;;
        ret (contentHash n)
      else if decide (children n = ∅) then
        modify this (set_hash (sha256 (name n))) ;;;
        ret (sha256 (name n))
      else
        let sortedNames := sort (map_keys (children n)) in
        combined <-
          calculateHash_loop (calculateHash_rec fuel') this sortedNames "" ;;
        modify this (set_hash (sha256 combined)) ;;;
        ret (sha256 combined)
  end.

(** A call from outside: the recursion is as deep as the longest chain of
    children, which in a heap without cycles is at most the number of
    objects; on a cyclic structure it does not end. *)
Definition calculateHash (this : ptr) : M heap string :=
  fun h => calculateHash_rec (length h) this h.

(** The reading loop of [hash_file_content]:
    [while (file.read(buffer, CHUNK_SIZE) || file.gcount() > 0)]. [None]
    when [fuel] evaluations of the condition do not end it. *)
Fixpoint read_chunks (fuel : nat) (chunk_size : nat) (file : ifstream)
    (entireContent : string) (chunkHashes : list string)
  : option (string * list string) :=
  match fuel with
  | O => None
  | S fuel' =>
      let '(buffer, file') := ifstream_read chunk_size file in
      if good file' || bool_decide (0 < length buffer) then
        let chunk := string_of_list_byte buffer in
        read_chunks fuel' chunk_size file'
          (entireContent +:+ chunk) (chunkHashes ++ [sha256 chunk])
      else Some (entireContent, chunkHashes)
  end.

(** [MerkleTree::hash_file_content]. The size returned is the end
    position taken before the loop; it is not compared with the number
    of bytes the loop reads. With a chunk size of at least one byte the
    loop ends within two evaluations of its condition more than there are
    bytes to read; with a chunk size of zero it never ends. *)
Definition hash_file_content (file_path : FsEntry)
  : M world (string * N * list string) :=
  t <- this_tree ;;
  match ifstream_open file_path with
  | None => throw CannotOpenFile
  | Some file =>
      let fileSize := size_t_of_pos (end_pos file) in
      match read_chunks (length (unread file) + 2)
              (N.to_nat (CHUNK_SIZE t)) file "" [] with
      | None => undef
      | Some (entireContent, chunkHashes) =>
          ret (sha256 entireContent, fileSize, chunkHashes)
      end
  end.

Definition set_file_data (ch : string) (sz : N) (chs : list string)
    (n : MerkleNode) : MerkleNode :=
  mkNode (name n) (hash n) ch chs (children n) (isFile n) sz (cachedDepth n).

(** The loop of [build_node] over the entries of a directory; [rec] is
    the call [build_node(entry.path())]. An entry that throws is skipped
    (with a warning on [cerr], which is not part of the state). *)
Fixpoint build_node_loop (rec : FsEntry -> M world ptr) (node : ptr)
    (entries : list FsEntry) : M world unit :=
  match entries with
  | [] => ret tt
  | entry :: rest =>
      try_catch
        (childNode <- rec entry ;;
         lift (addChild node (Some childNode)))
        (fun _ => ret tt) ;;;
      build_node_loop rec node rest
  end.

(** [MerkleTree::build_node]. *)
Fixpoint build_node (path : FsEntry) : M world ptr :=
  if negb (fs_exists path) then throw PathDoesNotExist
  else
    let nodeName := fs_filename path in
    let isFile := fs_is_regular_file path in
    node <- lift (make_shared nodeName isFile) ;;
    modify_tree (fun t => set_nodes (nodes t ++ [node]) t) ;;;
    (if isFile then
       try_catch
         (r <- hash_file_content path ;;
          let '(contentHash, fileSize, chunkHashes) := r in
          lift (modify node (set_file_data contentHash fileSize chunkHashes)) ;;;
          modify_tree (fun t =>
            set_file_objects (<[contentHash := node]> (file_objects t)) t))
         (fun e => throw (ErrorProcessingFile e))
     else
       match path with
       | FsDir _ entries listing_ok =>
           try_catch
             (build_node_loop build_node node entries ;;;
              if listing_ok then ret tt else throw ErrorReadingDirectory)
             (fun _ => throw ErrorReadingDirectory)
       | _ => ret tt
       end) ;;;
    ret node.

(** [MerkleTree::build_tree]. *)
Definition build_tree (fsys : filesystem) (directory_path : string)
  : M world (option ptr) :=
  if negb (fs_exists (fsys directory_path)) then throw DirectoryDoesNotExist
  else if negb (fs_is_directory (fsys directory_path))
  then throw PathIsNotADirectory
  else
    modify_tree (set_file_objects ∅) ;;;
    modify_tree (set_nodes []) ;;;
    r <- build_node (fsys directory_path) ;;
    modify_tree (set_root (Some r)) ;;;
    t <- this_tree ;;
    match root t with
    | Some p => lift (calculateHash p) ;;; ret (root t)
    | None => ret (root t)
    end.

(** [MerkleTree::getRoot]. *)
Definition getRoot : M world (option ptr) :=
  t <- this_tree ;; ret (root t).

(** The loop of [calculateStatsRecursive] over [node->children]. *)
Fixpoint calculateStats_loop
    (rec : option ptr -> N * N * N -> M heap (N * N * N))
    (kids : list (string * option ptr)) (acc : N * N * N)
  : M heap (N * N * N) :=
  match kids with
  | [] => ret acc
  | child :: rest =>
      acc' <- rec (snd child) acc ;;
      calculateStats_loop rec rest acc'
  end.

(** [MerkleTree::calculateStatsRecursive]; the three reference
    parameters are passed in and returned. *)
Fixpoint calculateStatsRecursive_rec (fuel : nat) (node : option ptr)
    (acc : N * N * N) : M heap (N * N * N) :=
  match fuel with
  | O => undef
  | S fuel' =>
      match node with
      | None => ret acc
      | Some p =>
          let '(files, directories, totalSize) := acc in
          n <- load p ;;
          if isFile n then
            ret (wrap (files + 1), directories, wrap (totalSize + fileSize n))
          else
            calculateStats_loop (calculateStatsRecursive_rec fuel')
              (map_items (children n))
              (files, wrap (directories + 1), totalSize)
      end
  end.

Definition calculateStatsRecursive (node : option ptr) (acc : N * N * N)
  : M heap (N * N * N) :=
  fun h => calculateStatsRecursive_rec (S (length h)) node acc h.

(** [MerkleTree::getTreeStats]. *)
Definition getTreeStats : M world (N * N * N) :=
  t <- this_tree ;;
  match root t with
  | None => ret (0, 0, 0)%N
  | Some _ => lift (calculateStatsRecursive (root t) (0, 0, 0)%N)
  end.

(** The loop of [verifyNodeIntegrity] over [node->children]. *)
Fixpoint verifyNodeIntegrity_loop (rec : option ptr -> M heap bool)
    (kids : list (string * option ptr)) : M heap bool :=
  match kids with
  | [] => ret true
  | child :: rest =>
      ok <- rec (snd child) ;;
      if negb ok then ret false
      else verifyNodeIntegrity_loop rec rest
  end.

(** [MerkleTree::verifyNodeIntegrity]. *)
Fixpoint verifyNodeIntegrity_rec (fuel : nat) (node : option ptr)
  : M heap bool :=
  match fuel with
  | O => undef
  | S fuel' =>
      match node with
      | None => ret true
      | Some p =>
          n <- load p ;;
          let originalHash := hash n in
          calculatedHash <- calculateHash p ;;
          if negb (String.eqb originalHash calculatedHash) then ret false
          else
            n' <- load p ;;
            verifyNodeIntegrity_loop (verifyNodeIntegrity_rec fuel')
              (map_items (children n'))
      end
  end.

Definition verifyNodeIntegrity (node : option ptr) : M heap bool :=
  fun h => verifyNodeIntegrity_rec (S (length h)) node h.

(** [MerkleTree::verifyTreeIntegrity]. *)
Definition verifyTreeIntegrity : M world bool :=
  t <- this_tree ;;
  match root t with
  | None => ret true
  | Some _ => lift (verifyNodeIntegrity (root t))
  end.

(** The loop of [findNodeRecursive] over [node->children]. *)
Fixpoint findNode_loop (rec : option ptr -> M heap (option ptr))
    (kids : list (string * option ptr)) : M heap (option ptr) :=
  match kids with
  | [] => ret None
  | child :: rest =>
      result <- rec (snd child) ;;
      match result with
      | Some _ => ret result
      | None => findNode_loop rec rest
      end
  end.

(** [MerkleTree::findNodeRecursive]. *)
Fixpoint findNodeRecursive_rec (fuel : nat) (node : option ptr)
    (nm : string) : M heap (option ptr) :=
  match fuel with
  | O => undef
  | S fuel' =>
      match node with
      | None => ret None
      | Some p =>
          n <- load p ;;
          if String.eqb (name n) nm then ret node
          else
            findNode_loop (fun c => findNodeRecursive_rec fuel' c nm)
              (map_items (children n))
      end
  end.

Definition findNodeRecursive (node : option ptr) (nm : string)
  : M heap (option ptr) :=
  fun h => findNodeRecursive_rec (S (length h)) node nm h.

(** [MerkleTree::findNode]. *)
Definition findNode (nm : string) : M world (option ptr) :=
  t <- this_tree ;;
  match root t with
  | None => ret None
  | Some _ => lift (findNodeRecursive (root t) nm)
  end.

(** The loop of [nodeToJson] over the sorted names; [rec] is the call
    [nodeToJson(child, depth + 2)]. *)
Fixpoint nodeToJson_loop (rec : option ptr -> M heap string) (node : ptr)
    (childNames : list string) (ss : string) : M heap string :=
  match childNames with
  | [] => ret ss
  | childName :: rest =>
      n <- load node ;;
      let '(child, m) := map_subscript None (children n) childName in
      modify node (set_children m) ;;;
      text <- rec child ;;
      nodeToJson_loop rec node rest
        (ss +:+ text +:+ (if rest is [] then "" else ",") +:+ newline)
  end.

(** [MerkleTree::nodeToJson]. *)
Fixpoint nodeToJson_rec (fuel : nat) (node : option ptr) (depth : nat)
  : M heap string :=
  match fuel with
  | O => undef
  | S fuel' =>
      match node with
      | None => ret "null"
      | Some p =>
          n <- load p ;;
          let indent := spaces (depth * 2) in
          let childIndent := spaces ((depth + 1) * 2) in
          let ss :=
            indent +:+ dquote +:+ name n +:+ dquote +:+ ": {" +:+ newline
            +:+ childIndent +:+ dquote +:+ "type" +:+ dquote +:+ ": "
            +:+ dquote +:+ (if isFile n then "file" else "directory")
            +:+ dquote +:+ "," +:+ newline
            +:+ childIndent +:+ dquote +:+ "hash" +:+ dquote +:+ ": "
            +:+ dquote +:+ hash n +:+ dquote in
          ss <-
            (if isFile n then
               ret (ss +:+ "," +:+ newline
                    +:+ childIndent +:+ dquote +:+ "size" +:+ dquote +:+ ": "
                    +:+ decimal (fileSize n)
                    +:+ "," +:+ newline
                    +:+ childIndent +:+ dquote +:+ "chunks" +:+ dquote +:+ ": "
                    +:+ decimal (N.of_nat (length (chunkHashes n)))
                    +:+ "," +:+ newline
                    +:+ childIndent +:+ dquote +:+ "content_hash" +:+ dquote
                    +:+ ": " +:+ dquote +:+ contentHash n +:+ dquote)
             else if decide (children n = ∅) then ret ss
             else
               let childNames := sort (map_keys (children n)) in
               ss <- nodeToJson_loop
                       (fun c => nodeToJson_rec fuel' c (depth + 2)) p
                       childNames
                       (ss +:+ "," +:+ newline
                        +:+ childIndent +:+ dquote +:+ "children" +:+ dquote
                        +:+ ": {" +:+ newline) ;;
               ret (ss +:+ childIndent +:+ "}")) ;;
          ret (ss +:+ newline +:+ indent +:+ "}")
      end
  end.

Definition nodeToJson (node : option ptr) (depth : nat) : M heap string :=
  fun h => nodeToJson_rec (S (length h)) node depth h.

(** [MerkleTree::exportToJson]. *)
Definition exportToJson : M world string :=
  t <- this_tree ;;
  match root t with
  | None => ret "{}"
  | Some _ =>
      text <- lift (nodeToJson (root t) 1) ;;
      ret ("{" +:+ newline +:+ text +:+ newline +:+ "}")
  end.

(** ** Reference definitions, for stating the properties *)

(** The window of [c] bytes that starts at offset [i * c]. *)
Definition chunk_at (c : nat) (content : list byte) (i : nat) : list byte :=
  take c (drop (i * c) content).

(** The number of windows: the size divided by [c], rounded up. *)
Definition chunk_count (c : nat) (size : nat) : nat :=
  (size + (c - 1)) / c.

(** The digests of the windows number [from] to [from + n - 1]. *)
Definition chunk_hashes (c : nat) (content : list byte) (from n : nat)
  : list string :=
  (fun i => sha256 (string_of_list_byte (chunk_at c content i)))
    <$> seq from n.

(** The Merkle hash of the node at [p], computed without writing to the
    heap: a file has its content hash, a directory without children the
    digest of its name, any other directory the digest of the concatenation
    of ["<name>:<hash of the child>;"] over its children in increasing
    order of name. *)
Definition child_part (rec : ptr -> option string)
    (kc : string * option ptr) : option string :=
  c ← kc.2;
  childHash ← rec c;
  Some (kc.1 +:+ ":" +:+ childHash +:+ ";").

Fixpoint merkle_hash (fuel : nat) (h : heap) (p : ptr) : option string :=
  match fuel with
  | O => None
  | S fuel' =>
      n ← h !! p;
      if isFile n then Some (contentHash n)
      else if decide (children n = ∅) then Some (sha256 (name n))
      else
        parts ← mapM (child_part (merkle_hash fuel' h))
                     (map_items (children n));
        Some (sha256 (String.concat "" parts))
  end.

(** The result of [build_node] on an entry, read off the file system
    alone: [None] when the call throws, else the Merkle hash of the node
    it returns. A directory keeps, per name, the hash of the last entry
    of that name that could be built. *)
Fixpoint fs_hash (path : FsEntry) : option string :=
  match path with
  | FsMissing _ => None
  | FsFile _ content _ readable =>
      if readable then Some (sha256 (string_of_list_byte content)) else None
  | FsOther nm => Some (sha256 nm)
  | FsDir nm entries listing_ok =>
      if listing_ok then
        let kids :=
          foldl (fun (m : gmap string string) (e : FsEntry) =>
                   match fs_hash e with
                   | Some v => <[fs_filename e := v]> m
                   | None => m
                   end) ∅ entries in
        if decide (kids = ∅) then Some (sha256 nm)
        else Some (sha256 (String.concat ""
               ((fun kv : string * string => kv.1 +:+ ":" +:+ kv.2 +:+ ";")
                  <$> map_items kids)))
      else None
  end.

End MTFS.

(** The nodes of the tree under [node] in pre-order: a node before its
    children, the children in increasing order of name. *)
Fixpoint preorder (fuel : nat) (h : heap) (node : option ptr)
  : option (list ptr) :=
  match fuel with
  | O => None
  | S fuel' =>
      match node with
      | None => Some []
      | Some p =>
          n ← h !! p;
          below ← mapM (fun kc : string * option ptr =>
                          preorder fuel' h kc.2)
                       (map_items (children n));
          Some (p :: concat below)
      end
  end.

(** A heap in which every child was allocated after its parent, no child
    pointer is null and file nodes have no children: what [build_node]
    produces, [addChild] being the only way a child is attached. *)
Definition child_ok (len : nat) (p : ptr) (c : option ptr) : bool :=
  match c with
  | Some c' => (p <? c') && (c' <? len)
  | None => false
  end.

Definition node_ok (len : nat) (p : ptr) (n : MerkleNode) : bool :=
  forallb (fun kc : string * option ptr => child_ok len p kc.2)
          (map_to_list (children n))
  && (negb (isFile n) || bool_decide (children n = ∅)).

Definition heap_ok (h : heap) : bool :=
  forallb id (imap (node_ok (length h)) h).

(** The heap with the [hash] fields blanked: what [calculateHash] leaves
    alone. *)
Definition erase (h : heap) : heap := set_hash "" <$> h.

(** Unique names among the entries of every directory. *)
Fixpoint fs_unique (path : FsEntry) : Prop :=
  match path with
  | FsDir _ entries _ =>
      NoDup (fs_filename <$> entries)
      /\ foldr (fun e P => fs_unique e /\ P) True entries
  | _ => True
  end.

(** The error [build_node] throws on an entry it cannot build. *)
Definition build_error (path : FsEntry) : exn :=
  match path with
  | FsMissing _ => PathDoesNotExist
  | FsFile _ _ _ _ => ErrorProcessingFile CannotOpenFile
  | _ => ErrorReadingDirectory
  end.

(** The tree object once the nodes at [from .. from + len - 1] have been
    registered and the index has become [fo]. *)
Definition tree_ext (t : MerkleTree) (fo : gmap string ptr) (from len : nat)
  : MerkleTree :=
  mkTree (root t) fo (nodes t ++ seq from len) (CHUNK_SIZE t).

(** How a run that allocates from [length h] on changes the index: an
    entry is an old one or points to a new file node with that content
    hash; every new file node that has a content hash is covered by an
    entry that points to it or to a later node; an old key keeps its
    entry unless a new node took it over. *)
Definition index_step (h h' : heap) (fo fo' : gmap string ptr) : Prop :=
  (forall k p, fo' !! k = Some p ->
     fo !! k = Some p
     \/ (length h <= p /\
         exists n, h' !! p = Some n /\ isFile n = true /\ contentHash n = k))
  /\ (forall q n, length h <= q -> h' !! q = Some n -> isFile n = true ->
        contentHash n <> "" ->
        exists p, fo' !! contentHash n = Some p /\ q <= p)
  /\ (forall k p, fo !! k = Some p ->
        exists p', fo' !! k = Some p' /\ (p' = p \/ length h <= p')).

(** Nodes stay where they are, files as they are, directories
    directories. *)
Definition heap_keeps (h h' : heap) : Prop :=
  forall q n, h !! q = Some n ->
    exists n', h' !! q = Some n' /\ isFile n' = isFile n
               /\ (isFile n = true -> n' = n).

(** The children [m] of the node at [p] against the hashes [kids] of the
    entries built so far. *)
Definition kids_rel (sha256 : string -> string) (h : heap) (p : ptr)
    (m : gmap string (option ptr)) (kids : gmap string string) : Prop :=
  forall k,
    match m !! k, kids !! k with
    | None, None => True
    | Some (Some c), Some v =>
        p < c /\ merkle_hash sha256 (length h) h c = Some v
    | _, _ => False
    end.

(** The same directory contents, listed in another order. *)
#[warnings="-register-all"]
Inductive fs_same : FsEntry -> FsEntry -> Prop :=
  | fs_same_missing nm : fs_same (FsMissing nm) (FsMissing nm)
  | fs_same_file nm content size readable :
      fs_same (FsFile nm content size readable)
              (FsFile nm content size readable)
  | fs_same_other nm : fs_same (FsOther nm) (FsOther nm)
  | fs_same_dir nm es es' es'' ok :
      Forall2 fs_same es es' -> es' ≡ₚ es'' ->
      fs_same (FsDir nm es ok) (FsDir nm es'' ok).

(** [q] is in the tree under [p]. *)
Inductive reach (h : heap) : ptr -> ptr -> Prop :=
  | reach_here p : reach h p p
  | reach_child p n k c q :
      h !! p = Some n -> children n !! k = Some (Some c) ->
      reach h c q -> reach h p q.

(** The [hash] field of the node at [q] holds its Merkle hash. *)
Definition consistent (sha256 : string -> string) (h : heap) (q : ptr)
  : Prop :=
  exists n, h !! q = Some n
            /\ merkle_hash sha256 (length h) h q = Some (hash n).

(** What a run of [calculateHash] may write: a node of [h'] is the node
    of [h], or carries its Merkle hash. *)
Definition hash_writes (sha256 : string -> string) (h h' : heap) : Prop :=
  forall q n', h' !! q = Some n' ->
    h !! q = Some n' \/ merkle_hash sha256 (length h) h q = Some (hash n').

(** Counting over a list of addresses. *)
Definition is_file_at (h : heap) (q : ptr) : bool :=
  match h !! q with
  | Some n => isFile n
  | None => false
  end.

Definition is_dir_at (h : heap) (q : ptr) : bool :=
  match h !! q with
  | Some n => negb (isFile n)
  | None => false
  end.

Definition file_count (h : heap) (l : list ptr) : N :=
  N.of_nat (length (filter (fun q => is_file_at h q = true) l)).

Definition dir_count (h : heap) (l : list ptr) : N :=
  N.of_nat (length (filter (fun q => is_dir_at h q = true) l)).

Definition total_size (h : heap) (l : list ptr) : N :=
  foldr (fun q s =>
           match h !! q with
           | Some n => if isFile n then (fileSize n + s)%N else s
           | None => s
           end) 0%N l.

(** The counters of [calculateStatsRecursive] once the nodes [l] have
    been visited. *)
Definition add_stats (h : heap) (acc : N * N * N) (l : list ptr)
  : N * N * N :=
  (wrap (acc.1.1 + file_count h l), wrap (acc.1.2 + dir_count h l),
   wrap (acc.2 + total_size h l)).

Definition stats_in_range (acc : N * N * N) : Prop :=
  (acc.1.1 < size_t_modulus /\ acc.1.2 < size_t_modulus
   /\ acc.2 < size_t_modulus)%N.

(** The first address in [l] whose node is named [nm]. *)
Definition first_named (h : heap) (nm : string) (l : list ptr) : option ptr :=
  head (filter (fun q => name <$> h !! q = Some nm) l).

(** The heap while the directory [nm] allocated at [length h] is being
    filled: the directory node with the children [m] attached so far,
    then the nodes [ext] of the entries built so far. *)
Definition dir_heap (h : heap) (nm : string) (m : gmap string (option ptr))
    (ext : heap) : heap :=
  h ++ set_children m (new_node nm false) :: ext.

(** One turn of the loop of [build_node], on the hashes of the entries. *)
Definition fs_add_kid (sha256 : string -> string) (m : gmap string string)
    (e : FsEntry) : gmap string string :=
  match fs_hash sha256 e with
  | Some v => <[fs_filename e := v]> m
  | None => m
  end.

(** Whether [build_node] returns on an entry. *)
Definition fs_builds (path : FsEntry) : bool :=
  match path with
  | FsMissing _ => false
  | FsFile _ _ _ readable => readable
  | FsDir _ _ listing_ok => listing_ok
  | FsOther _ => true
  end.

(** The number of nodes [build_node] allocates on an entry, whether it
    returns or throws. *)
Fixpoint fs_alloc (path : FsEntry) : nat :=
  match path with
  | FsMissing _ => 0
  | FsFile _ _ _ _ => 1
  | FsOther _ => 1
  | FsDir _ entries _ => S (foldr (fun e n => fs_alloc e + n) 0 entries)
  end.

(** One turn of the loop of [build_node], on addresses: the entry is
    built at the next free address [am.2] and, when it could be built,
    attached under its name. *)
Definition fs_place (am : gmap string (ptr * FsEntry) * ptr) (e : FsEntry)
  : gmap string (ptr * FsEntry) * ptr :=
  (if fs_builds e then <[fs_filename e := (am.2, e)]> am.1 else am.1,
   am.2 + fs_alloc e).

(** The children of a directory whose entries are built from the address
    [base] on: per name, the address and the entry of the child. *)
Definition fs_children (base : ptr) (entries : list FsEntry)
  : gmap string (ptr * FsEntry) :=
  (foldl fs_place (∅, base) entries).1.

(** The node at [p] and the nodes below it are what [build_node] makes of
    the entry, with chunk size [c]; the [hash] fields are left open. *)
Inductive mirrors (sha256 : string -> string) (c : nat) (h : heap)
  : ptr -> FsEntry -> Prop :=
  | mirrors_file p n nm content size :
      h !! p = Some n ->
      set_hash "" n
      = mkNode nm "" (sha256 (string_of_list_byte content))
          (chunk_hashes sha256 c content 0 (chunk_count c (length content)))
          ∅ true (wrap size) (-1)%Z ->
      mirrors sha256 c h p (FsFile nm content size true)
  | mirrors_other p n nm :
      h !! p = Some n ->
      set_hash "" n = new_node nm false ->
      mirrors sha256 c h p (FsOther nm)
  | mirrors_dir p n nm entries :
      h !! p = Some n ->
      set_hash "" n
      = set_children ((fun ae : ptr * FsEntry => Some ae.1)
                        <$> fs_children (S p) entries)
          (new_node nm false) ->
      (forall k a e, fs_children (S p) entries !! k = Some (a, e) ->
         mirrors sha256 c h a e) ->
      mirrors sha256 c h p (FsDir nm entries true).

(** The height of the tree under [p]: 0 for a node without children. *)
Fixpoint height (fuel : nat) (h : heap) (p : ptr) : option Z :=
  match fuel with
  | O => None
  | S fuel' =>
      n ← h !! p;
      if decide (children n = ∅) then Some 0%Z
      else
        ds ← mapM (fun kc : string * option ptr =>
                     c ← kc.2; height fuel' h c)
                  (map_items (children n));
        Some (foldl Z.max 0%Z ds + 1)%Z
  end.

(** The heap with the depth caches unset: what [getDepth] leaves
    alone. *)
Definition uncache (h : heap) : heap := set_cachedDepth (-1) <$> h.

(** The depth cache of the node at [q] is unset or holds the height of
    the node. *)
Definition cache_valid (h : heap) (q : ptr) : Prop :=
  forall n, h !! q = Some n ->
    cachedDepth n = (-1)%Z \/ height (length h) h q = Some (cachedDepth n).

(** The loop of [build_node] so far, on addresses: [am] holds the
    children attached and the next free address. *)
Definition placed (sha256 : string -> string) (c : nat) (h : heap)
    (nm : string) (m : gmap string (option ptr)) (ext : heap)
    (am : gmap string (ptr * FsEntry) * ptr) : Prop :=
  am.2 = length (dir_heap h nm m ext)
  /\ m = (fun ae : ptr * FsEntry => Some ae.1) <$> am.1
  /\ forall k a e, am.1 !! k = Some (a, e) ->
       length h < a /\ a + fs_alloc e <= am.2
       /\ mirrors sha256 c (dir_heap h nm m ext) a e.

(** What [build_node] on [path] does from the state [w], whatever the
    outcome: it only appends to the heap, as many nodes as [fs_alloc]
    says, registers each node it allocates, leaves the heap well formed,
    and returns the first node it allocated, whose Merkle hash is
    [fs_hash path] and under which the heap mirrors the entry, exactly
    when [fs_hash path] is defined. *)
Definition build_post (sha256 : string -> string) (path : FsEntry)
    (w : world) (out : outcome world ptr) : Prop :=
  exists ext fo',
    let h' := w.1 ++ ext in
    let t' := tree_ext w.2 fo' (length w.1) (length ext) in
    heap_ok h' = true
    /\ index_step w.1 h' (file_objects w.2) fo'
    /\ (fs_exists path = true -> 0 < length ext)
    /\ (fs_exists path = false -> ext = [] /\ fo' = file_objects w.2)
    /\ length ext = fs_alloc path
    /\ match fs_hash sha256 path with
       | Some v =>
           out = Ret (length w.1) (h', t')
           /\ merkle_hash sha256 (length h') h' (length w.1) = Some v
           /\ name <$> h' !! length w.1 = Some (fs_filename path)
           /\ mirrors sha256 (N.to_nat (CHUNK_SIZE w.2)) h' (length w.1) path
       | None => out = Throw (build_error path) (h', t')
       end.

(** ** The public member functions, as a caller reaches them *)

Inductive call : Type :=
  | call_build_tree (fsys : filesystem) (directory_path : string)
  | call_getRoot
  | call_getTreeStats
  | call_verifyTreeIntegrity
  | call_findNode (nm : string)
  | call_exportToJson
  | call_setChunkSize (chunkSize : N)
  | call_getChunkSize.

(** One call; the file system is the one at the time of the call, the
    result is dropped. *)
Definition run_call (sha256 : string -> string) (c : call) : M world unit :=
  match c with
  | call_build_tree fsys directory_path =>
      build_tree sha256 fsys directory_path ;;; ret tt
  | call_getRoot => getRoot ;;; ret tt
  | call_getTreeStats => getTreeStats ;;; ret tt
  | call_verifyTreeIntegrity => verifyTreeIntegrity sha256 ;;; ret tt
  | call_findNode nm => findNode nm ;;; ret tt
  | call_exportToJson => exportToJson ;;; ret tt
  | call_setChunkSize chunkSize => setChunkSize chunkSize
  | call_getChunkSize => getChunkSize ;;; ret tt
  end.

(** A sequence of calls by a caller that catches every exception and
    goes on, as the command line does. *)
Fixpoint run_calls (sha256 : string -> string) (cs : list call)
  : M world unit :=
  match cs with
  | [] => ret tt
  | c :: rest =>
      try_catch (run_call sha256 c) (fun _ => ret tt) ;;;
      run_calls sha256 rest
  end.

(** What the member functions rely on and keep: the heap is well formed,
    the chunk size is within its bounds and the root, when set, is a
    live node. *)
Definition tree_inv (w : world) : Prop :=
  heap_ok w.1 = true
  /\ (MIN_CHUNK_SIZE <= CHUNK_SIZE w.2 <= MAX_CHUNK_SIZE)%N
  /\ (forall p, root w.2 = Some p -> p < length w.1).

(** ** Utilities *)

(** [s.find_last_of(c)]: the position of the last [c] in [s]; [None] is
    [string::npos]. *)
Fixpoint find_last_of (c : ascii) (s : string) : option nat :=
  match s with
  | EmptyString => None
  | String a rest =>
      match find_last_of c rest with
      | Some i => Some (S i)
      | None => if Ascii.eqb a c then Some 0 else None
      end
  end.

(** [getFileExtension]. When a position is found the name is not empty,
    so [filename.length() - 1] does not wrap around. *)
Definition getFileExtension (filename : string) : string :=
  match find_last_of "." filename with
  | None => ""
  | Some pos =>
      if (pos =? 0) || (pos =? String.length filename - 1) then ""
      else substring pos (String.length filename - pos) filename
  end.




(** ** Sample data *)

(** A stand-in digest for running the definitions on examples. *)
Definition toy_digest (s : string) : string := "#" +:+ s.

Definition bytes (s : string) : list byte := list_byte_of_string s.

Definition empty_world : world := ([], new_tree).


(** A small file system: a directory [data] with two files of the same
    content in two subdirectories and one more file, and a directory
    [locked] that cannot be listed. *)
Definition sample_data : FsEntry :=
  FsDir "data"
    [ FsDir "x" [FsFile "a.txt" (bytes "hello") 5 true] true;
      FsFile "b.txt" (bytes "world!") 6 true;
      FsDir "y" [FsFile "c.txt" (bytes "hello") 5 true] true ]
    true.

Definition sample_fs : filesystem :=
  fun path =>
    if String.eqb path "data" then sample_data
    else if String.eqb path "locked" then FsDir "locked" [] false
    else if String.eqb path "data/b.txt" then
      FsFile "b.txt" (bytes "world!") 6 true
    else FsMissing path.

(** The state after [build_tree("data")] on a fresh tree. *)
Definition sample_world : world :=
  Eval vm_compute in
    match build_tree toy_digest sample_fs "data" empty_world with
    | Ret _ w => w
    | _ => empty_world
    end.

(** A fresh tree whose chunk size has been set to 1024. *)
Definition sample_small_chunks : world :=
  ([], set_CHUNK_SIZE 1024 new_tree).

(** [sample_data] with the entries of each directory in another order. *)
Definition sample_data_reordered : FsEntry :=
  FsDir "data"
    [ FsDir "y" [FsFile "c.txt" (bytes "hello") 5 true] true;
      FsDir "x" [FsFile "a.txt" (bytes "hello") 5 true] true;
      FsFile "b.txt" (bytes "world!") 6 true ]
    true.

Definition sample_fs_reordered : filesystem :=
  fun path =>
    if String.eqb path "data" then sample_data_reordered
    else FsMissing path.

(** The state after a further [build_tree("locked")], which throws. *)
Definition sample_world_failed : world :=
  Eval vm_compute in
    match build_tree toy_digest sample_fs "locked" sample_world with
    | Throw _ w => w
    | _ => empty_world
    end.


(** The sample tree with two more nodes allocated, a directory [new]
    holding a directory [deep], not yet attached to the tree; the same
    after [getDepth] on the root; and the latter with [new] attached
    under the directory [x]. *)
Definition sample_pending : list MerkleNode :=
  Eval vm_compute in
    match (make_shared "new" false ;;; make_shared "deep" false ;;;
           addChild 6 (Some 7)) sample_world.1 with
    | Ret _ h => h
    | _ => []
    end.

Definition sample_depth_cached : list MerkleNode :=
  Eval vm_compute in
    match getDepth 0 sample_pending with
    | Ret _ h => h
    | _ => []
    end.

Definition sample_grown : list MerkleNode :=
  Eval vm_compute in
    match addChild 1 (Some 6) sample_depth_cached with
    | Ret _ h => h
    | _ => []
    end.


(** * Properties *)

Section Basics.

Context (sha256 : string -> string).

(** ** Strings and bytes *)

Lemma append_cons (a : ascii) (s t : string) :
  String a s +:+ t = String a (s +:+ t).
Proof. reflexivity. Qed.

Lemma append_nil_r (s : string) : s +:+ "" = s.
Proof.
  induction s as [|a s IH]; [done | by rewrite append_cons, IH].
Qed.

Lemma append_assoc (a b c : string) : (a +:+ b) +:+ c = a +:+ (b +:+ c).
Proof.
  induction a as [|x a IH]; [done | by rewrite !append_cons, IH].
Qed.

Lemma string_of_list_byte_app (a b : list byte) :
  string_of_list_byte (a ++ b)
  = string_of_list_byte a +:+ string_of_list_byte b.
Proof.
  unfold string_of_list_byte.
  induction a as [|x a IH]; [done |].
  by rewrite <- app_comm_cons, !map_cons; cbn [string_of_list_ascii];
     rewrite append_cons, IH.
Qed.

(** ** Sorting and map iteration *)

Lemma sort_perm (l : list string) : sort l ≡ₚ l.
Proof. apply merge_sort_Permutation. Qed.

Lemma sort_sorted (l : list string) : StronglySorted String.le (sort l).
Proof. apply StronglySorted_merge_sort; apply _. Qed.

Lemma sort_id (l : list string) :
  StronglySorted String.le l -> sort l = l.
Proof.
  intros Hl. apply (StronglySorted_unique String.le);
    [apply sort_sorted | done | apply sort_perm].
Qed.

Lemma sort_idemp (l : list string) : sort (sort l) = sort l.
Proof. apply sort_id, sort_sorted. Qed.

Lemma map_keys_perm {V} (m : gmap string V) :
  map_keys m ≡ₚ (map_to_list m).*1.
Proof. apply sort_perm. Qed.

Lemma elem_of_map_keys {V} (m : gmap string V) (k : string) :
  k ∈ map_keys m <-> is_Some (m !! k).
Proof.
  rewrite map_keys_perm, list_elem_of_fmap. split.
  - intros [[k' v] [-> Hin]]. apply elem_of_map_to_list in Hin. by exists v.
  - intros [v Hv]. exists (k, v). split; [done|].
    by apply elem_of_map_to_list.
Qed.

Lemma NoDup_map_keys {V} (m : gmap string V) : NoDup (map_keys m).
Proof. rewrite map_keys_perm. apply NoDup_fst_map_to_list. Qed.

Lemma map_keys_sorted {V} (m : gmap string V) :
  StronglySorted String.le (map_keys m).
Proof. apply sort_sorted. Qed.

Lemma sort_map_keys {V} (m : gmap string V) :
  sort (map_keys m) = map_keys m.
Proof. apply sort_idemp. Qed.

Lemma map_keys_empty {V} : map_keys (∅ : gmap string V) = [].
Proof.
  apply Permutation_nil_r. rewrite map_keys_perm.
  by rewrite map_to_list_empty.
Qed.

Lemma map_keys_nil {V} (m : gmap string V) : map_keys m = [] -> m = ∅.
Proof.
  intros E. apply map_empty. intros k.
  destruct (m !! k) as [v|] eqn:Hk; [|done].
  assert (Hin : k ∈ map_keys m) by (apply elem_of_map_keys; eauto).
  rewrite E in Hin. by apply elem_of_nil in Hin.
Qed.

(** The entries come in the order of the keys, each key with its value. *)
Lemma map_items_fst {V} (m : gmap string V) :
  (map_items m).*1 = map_keys m.
Proof.
  unfold map_items.
  assert (H : Forall (fun k => is_Some (m !! k)) (map_keys m)).
  { apply Forall_forall. intros k. apply elem_of_map_keys. }
  induction H as [|k l [v Hv] _ IH]; [done|].
  cbn [omap list_omap]. rewrite Hv. cbn. by rewrite IH.
Qed.

Lemma elem_of_map_items {V} (m : gmap string V) (k : string) (v : V) :
  (k, v) ∈ map_items m <-> m !! k = Some v.
Proof.
  unfold map_items. rewrite list_elem_of_omap. split.
  - intros (k' & _ & Hk). destruct (m !! k') as [v'|] eqn:E; [|done].
    cbn in Hk. by simplify_eq.
  - intros Hk. exists k. split; [apply elem_of_map_keys; eauto|].
    by rewrite Hk.
Qed.

Lemma map_items_empty {V} : map_items (∅ : gmap string V) = [].
Proof. unfold map_items. by rewrite map_keys_empty. Qed.

Lemma map_items_lookup {V} (m : gmap string V) :
  map_items m = omap (fun k => pair k <$> m !! k) (map_keys m).
Proof. done. Qed.

(** Names are visited in strictly increasing order. *)
Lemma map_items_increasing {V} (m : gmap string V) :
  StronglySorted (strict String.le) (map_items m).*1.
Proof.
  rewrite map_items_fst.
  pose proof (map_keys_sorted m) as Hs. pose proof (NoDup_map_keys m) as Hn.
  induction Hs as [|k l Hl IH Hk]; [constructor|].
  apply NoDup_cons in Hn as [Hnk Hn]. constructor; [by apply IH|].
  apply Forall_forall. intros k' Hin. split.
  - by eapply Forall_forall in Hk.
  - intros Hle. assert (k = k'); [|by subst].
    apply (anti_symm String.le); [|done]. by eapply Forall_forall in Hk.
Qed.

Lemma map_subscript_present {V} (d v : V) (m : gmap string V) (k : string) :
  m !! k = Some v -> map_subscript d m k = (v, m).
Proof. intros H. unfold map_subscript. by rewrite H. Qed.

Lemma map_subscript_absent {V} (d : V) (m : gmap string V) (k : string) :
  m !! k = None -> map_subscript d m k = (d, <[k := d]> m).
Proof. intros H. unfold map_subscript. by rewrite H. Qed.

(** ** Chunk size *)

Lemma chunk_bounds_values :
  MIN_CHUNK_SIZE = 1024%N /\ MAX_CHUNK_SIZE = 104857600%N
  /\ DEFAULT_CHUNK_SIZE = 1048576%N.
Proof. by vm_compute. Qed.

(** C5. [setChunkSize n] returns, with the chunk size set to [n] and the
    rest of the tree as it was, exactly when [1024 <= n <= 104857600];
    outside these bounds it throws the invalid-chunk-size error and
    leaves the state, the stored chunk size included, unchanged. In
    particular 1024 and 104857600 are accepted, 1023 and 104857601
    refused. *)
Theorem setChunkSize_bounds (n : N) (w : world) :
  ((1024 <= n <= 104857600)%N <->
     setChunkSize n w = Ret tt (w.1, set_CHUNK_SIZE n w.2))
  /\ (~ (1024 <= n <= 104857600)%N <->
        setChunkSize n w = Throw InvalidChunkSize w)
  /\ CHUNK_SIZE (set_CHUNK_SIZE n w.2) = n
  /\ setChunkSize 1024 w = Ret tt (w.1, set_CHUNK_SIZE 1024 w.2)
  /\ setChunkSize 104857600 w = Ret tt (w.1, set_CHUNK_SIZE 104857600 w.2)
  /\ setChunkSize 1023 w = Throw InvalidChunkSize w
  /\ setChunkSize 104857601 w = Throw InvalidChunkSize w.
Proof.
  assert (Hdec : forall m : N,
    setChunkSize m w =
      if decide (1024 <= m <= 104857600)%N
      then Ret tt (w.1, set_CHUNK_SIZE m w.2)
      else Throw InvalidChunkSize w).
  { intros m. unfold setChunkSize.
    destruct chunk_bounds_values as (-> & -> & _).
    destruct (N.ltb_spec m 1024), (N.ltb_spec 104857600 m); simpl;
      case_decide; try lia; done. }
  rewrite !Hdec. repeat case_decide; try lia; intuition congruence.
Qed.

(** ** The chunked reader *)

Lemma chunk_count_0 (c : nat) : 0 < c -> chunk_count c 0 = 0.
Proof.
  intros Hc. unfold chunk_count. apply Nat.div_small. lia.
Qed.

Lemma chunk_count_short (c s : nat) : 0 < s -> s <= c -> chunk_count c s = 1.
Proof.
  intros Hs Hc. unfold chunk_count.
  replace (s + (c - 1)) with (s - 1 + 1 * c) by lia.
  rewrite Nat.div_add by lia. rewrite Nat.div_small by lia. done.
Qed.

Lemma chunk_count_step (c s : nat) :
  0 < c -> c <= s -> chunk_count c s = S (chunk_count c (s - c)).
Proof.
  intros Hc Hs. unfold chunk_count.
  replace (s + (c - 1)) with (s - c + (c - 1) + 1 * c) by lia.
  rewrite Nat.div_add by lia. lia.
Qed.


Lemma read_chunks_good (c : nat) (Hc : 0 < c) (content : list byte)
    (pos : Z) :
  forall fuel k done rest entire hashes,
    content = done ++ rest ->
    length done = k * c ->
    length rest + 2 <= fuel ->
    read_chunks sha256 fuel c (mkStream rest true pos) entire hashes
    = Some (entire +:+ string_of_list_byte rest,
            hashes ++ chunk_hashes sha256 c content k
                        (chunk_count c (length rest))).
Proof.
  induction fuel as [|fuel IH]; intros k done rest entire hashes E Hd Hf;
    [lia|].
  assert (Hat : chunk_at c content k = take c rest).
  { unfold chunk_at. by rewrite E, <- Hd, drop_app_length. }
  cbn [read_chunks]. unfold ifstream_read. cbn [good unread end_pos].
  case_decide as Hle.
  - cbn [good orb].
    rewrite (IH (S k) (done ++ take c rest) (drop c rest)).
    + rewrite append_assoc, <- string_of_list_byte_app, take_drop.
      rewrite (chunk_count_step c (length rest)) by lia.
      rewrite length_drop. unfold chunk_hashes at 2.
      cbn [seq fmap list_fmap]. rewrite Hat, <- (assoc_L (++)). done.
    + by rewrite <- (assoc_L (++)), take_drop.
    + rewrite length_app, length_take. lia.
    + rewrite length_drop. lia.
  - cbn [good orb]. destruct rest as [|b rest].
    + simpl. rewrite chunk_count_0 by done. unfold chunk_hashes. simpl.
      by rewrite append_nil_r, (right_id_L [] (++)).
    + rewrite bool_decide_eq_true_2 by (simpl; lia).
      destruct fuel as [|fuel]; [simpl in Hf; lia|].
      cbn [read_chunks]. unfold ifstream_read. cbn [good unread end_pos orb].
      rewrite bool_decide_eq_false_2 by (simpl; lia).
      rewrite chunk_count_short by (simpl in *; lia).
      unfold chunk_hashes. cbn [seq fmap list_fmap].
      rewrite Hat, take_ge by lia. done.
Qed.

Lemma size_t_of_pos_of_N (n : N) : size_t_of_pos (Z.of_N n) = wrap n.
Proof.
  unfold size_t_of_pos, wrap.
  rewrite <- N2Z.inj_mod. apply N2Z.id.
Qed.


(** ** Heaps *)

Lemma set_hash_id (n : MerkleNode) : set_hash (hash n) n = n.
Proof. by destruct n. Qed.

Lemma set_children_id (n : MerkleNode) : set_children (children n) n = n.
Proof. by destruct n. Qed.

Lemma set_hash_eq (n n' : MerkleNode) :
  set_hash "" n' = set_hash "" n -> n' = set_hash (hash n') n.
Proof.
  destruct n, n'. unfold set_hash. simpl.
  by intros [= -> -> -> -> -> -> ->].
Qed.

Lemma node_ok_spec (len : nat) (p : ptr) (n : MerkleNode) :
  node_ok len p n = true <->
  (forall k c, children n !! k = Some c ->
     exists c', c = Some c' /\ p < c' < len)
  /\ (isFile n = true -> children n = ∅).
Proof.
  unfold node_ok. rewrite andb_true_iff, forallb_forall. split.
  - intros [Hk Hf]. split.
    + intros k c Hkc.
      specialize (Hk (k, c)). cbn in Hk.
      rewrite <- list_elem_of_In, elem_of_map_to_list in Hk.
      specialize (Hk Hkc). destruct c as [c'|]; [|done]. exists c'.
      cbn in Hk. apply andb_true_iff in Hk as [H1 H2].
      apply Nat.ltb_lt in H1, H2. done.
    + intros Hfile. rewrite Hfile in Hf. cbn in Hf.
      by apply bool_decide_eq_true in Hf.
  - intros [Hk Hf]. split.
    + intros [k c] Hin.
      apply list_elem_of_In, elem_of_map_to_list in Hin.
      destruct (Hk k c Hin) as (c' & -> & H1 & H2). cbn.
      apply andb_true_iff. split; by apply Nat.ltb_lt.
    + destruct (isFile n); [|done]. cbn. apply bool_decide_eq_true. auto.
Qed.

Lemma heap_ok_lookup (h : heap) :
  heap_ok h = true <->
  forall p n, h !! p = Some n -> node_ok (length h) p n = true.
Proof.
  unfold heap_ok. rewrite forallb_forall. split.
  - intros H p n Hp. apply (H (node_ok (length h) p n)).
    apply list_elem_of_In, list_elem_of_lookup. exists p.
    by rewrite list_lookup_imap, Hp.
  - intros H b Hin. apply list_elem_of_In, list_elem_of_lookup in Hin as [p Hp].
    rewrite list_lookup_imap in Hp.
    destruct (h !! p) as [n|] eqn:E; [|done]. cbn in Hp. simplify_eq.
    by apply H.
Qed.

Lemma heap_ok_child (h : heap) (p : ptr) (n : MerkleNode) (k : string)
    (c : option ptr) :
  heap_ok h = true -> h !! p = Some n -> children n !! k = Some c ->
  exists c', c = Some c' /\ p < c' < length h.
Proof.
  intros Hok Hp Hk. eapply heap_ok_lookup in Hok; [|done].
  apply node_ok_spec in Hok as [H _]. eauto.
Qed.

Lemma heap_ok_file (h : heap) (p : ptr) (n : MerkleNode) :
  heap_ok h = true -> h !! p = Some n -> isFile n = true -> children n = ∅.
Proof.
  intros Hok Hp Hf. eapply heap_ok_lookup in Hok; [|done].
  apply node_ok_spec in Hok as [_ H]. eauto.
Qed.

Lemma erase_length (h : heap) : length (erase h) = length h.
Proof. apply length_fmap. Qed.

Lemma erase_eq_length (h h' : heap) : erase h' = erase h -> length h' = length h.
Proof. intros E. by rewrite <- (erase_length h), <- E, erase_length. Qed.

Lemma erase_lookup (h : heap) (p : ptr) :
  erase h !! p = set_hash "" <$> h !! p.
Proof. apply list_lookup_fmap. Qed.

Lemma erase_eq_lookup (h h' : heap) (p : ptr) (n : MerkleNode) :
  erase h' = erase h -> h !! p = Some n ->
  exists n', h' !! p = Some n' /\ n' = set_hash (hash n') n.
Proof.
  intros E Hp. pose proof (erase_lookup h' p) as H'.
  rewrite E, erase_lookup, Hp in H'. cbn in H'.
  destruct (h' !! p) as [n'|]; [|done]. cbn in H'.
  exists n'. split; [done|]. apply set_hash_eq. congruence.
Qed.

Lemma erase_insert (h : heap) (p : ptr) (n : MerkleNode) (v : string) :
  h !! p = Some n -> erase (<[p := set_hash v n]> h) = erase h.
Proof.
  intros Hp. unfold erase. rewrite list_fmap_insert.
  apply list_insert_id. by rewrite list_lookup_fmap, Hp.
Qed.

Lemma heap_ok_erase (h : heap) : heap_ok (erase h) = heap_ok h.
Proof.
  unfold heap_ok, erase. rewrite length_fmap, imap_fmap. done.
Qed.

Lemma heap_ok_erase_eq (h h' : heap) :
  erase h' = erase h -> heap_ok h' = heap_ok h.
Proof. intros E. by rewrite <- (heap_ok_erase h'), E, heap_ok_erase. Qed.

Lemma concat_cons (x : string) (l : list string) :
  String.concat "" (x :: l) = x +:+ String.concat "" l.
Proof. destruct l; cbn [String.concat]; [by rewrite append_nil_r | done]. Qed.

Lemma merkle_hash_erase (f : nat) (h : heap) (p : ptr) :
  merkle_hash sha256 f (erase h) p = merkle_hash sha256 f h p.
Proof.
  revert p. induction f as [|f IH]; intros p; [done|].
  cbn [merkle_hash]. rewrite erase_lookup.
  destruct (h !! p) as [n|]; [|done]. cbn.
  destruct (isFile n); [done|]. case_decide; [done|].
  by rewrite (mapM_ext _ (child_part (merkle_hash sha256 f h)))
    by (intros [k [c|]]; unfold child_part; cbn; [by rewrite IH | done]).
Qed.

Lemma merkle_hash_erase_eq (f : nat) (h h' : heap) (p : ptr) :
  erase h' = erase h ->
  merkle_hash sha256 f h' p = merkle_hash sha256 f h p.
Proof.
  intros E. by rewrite <- (merkle_hash_erase f h'), E, merkle_hash_erase.
Qed.

Lemma merkle_hash_mono (f f' : nat) (h : heap) (p : ptr) (v : string) :
  merkle_hash sha256 f h p = Some v -> f <= f' ->
  merkle_hash sha256 f' h p = Some v.
Proof.
  revert f' p v. induction f as [|f IH]; intros f' p v H Hle; [done|].
  destruct f' as [|f']; [lia|]. cbn [merkle_hash] in *.
  destruct (h !! p) as [n|]; [|done]. cbn in *.
  destruct (isFile n); [done|]. case_decide; [done|].
  destruct (mapM _ _) as [parts|] eqn:E; [|done]. cbn in H.
  rewrite (mapM_Some_2 (child_part (merkle_hash sha256 f' h)) _ parts);
    [done|].
  apply mapM_Some_1 in E. eapply Forall2_impl; [exact E|].
  intros [k [c|]] part; unfold child_part; cbn; [|done].
  destruct (merkle_hash sha256 f h c) as [ch|] eqn:Ec; [|done].
  intros ?. rewrite (IH f' c ch); [done|done|lia].
Qed.

End Basics.

Section CalculateHash.

Context (sha256 : string -> string).

(** ** [calculateHash] *)

(** What the node at [p] contributes for its child named [k]. *)
Lemma mapM_map_items {V B} (g : string * V -> option B) (m : gmap string V) :
  mapM g (map_items m) = mapM (fun k => v ← m !! k; g (k, v)) (map_keys m).
Proof.
  unfold map_items.
  assert (H : Forall (fun k => is_Some (m !! k)) (map_keys m)).
  { apply Forall_forall. intros k. apply elem_of_map_keys. }
  induction H as [|k l [v Hv] _ IH]; [done|].
  cbn [omap list_omap mapM]. rewrite Hv. cbn. by rewrite IH.
Qed.

Lemma calculateHash_loop_spec (f : nat) (p : ptr)
    (m : gmap string (option ptr)) :
  (forall c h r h', calculateHash_rec sha256 f c h = Ret r h' ->
     merkle_hash sha256 f h c = Some r /\ erase h' = erase h) ->
  forall names combined h r h' n,
    h !! p = Some n -> children n = m ->
    calculateHash_loop (calculateHash_rec sha256 f) p names combined h
    = Ret r h' ->
    exists parts,
      mapM (fun k => v ← m !! k; child_part (merkle_hash sha256 f h) (k, v))
           names = Some parts
      /\ r = combined +:+ String.concat "" parts
      /\ erase h' = erase h.
Proof.
  intros IH. induction names as [|k names IHn];
    intros combined h r h' n Hp Hm Hrun.
  - cbn in Hrun. inversion Hrun; subst. exists []. cbn.
    by rewrite append_nil_r.
  - cbn [calculateHash_loop] in Hrun. unfold bind at 1, load in Hrun.
    rewrite Hp in Hrun. unfold map_subscript in Hrun. rewrite Hm in Hrun.
    destruct (m !! k) as [[c|]|] eqn:Hk.
    + unfold bind at 1, modify in Hrun. rewrite Hp in Hrun.
      rewrite <- Hm, set_children_id, list_insert_id in Hrun by done.
      unfold bind at 1 in Hrun.
      destruct (calculateHash_rec sha256 f c h) as [ch h1| |] eqn:Hc;
        [|done|done].
      destruct (IH _ _ _ _ Hc) as [Hch E1].
      destruct (erase_eq_lookup h h1 p n E1 Hp) as (n1 & Hp1 & Hn1).
      destruct (IHn _ _ _ _ n1 Hp1 ltac:(by rewrite Hn1) Hrun)
        as (parts & Hparts & -> & E2).
      exists ((k +:+ ":" +:+ ch +:+ ";") :: parts). split; [|split].
      * assert (Hparts' : mapM (fun k => v ← m !! k;
                   child_part (merkle_hash sha256 f h) (k, v)) names
                 = Some parts).
        { rewrite <- Hparts. apply mapM_ext. intros k'.
          destruct (m !! k') as [[c'|]|]; cbn; try done.
          by rewrite (merkle_hash_erase_eq sha256 f h h1). }
        cbn [mapM]. rewrite Hk, Hparts'. cbn. rewrite Hch. done.
      * by rewrite concat_cons, append_assoc.
      * congruence.
    + unfold bind at 1, modify in Hrun. rewrite Hp in Hrun. done.
    + unfold bind at 1, modify in Hrun. rewrite Hp in Hrun. done.
Qed.

Lemma calculateHash_rec_spec (f : nat) :
  forall p h r h', calculateHash_rec sha256 f p h = Ret r h' ->
    merkle_hash sha256 f h p = Some r /\ erase h' = erase h.
Proof.
  induction f as [|f IH]; intros p h r h' Hrun; [done|].
  cbn [calculateHash_rec merkle_hash] in *.
  unfold bind at 1, load in Hrun.
  destruct (h !! p) as [n|] eqn:Hp; [|done]. cbn.
  destruct (isFile n).
  - unfold bind, modify, ret in Hrun. rewrite Hp in Hrun.
    inversion Hrun; subst. split; [done|]. by apply erase_insert.
  - case_decide as Hempty.
    + unfold bind, modify, ret in Hrun. rewrite Hp in Hrun.
      inversion Hrun; subst. split; [done|]. by apply erase_insert.
    + unfold bind at 1 in Hrun.
      destruct (calculateHash_loop _ _ _ _ _) as [comb h1| |] eqn:Hloop;
        [|done|done].
      eapply (calculateHash_loop_spec f p (children n) IH) in Hloop
        as (parts & Hparts & -> & E1); [|done|done].
      destruct (erase_eq_lookup h h1 p n E1 Hp) as (n1 & Hp1 & Hn1).
      unfold bind, modify, ret in Hrun. rewrite Hp1 in Hrun.
      inversion Hrun; subst. rewrite sort_map_keys in Hparts.
      rewrite mapM_map_items. cbn [String.append] in *.
      setoid_rewrite Hparts. cbn. split; [done|].
      rewrite erase_insert by done. done.
Qed.

(** The value returned is the value stored in the [hash] field. *)
Lemma calculateHash_rec_stored (f : nat) (p : ptr) (h h' : heap) (r : string) :
  calculateHash_rec sha256 f p h = Ret r h' -> hash <$> h' !! p = Some r.
Proof.
  destruct f as [|f]; [done|]. cbn [calculateHash_rec].
  unfold bind at 1, load. destruct (h !! p) as [n|] eqn:Hp; [|done].
  assert (Hfin : forall v (h1 h2 : heap),
    (modify p (set_hash v) ;;; ret v) h1 = Ret r h2 ->
    hash <$> h2 !! p = Some r).
  { intros v h1 h2. unfold bind, modify, ret.
    destruct (h1 !! p) as [n1|] eqn:Hp1; [|done]. intros [= <- <-].
    rewrite list_lookup_insert_eq by (by eapply lookup_lt_Some). done. }
  destruct (isFile n); [apply Hfin|]. case_decide; [apply Hfin|].
  unfold bind at 1. destruct (calculateHash_loop _ _ _ _ _); [|done|done].
  apply Hfin.
Qed.

Lemma calculateHash_loop_total (f : nat) (p : ptr) (h : heap)
    (n : MerkleNode) :
  heap_ok h = true -> h !! p = Some n ->
  (forall c h1 n1, erase h1 = erase h -> p < c -> h1 !! c = Some n1 ->
     exists r h', calculateHash_rec sha256 f c h1 = Ret r h') ->
  forall names combined h1,
    erase h1 = erase h ->
    Forall (fun k => is_Some (children n !! k)) names ->
    exists r h',
      calculateHash_loop (calculateHash_rec sha256 f) p names combined h1
      = Ret r h'.
Proof.
  intros Hok Hp IH. induction names as [|k names IHn];
    intros combined h1 E1 Hnames.
  - by exists combined, h1.
  - apply Forall_cons in Hnames as [[v Hk] Hnames].
    destruct (heap_ok_child h p n k v Hok Hp Hk) as (c & -> & Hpc & Hc).
    destruct (erase_eq_lookup h h1 p n E1 Hp) as (n1 & Hp1 & Hn1).
    cbn [calculateHash_loop]. unfold bind at 1, load. rewrite Hp1.
    assert (Hch : children n1 = children n) by (by rewrite Hn1).
    unfold map_subscript. rewrite Hch, Hk.
    unfold bind at 1, modify. rewrite Hp1.
    rewrite <- Hch, set_children_id, list_insert_id by done.
    assert (Hlen : length h1 = length h) by (by apply erase_eq_length).
    destruct (lookup_lt_is_Some_2 h1 c ltac:(lia)) as [nc Hnc].
    destruct (IH c h1 nc E1 Hpc Hnc) as (ch & h2 & Hrun).
    unfold bind at 1. rewrite Hrun.
    apply calculateHash_rec_spec in Hrun as [_ E2].
    apply IHn; [congruence | done].
Qed.

(** On a well-formed heap the recursion ends: a node at address [p]
    needs at most [length h - p] levels. *)
Lemma calculateHash_rec_total (f : nat) :
  forall p h n, heap_ok h = true -> h !! p = Some n -> length h - p <= f ->
    exists r h', calculateHash_rec sha256 f p h = Ret r h'.
Proof.
  induction f as [|f IH]; intros p h n Hok Hp Hf.
  { apply lookup_lt_Some in Hp. lia. }
  cbn [calculateHash_rec]. unfold bind at 1, load. rewrite Hp.
  assert (Hfin : forall v h1, erase h1 = erase h ->
    exists r h', (modify p (set_hash v) ;;; ret v) h1 = Ret r h').
  { intros v h1 E1.
    destruct (erase_eq_lookup h h1 p n E1 Hp) as (n1 & Hp1 & _).
    unfold bind, modify, ret. rewrite Hp1. eauto. }
  destruct (isFile n); [by apply Hfin|]. case_decide; [by apply Hfin|].
  destruct (calculateHash_loop_total f p h n Hok Hp) with
    (names := sort (map_keys (children n))) (combined := "") (h1 := h)
    as (comb & h1 & Hloop); [| done | |].
  - intros c h1 n1 E1 Hpc Hc. apply (IH c h1 n1); [|done|].
    + by rewrite (heap_ok_erase_eq h h1).
    + rewrite (erase_eq_length h h1) by done. lia.
  - apply Forall_forall. intros k Hk.
    rewrite sort_map_keys in Hk. by apply elem_of_map_keys.
  - unfold bind at 1. rewrite Hloop.
    apply (calculateHash_loop_spec f p (children n)
             (calculateHash_rec_spec f)) with (n := n) in Hloop
      as (_ & _ & _ & E1); [|done|done].
    by apply Hfin.
Qed.

Lemma merkle_hash_parts (f : nat) (h : heap)
    (items : list (string * option ptr)) (parts : list string) :
  mapM (child_part (merkle_hash sha256 f h)) items = Some parts ->
  exists hashes,
    Forall2 (fun kc ch => exists c,
               kc.2 = Some c /\ merkle_hash sha256 f h c = Some ch)
            items hashes
    /\ parts = zip_with (fun kc ch => kc.1 +:+ ":" +:+ ch +:+ ";")
                 items hashes.
Proof.
  intros H. apply mapM_Some_1 in H.
  induction H as [|[k v] part items parts Hpart _ (hashes & IH1 & IH2)].
  - by exists [].
  - unfold child_part in Hpart. cbn in Hpart.
    destruct v as [c|]; [|done]. cbn in Hpart.
    destruct (merkle_hash sha256 f h c) as [ch|] eqn:Hc; [|done].
    cbn in Hpart. inversion Hpart; subst.
    exists (ch :: hashes). split; [|done]. constructor; [|done]. eauto.
Qed.

(** On a well-formed heap [calculateHash] returns the Merkle hash of the
    node, stores it in the [hash] field and touches no other field. *)
Lemma calculateHash_run (h : heap) (p : ptr) (n : MerkleNode) :
  heap_ok h = true ->
  h !! p = Some n ->
  exists r h',
    calculateHash sha256 p h = Ret r h'
    /\ merkle_hash sha256 (length h) h p = Some r
    /\ hash <$> h' !! p = Some r
    /\ erase h' = erase h.
Proof.
  intros Hok Hp. unfold calculateHash.
  destruct (calculateHash_rec_total (length h) p h n Hok Hp ltac:(lia))
    as (r & h' & Hrun).
  exists r, h'. split; [done|].
  pose proof (calculateHash_rec_stored _ _ _ _ _ Hrun) as Hst.
  by apply calculateHash_rec_spec in Hrun as [Hm E].
Qed.

(** C1. On a well-formed heap [calculateHash] returns, stores what it
    returns in the [hash] field of the node and writes to no other field
    of any node. For a file node the value is its [contentHash]; for a
    directory node without children it is the digest of its name,
    wherever the node hangs in the tree; for a directory node with
    children it is the digest of the concatenation of
    ["<name>:<childHash>;"] over the children in strictly increasing
    order of name, each [childHash] being the value of the same rule
    ([merkle_hash]) on that child. *)
Theorem calculateHash_value (h : heap) (p : ptr) (n : MerkleNode) :
  heap_ok h = true ->
  h !! p = Some n ->
  exists r h',
    calculateHash sha256 p h = Ret r h'
    /\ merkle_hash sha256 (length h) h p = Some r
    /\ hash <$> h' !! p = Some r
    /\ erase h' = erase h
    /\ (isFile n = true -> r = contentHash n)
    /\ (isFile n = false -> children n = ∅ -> r = sha256 (name n))
    /\ (isFile n = false -> children n <> ∅ ->
          exists hashes,
            Forall2 (fun kc ch => exists c,
                       kc.2 = Some c
                       /\ merkle_hash sha256 (length h) h c = Some ch)
                    (map_items (children n)) hashes
            /\ r = sha256 (String.concat ""
                     (zip_with (fun kc ch => kc.1 +:+ ":" +:+ ch +:+ ";")
                               (map_items (children n)) hashes)))
    /\ StronglySorted (strict String.le) (map_items (children n)).*1
    /\ (forall k c, (k, c) ∈ map_items (children n)
                    <-> children n !! k = Some c).
Proof.
  intros Hok Hp.
  destruct (calculateHash_run h p n Hok Hp) as (r & h' & Hrun & Hm & Hst & E).
  exists r, h'. repeat split; try done.
  - intros Hf. destruct (length h) as [|f]; [done|].
    cbn [merkle_hash] in Hm. rewrite Hp in Hm. cbn in Hm.
    rewrite Hf in Hm. congruence.
  - intros Hf He. destruct (length h) as [|f]; [done|].
    cbn [merkle_hash] in Hm. rewrite Hp in Hm. cbn in Hm.
    rewrite Hf in Hm. rewrite decide_True in Hm by done. congruence.
  - intros Hf He. destruct (length h) as [|f] eqn:Hlen; [done|].
    cbn [merkle_hash] in Hm. rewrite Hp in Hm. cbn in Hm.
    rewrite Hf in Hm. rewrite decide_False in Hm by done.
    destruct (mapM _ _) as [parts|] eqn:Hparts; [|done]. cbn in Hm.
    apply merkle_hash_parts in Hparts as (hashes & Hh & ->).
    exists hashes. split; [|congruence].
    eapply Forall2_impl; [exact Hh|]. intros kc ch (c & Hc1 & Hc2).
    exists c. split; [done|].
    apply (merkle_hash_mono sha256 f); [done | lia].
  - apply map_items_increasing.
  - apply elem_of_map_items.
  - apply elem_of_map_items.
Qed.

End CalculateHash.

Section BuildLemmas.

Context (sha256 : string -> string).

(** ** Building: how the heap and the index evolve *)

Lemma FsEntry_nested_ind (P : FsEntry -> Prop) :
  (forall nm, P (FsMissing nm)) ->
  (forall nm content size readable, P (FsFile nm content size readable)) ->
  (forall nm entries ok, Forall P entries -> P (FsDir nm entries ok)) ->
  (forall nm, P (FsOther nm)) ->
  forall e, P e.
Proof.
  intros Hm Hf Hd Ho. fix IH 1. intros [nm|nm c sz r|nm es ok|nm].
  - apply Hm.
  - apply Hf.
  - apply Hd. induction es as [|e es IHes]; constructor; [apply IH | done].
  - apply Ho.
Qed.

Lemma node_ok_mono (len len' : nat) (p : ptr) (n : MerkleNode) :
  node_ok len p n = true -> len <= len' -> node_ok len' p n = true.
Proof.
  rewrite !node_ok_spec. intros [H1 H2] Hle. split; [|done].
  intros k c Hk. destruct (H1 k c Hk) as (c' & -> & ?). exists c'.
  split; [done | lia].
Qed.

Lemma node_ok_new (len p : nat) (nm : string) (b : bool) :
  node_ok len p (new_node nm b) = true.
Proof.
  apply node_ok_spec. split; [|done]. intros k c Hk. cbn in Hk.
  by rewrite lookup_empty in Hk.
Qed.

Lemma heap_ok_snoc (h : heap) (x : MerkleNode) :
  heap_ok h = true -> node_ok (S (length h)) (length h) x = true ->
  heap_ok (h ++ [x]) = true.
Proof.
  intros Hok Hx. apply heap_ok_lookup. intros p n Hp.
  rewrite length_app. cbn [length].
  apply lookup_app_Some in Hp as [Hp|[Hle Hp]].
  - eapply node_ok_mono; [by eapply heap_ok_lookup|lia].
  - destruct (p - length h) as [|i] eqn:E; [|by destruct i].
    cbn in Hp. simplify_eq. replace p with (length h) by lia.
    by rewrite Nat.add_1_r.
Qed.

Lemma heap_ok_insert (h : heap) (p : ptr) (x : MerkleNode) :
  heap_ok h = true -> node_ok (length h) p x = true ->
  heap_ok (<[p := x]> h) = true.
Proof.
  intros Hok Hx. apply heap_ok_lookup. intros q n Hq.
  rewrite length_insert. destruct (decide (q = p)) as [->|Hne].
  - rewrite list_lookup_insert_eq in Hq by (by eapply lookup_lt_Some in Hq;
      rewrite length_insert in Hq). by simplify_eq.
  - rewrite list_lookup_insert_ne in Hq by done. by eapply heap_ok_lookup.
Qed.

(** The hash of a node depends on the nodes allocated from it on only. *)
Lemma merkle_hash_transport (f : nat) :
  forall (h1 h2 : heap) c v f2,
    heap_ok h1 = true ->
    (forall q, c <= q -> q < length h1 -> h2 !! q = h1 !! q) ->
    merkle_hash sha256 f h1 c = Some v -> f <= f2 ->
    merkle_hash sha256 f2 h2 c = Some v.
Proof.
  induction f as [|f IH]; intros h1 h2 c v f2 Hok Hsame Hm Hle; [done|].
  destruct f2 as [|f2]; [lia|]. cbn [merkle_hash] in *.
  destruct (h1 !! c) as [n|] eqn:Hc; [|done].
  rewrite Hsame, Hc by (by try eapply lookup_lt_Some). cbn in *.
  destruct (isFile n); [done|]. case_decide; [done|].
  rewrite <- Hm. f_equal. apply Forall_mapM_ext, Forall_forall.
  intros [k w] Hin. apply elem_of_map_items in Hin.
  destruct (heap_ok_child h1 c n k w Hok Hc Hin) as (c' & -> & Hlt & Hlen).
  destruct (mapM _ _) as [parts|] eqn:Hparts; [|done].
  apply mapM_Some_1 in Hparts.
  assert (Hsome : is_Some (child_part (merkle_hash sha256 f h1) (k, Some c'))).
  { assert (Hin' : (k, Some c') ∈ map_items (children n))
      by (by apply elem_of_map_items).
    apply list_elem_of_lookup in Hin' as [i Hi].
    destruct (Forall2_lookup_l _ _ _ _ _ Hparts Hi) as (part & _ & Hpart).
    by exists part. }
  unfold child_part in *. cbn in *.
  destruct (merkle_hash sha256 f h1 c') as [ch|] eqn:Hch;
    [|by destruct Hsome].
  rewrite (IH h1 h2 c' ch f2); [done|done| |done|lia].
  intros q Hq Hql. apply Hsame; lia.
Qed.

Lemma index_step_refl (h : heap) (fo : gmap string ptr) :
  index_step h h fo fo.
Proof.
  repeat split.
  - auto.
  - intros q n Hq Hn. apply lookup_lt_Some in Hn. lia.
  - eauto.
Qed.

Lemma index_step_trans (h h1 h2 : heap) (fo fo1 fo2 : gmap string ptr) :
  length h <= length h1 -> heap_keeps h1 h2 ->
  index_step h h1 fo fo1 -> index_step h1 h2 fo1 fo2 ->
  index_step h h2 fo fo2.
Proof.
  intros Hlen Hk (A1 & B1 & C1) (A2 & B2 & C2). repeat split.
  - intros k p Hp. destruct (A2 k p Hp) as [H1|(Hle & n & Hn & Hf & Hc)].
    + destruct (A1 k p H1) as [?|(Hle & n & Hn & Hf & Hc)]; [by left|].
      right. split; [done|]. destruct (Hk p n Hn) as (n' & Hn' & _ & Heq).
      exists n. rewrite Hn', (Heq Hf). done.
    + right. split; [lia|]. eauto.
  - intros q n Hq Hn Hf Hc. destruct (decide (length h1 <= q)) as [Hge|Hlt].
    + by apply B2.
    + destruct (lookup_lt_is_Some_2 h1 q ltac:(lia)) as [n1 Hn1].
      destruct (Hk q n1 Hn1) as (n' & Hn' & Hfile & Heq).
      assert (n' = n) as -> by congruence.
      assert (n = n1) as -> by (apply Heq; congruence).
      destruct (B1 q n1 Hq Hn1 Hf Hc) as (p1 & Hp1 & Hle1).
      destruct (C2 _ _ Hp1) as (p2 & Hp2 & [->|Hle2]).
      * eauto.
      * exists p2. split; [done|lia].
  - intros k p Hp. destruct (C1 k p Hp) as (p1 & Hp1 & H1).
    destruct (C2 k p1 Hp1) as (p2 & Hp2 & H2). exists p2. split; [done|].
    destruct H1 as [->|?], H2 as [->|?]; auto; right; lia.
Qed.

Lemma heap_keeps_app (h ext : heap) : heap_keeps h (h ++ ext).
Proof.
  intros q n Hq. exists n. by rewrite (lookup_app_l_Some _ _ _ _ Hq).
Qed.

Lemma heap_keeps_insert_dir (h : heap) (p : ptr) (n x : MerkleNode) :
  h !! p = Some n -> isFile n = false -> isFile x = false ->
  heap_keeps h (<[p := x]> h).
Proof.
  intros Hp Hn Hx q n' Hq. destruct (decide (q = p)) as [->|Hne].
  - exists x. rewrite list_lookup_insert_eq by (by eapply lookup_lt_Some).
    assert (n' = n) as -> by congruence. rewrite Hn, Hx.
    split; [done|]. split; [done|]. done.
  - exists n'. by rewrite list_lookup_insert_ne.
Qed.

Lemma index_step_same_length (h h' : heap) (fo : gmap string ptr) :
  length h' = length h -> index_step h h' fo fo.
Proof.
  intros Hlen. repeat split.
  - auto.
  - intros q n Hq Hn. apply lookup_lt_Some in Hn. lia.
  - eauto.
Qed.

(** What [hash_file_content] does on any entry. *)
Lemma hash_file_content_run (w : world) (path : FsEntry) :
  0 < N.to_nat (CHUNK_SIZE w.2) ->
  hash_file_content sha256 path w
  = match path with
    | FsFile _ content size true =>
        Ret (sha256 (string_of_list_byte content), wrap size,
             chunk_hashes sha256 (N.to_nat (CHUNK_SIZE w.2)) content 0
               (chunk_count (N.to_nat (CHUNK_SIZE w.2)) (length content))) w
    | FsDir _ _ _ => Ret (sha256 "", size_t_of_pos (-1), []) w
    | _ => Throw CannotOpenFile w
    end.
Proof.
  intros Hc. unfold hash_file_content, bind, this_tree, ret, throw.
  destruct path as [nm|nm content sz [|]|nm es ok|nm]; try done.
  cbn [ifstream_open unread end_pos]. rewrite size_t_of_pos_of_N.
  by rewrite (read_chunks_good sha256 _ Hc content _ _ 0 [] content "" [])
    by (done || simpl; lia).
Qed.

End BuildLemmas.

Section BuildNode.

Context (sha256 : string -> string).

(** ** [build_node] *)

Lemma fs_hash_builds (e : FsEntry) :
  is_Some (fs_hash sha256 e) <-> fs_builds e = true.
Proof.
  destruct e as [nm|nm content sz [|]|nm es [|]|nm]; cbn;
    try case_decide; split; intros Hb; try done; try (by destruct Hb);
    eauto.
Qed.

Lemma fs_place_next (es : list FsEntry)
    (am : gmap string (ptr * FsEntry) * ptr) :
  (foldl fs_place am es).2 = am.2 + foldr (fun e n => fs_alloc e + n) 0 es.
Proof.
  revert am. induction es as [|e es IH]; intros am; cbn [foldl foldr].
  - lia.
  - rewrite IH. cbn. lia.
Qed.

(** A child placed by the loop is one placed before, or lies in the
    range of addresses the loop went through. *)
Lemma fs_place_bounds (es : list FsEntry)
    (am : gmap string (ptr * FsEntry) * ptr) (k : string) (a : ptr)
    (e : FsEntry) :
  (foldl fs_place am es).1 !! k = Some (a, e) ->
  am.1 !! k = Some (a, e)
  \/ (am.2 <= a /\ a + fs_alloc e <= (foldl fs_place am es).2
      /\ e ∈ es /\ fs_builds e = true /\ fs_filename e = k).
Proof.
  revert am. induction es as [|e' es IH]; intros am Hk; cbn [foldl] in *.
  - by left.
  - destruct (IH _ Hk) as [Hold|(H1 & H2 & H3 & H4 & H5)].
    + unfold fs_place in Hold. cbn [fst snd] in Hold.
      destruct (fs_builds e') eqn:Hb; [|by left].
      destruct (decide (k = fs_filename e')) as [->|Hne].
      * rewrite lookup_insert_eq in Hold. simplify_eq. right.
        rewrite fs_place_next. cbn [fst snd fs_place].
        repeat split; [lia | lia | by left | done].
      * rewrite lookup_insert_ne in Hold by done. by left.
    + right. cbn [fs_place snd] in H1.
      repeat split; [lia | done | by right | done | done].
Qed.

Lemma fs_children_bounds (base : ptr) (es : list FsEntry) (k : string)
    (a : ptr) (e : FsEntry) :
  fs_children base es !! k = Some (a, e) ->
  base <= a
  /\ a + fs_alloc e <= base + foldr (fun e n => fs_alloc e + n) 0 es
  /\ e ∈ es /\ fs_builds e = true /\ fs_filename e = k.
Proof.
  intros Hk. apply fs_place_bounds in Hk as [Hk|Hk].
  - cbn in Hk. by rewrite lookup_empty in Hk.
  - rewrite fs_place_next in Hk. done.
Qed.

(** [mirrors] looks only at the nodes the entry was built into. *)
Lemma mirrors_transport (c : nat) (h1 h2 : heap) (p : ptr) (e : FsEntry) :
  mirrors sha256 c h1 p e ->
  (forall q, p <= q -> q < p + fs_alloc e -> h2 !! q = h1 !! q) ->
  mirrors sha256 c h2 p e.
Proof.
  intros Hm. induction Hm as [p n nm content sz Hp Hn|p n nm Hp Hn
                             |p n nm es Hp Hn Hkids IH]; intros Hsame.
  - eapply mirrors_file; [|exact Hn]. rewrite Hsame; [done|lia|cbn; lia].
  - eapply mirrors_other; [|exact Hn]. rewrite Hsame; [done|lia|cbn; lia].
  - eapply mirrors_dir; [|exact Hn|].
    + rewrite Hsame; [done|lia|cbn; lia].
    + intros k a e Hk. apply (IH k a e Hk). intros q Hq Hql.
      apply fs_children_bounds in Hk as (Hb1 & Hb2 & _).
      apply Hsame; cbn [fs_alloc]; lia.
Qed.

Lemma tree_ext_0 (t : MerkleTree) (from : nat) :
  tree_ext t (file_objects t) from 0 = t.
Proof. destruct t. unfold tree_ext. cbn. by rewrite app_nil_r. Qed.

Lemma snoc_insert (h : heap) (x y : MerkleNode) :
  <[length h := y]> (h ++ [x]) = h ++ [y].
Proof.
  rewrite insert_app_r_alt by lia. by rewrite Nat.sub_diag.
Qed.

Lemma snoc_lookup (h : heap) (x : MerkleNode) :
  (h ++ [x]) !! length h = Some x.
Proof. by rewrite lookup_app_r, Nat.sub_diag by lia. Qed.

Lemma build_node_missing (nm : string) (h : heap) (t : MerkleTree) :
  heap_ok h = true ->
  build_post sha256 (FsMissing nm) (h, t)
    (build_node sha256 (FsMissing nm) (h, t)).
Proof.
  intros Hok. exists [], (file_objects t). cbn.
  rewrite app_nil_r, tree_ext_0.
  repeat split; try done; try lia; apply index_step_refl.
Qed.

Lemma build_node_other (nm : string) (h : heap) (t : MerkleTree) :
  heap_ok h = true ->
  build_post sha256 (FsOther nm) (h, t)
    (build_node sha256 (FsOther nm) (h, t)).
Proof.
  intros Hok. exists [new_node nm false], (file_objects t).
  cbn [fst snd fs_hash fs_exists build_error length].
  assert (Hok' : heap_ok (h ++ [new_node nm false]) = true)
    by (apply heap_ok_snoc; [done | apply node_ok_new]).
  split; [done|]. split.
  { apply index_step_trans with (h1 := h) (fo1 := file_objects t);
      [done | apply heap_keeps_app | apply index_step_refl |].
    repeat split; [auto | | eauto].
    intros q n Hq Hn Hf. apply lookup_app_Some in Hn as [Hn|[_ Hn]].
    - apply lookup_lt_Some in Hn. lia.
    - destruct (q - length h) as [|[|i]]; cbn in Hn; by simplify_eq. }
  split; [lia|]. split; [done|]. split; [done|]. split; [done|].
  split; [|split].
  - rewrite length_app. cbn [length]. rewrite Nat.add_1_r.
    cbn [merkle_hash]. rewrite snoc_lookup. done.
  - by rewrite snoc_lookup.
  - eapply mirrors_other; [apply snoc_lookup | done].
Qed.

Lemma index_step_snoc_plain (h : heap) (x : MerkleNode)
    (fo : gmap string ptr) :
  isFile x = false \/ contentHash x = "" ->
  index_step h (h ++ [x]) fo fo.
Proof.
  intros Hx. repeat split; [auto | | eauto].
  intros q n Hq Hn Hf Hc. apply lookup_app_Some in Hn as [Hn|[_ Hn]].
  - apply lookup_lt_Some in Hn. lia.
  - destruct (q - length h) as [|[|i]]; cbn in Hn; simplify_eq.
    destruct Hx; congruence.
Qed.

Lemma index_step_snoc_file (h : heap) (x : MerkleNode)
    (fo : gmap string ptr) :
  isFile x = true ->
  index_step h (h ++ [x]) fo (<[contentHash x := length h]> fo).
Proof.
  intros Hx. repeat split.
  - intros k p Hp. destruct (decide (k = contentHash x)) as [->|Hne].
    + rewrite lookup_insert_eq in Hp. simplify_eq. right. split; [done|].
      exists x. by rewrite snoc_lookup.
    + rewrite lookup_insert_ne in Hp by done. by left.
  - intros q n Hq Hn Hf Hc. apply lookup_app_Some in Hn as [Hn|[_ Hn]].
    + apply lookup_lt_Some in Hn. lia.
    + destruct (q - length h) as [|[|i]] eqn:E; cbn in Hn; simplify_eq.
      exists (length h). rewrite lookup_insert_eq. split; [done|lia].
  - intros k p Hp. destruct (decide (k = contentHash x)) as [->|Hne].
    + exists (length h). rewrite lookup_insert_eq. auto.
    + exists p. rewrite lookup_insert_ne by done. auto.
Qed.

Lemma build_node_file (nm : string) (content : list byte) (size : N)
    (readable : bool) (h : heap) (t : MerkleTree) :
  0 < N.to_nat (CHUNK_SIZE t) -> heap_ok h = true ->
  build_post sha256 (FsFile nm content size readable) (h, t)
    (build_node sha256 (FsFile nm content size readable) (h, t)).
Proof.
  intros Hc Hok. unfold build_post.
  cbn [fst snd fs_hash fs_exists build_error build_node negb
       fs_filename fs_is_regular_file].
  unfold bind at 1. unfold lift at 1, make_shared. cbn [fst snd].
  unfold bind at 1, modify_tree at 1. cbn [fst snd].
  unfold bind at 1, try_catch at 1. unfold bind at 1.
  rewrite hash_file_content_run by done. cbn [snd].
  destruct readable.
  - unfold bind at 1, lift at 1, modify. cbn [fst snd].
    rewrite snoc_lookup, snoc_insert.
    unfold modify_tree, ret. cbn [fst snd].
    set (x := set_file_data _ _ _ _).
    exists [x], (<[contentHash x := length h]> (file_objects t)).
    assert (Hnode : node_ok (S (length h)) (length h) x = true).
    { apply node_ok_spec. split; [|done]. intros k c Hk. cbn in Hk.
      by rewrite lookup_empty in Hk. }
    split; [by apply heap_ok_snoc|].
    split; [by apply index_step_snoc_file|].
    split; [cbn; lia|]. split; [done|]. split; [done|]. split; [done|].
    split; [|split].
    + rewrite length_app. cbn [length]. rewrite Nat.add_1_r.
      cbn [merkle_hash]. rewrite snoc_lookup. done.
    + by rewrite snoc_lookup.
    + eapply mirrors_file; [apply snoc_lookup | done].
  - unfold throw.
    exists [new_node nm true], (file_objects t).
    split; [apply heap_ok_snoc; [done | apply node_ok_new]|].
    split; [apply index_step_snoc_plain; by right|].
    split; [cbn; lia|]. split; [done|]. split; [done|]. done.
Qed.

Lemma dir_heap_length (h : heap) nm m (ext : heap) :
  length (dir_heap h nm m ext) = length h + S (length ext).
Proof. unfold dir_heap. by rewrite length_app. Qed.

Lemma dir_heap_lookup_dir (h : heap) nm m (ext : heap) :
  dir_heap h nm m ext !! length h = Some (set_children m (new_node nm false)).
Proof. by apply list_lookup_middle. Qed.

Lemma dir_heap_lookup_above (h : heap) nm m m' (ext ext' : heap) (q : nat) :
  length h < q -> q < length (dir_heap h nm m ext) ->
  dir_heap h nm m' (ext ++ ext') !! q = dir_heap h nm m ext !! q.
Proof.
  intros Hq Hlen. rewrite dir_heap_length in Hlen. unfold dir_heap.
  rewrite !lookup_app_r by lia.
  destruct (q - length h) as [|i] eqn:E; [lia|]. cbn.
  apply lookup_app_l. lia.
Qed.

Lemma dir_heap_app (h : heap) nm m (ext ext' : heap) :
  dir_heap h nm m ext ++ ext' = dir_heap h nm m (ext ++ ext').
Proof. unfold dir_heap. by rewrite <- (assoc_L (++)). Qed.

Lemma dir_heap_insert (h : heap) nm m m' (ext : heap) :
  <[length h := set_children m' (new_node nm false)]> (dir_heap h nm m ext)
  = dir_heap h nm m' ext.
Proof.
  unfold dir_heap. rewrite insert_app_r_alt by lia.
  by rewrite Nat.sub_diag.
Qed.

Lemma tree_ext_ext (t : MerkleTree) fo fo' (a n n' : nat) :
  tree_ext (tree_ext t fo a n) fo' (a + n) n' = tree_ext t fo' a (n + n').
Proof.
  unfold tree_ext. cbn. by rewrite <- (assoc_L (++)), seq_app.
Qed.

(** Heaps that agree above [p] give the same hashes to the children of
    the node at [p]. *)
Lemma kids_rel_transport (h1 h2 : heap) (p : ptr)
    (m : gmap string (option ptr)) (kids : gmap string string) :
  heap_ok h1 = true -> length h1 <= length h2 ->
  (forall q, p < q -> q < length h1 -> h2 !! q = h1 !! q) ->
  kids_rel sha256 h1 p m kids -> kids_rel sha256 h2 p m kids.
Proof.
  intros Hok Hlen Hsame Hrel k. specialize (Hrel k).
  destruct (m !! k) as [[c|]|], (kids !! k) as [v|]; try done.
  destruct Hrel as [Hpc Hm]. split; [done|].
  eapply merkle_hash_transport; [exact Hok| |exact Hm|done].
  intros q Hq Hql. apply Hsame; lia.
Qed.

Lemma build_node_loop_post (nm : string) (h : heap) (t : MerkleTree)
    (es : list FsEntry) :
  0 < N.to_nat (CHUNK_SIZE t) ->
  Forall (fun e => forall h t,
            0 < N.to_nat (CHUNK_SIZE t) -> heap_ok h = true ->
            build_post sha256 e (h, t) (build_node sha256 e (h, t))) es ->
  forall m kids ext fo am,
    heap_ok (dir_heap h nm m ext) = true ->
    index_step h (dir_heap h nm m ext) (file_objects t) fo ->
    kids_rel sha256 (dir_heap h nm m ext) (length h) m kids ->
    placed sha256 (N.to_nat (CHUNK_SIZE t)) h nm m ext am ->
    exists m' ext' fo',
      build_node_loop (build_node sha256) (length h) es
        (dir_heap h nm m ext, tree_ext t fo (length h) (S (length ext)))
      = Ret tt (dir_heap h nm m' ext',
                tree_ext t fo' (length h) (S (length ext')))
      /\ heap_ok (dir_heap h nm m' ext') = true
      /\ index_step h (dir_heap h nm m' ext') (file_objects t) fo'
      /\ kids_rel sha256 (dir_heap h nm m' ext') (length h) m'
           (foldl (fs_add_kid sha256) kids es)
      /\ placed sha256 (N.to_nat (CHUNK_SIZE t)) h nm m' ext'
           (foldl fs_place am es).
Proof.
  intros Hc Hes. induction Hes as [|e es He _ IH];
    intros m kids ext fo am Hok Hidx Hrel Hpl.
  { exists m, ext, fo. done. }
  destruct (He (dir_heap h nm m ext)
                (tree_ext t fo (length h) (S (length ext))) Hc Hok)
    as (extc & fo1 & Hok1 & Hidx1 & Hex & Hnex & Hal & Hout).
  cbn [fst snd] in *.
  rewrite dir_heap_length, tree_ext_ext, dir_heap_app in *.
  replace (S (length ext) + length extc) with (S (length (ext ++ extc)))
    in Hout by (rewrite length_app; lia).
  assert (Hidx' : index_step h (dir_heap h nm m (ext ++ extc))
                    (file_objects t) fo1).
  { eapply index_step_trans; [| |exact Hidx|exact Hidx1].
    - rewrite dir_heap_length. lia.
    - rewrite <- dir_heap_app. apply heap_keeps_app. }
  assert (Hrel' : kids_rel sha256 (dir_heap h nm m (ext ++ extc))
                    (length h) m kids).
  { eapply kids_rel_transport; [exact Hok| | |exact Hrel].
    - rewrite !dir_heap_length, length_app. lia.
    - intros q Hq Hql. by apply dir_heap_lookup_above. }
  destruct Hpl as (Hnext & Hmap & Hkids).
  rewrite dir_heap_length in Hnext.
  (* the children attached so far, in the heap after this turn *)
  assert (Hold : forall m' k a e', am.1 !! k = Some (a, e') ->
            length h < a
            /\ a + fs_alloc e' <= am.2 + fs_alloc e
            /\ mirrors sha256 (N.to_nat (CHUNK_SIZE t))
                 (dir_heap h nm m' (ext ++ extc)) a e').
  { intros m' k a e' Hk. destruct (Hkids k a e' Hk) as (Ha & Hb & Hmir).
    split; [done|]. split; [lia|].
    eapply mirrors_transport; [exact Hmir|]. intros q Hq Hql.
    apply dir_heap_lookup_above; [lia|]. rewrite dir_heap_length. lia. }
  cbn [build_node_loop foldl]. unfold bind at 1, try_catch at 1, bind at 1.
  unfold fs_add_kid at 2.
  destruct (fs_hash sha256 e) as [v|] eqn:Hv.
  - assert (Hb : fs_builds e = true) by (apply fs_hash_builds; eauto).
    destruct Hout as (-> & Hm & Hname & Hmir).
    set (c := length h + S (length ext)) in *.
    unfold lift, addChild. cbn [fst snd]. unfold bind at 1, load at 1.
    rewrite dir_heap_lookup_dir. cbn [isFile new_node set_children].
    unfold bind at 1, load at 1.
    destruct (dir_heap h nm m (ext ++ extc) !! c) as [cn|] eqn:Hcn; [|done].
    cbn in Hname. injection Hname as Hname. unfold modify.
    rewrite dir_heap_lookup_dir.
    change (set_cachedDepth (-1) _)
      with (set_children (<[name cn := Some c]> m) (new_node nm false)).
    rewrite dir_heap_insert. cbn [fst snd].
    rewrite Hname in *.
    set (m' := <[fs_filename e := Some c]> m).
    assert (Hlt : length h < c) by (unfold c; lia).
    assert (Hcl : c < length (dir_heap h nm m (ext ++ extc)))
      by (by eapply lookup_lt_Some).
    assert (Hok' : heap_ok (dir_heap h nm m' (ext ++ extc)) = true).
    { rewrite <- (dir_heap_insert h nm m m').
      apply heap_ok_insert; [done|]. apply node_ok_spec. split; [|done].
      intros k w Hk. cbn in Hk. unfold m' in Hk.
      destruct (decide (k = fs_filename e)) as [->|Hne].
      - rewrite lookup_insert_eq in Hk. injection Hk as <-. by exists c.
      - rewrite lookup_insert_ne in Hk by done.
        destruct (heap_ok_child _ _ _ k w Hok1
                    (dir_heap_lookup_dir h nm m _) Hk) as (c' & -> & ?).
        by exists c'. }
    destruct (IH m' (<[fs_filename e := v]> kids) (ext ++ extc) fo1
                (fs_place am e) Hok')
      as (m2 & ext2 & fo2 & Hrun & Hok2 & Hidx2 & Hrel2 & Hpl2).
    + eapply index_step_trans; [| |exact Hidx'|].
      * rewrite dir_heap_length. lia.
      * rewrite <- (dir_heap_insert h nm m m').
        eapply heap_keeps_insert_dir; [apply dir_heap_lookup_dir|done|done].
      * apply index_step_same_length. by rewrite !dir_heap_length.
    + intros k. unfold m'. destruct (decide (k = fs_filename e)) as [->|Hne].
      * rewrite !lookup_insert_eq. split; [done|].
        eapply merkle_hash_transport; [exact Hok1| |exact Hm|].
        -- intros q Hq Hql. rewrite <- (dir_heap_insert h nm m).
           apply list_lookup_insert_ne. lia.
        -- by rewrite !dir_heap_length.
      * rewrite !lookup_insert_ne by done.
        eapply (kids_rel_transport _ _ _ _ _ Hok1); [| |exact Hrel'].
        -- by rewrite !dir_heap_length.
        -- intros q Hq Hql. rewrite <- (dir_heap_insert h nm m).
           apply list_lookup_insert_ne. lia.
    + unfold placed, fs_place. rewrite Hb. cbn [fst snd].
      rewrite dir_heap_length, length_app. split; [lia|].
      split; [unfold m', c; by rewrite fmap_insert, Hnext, Hmap|].
      intros k a e' Hk. destruct (decide (k = fs_filename e)) as [->|Hne].
      * rewrite lookup_insert_eq in Hk. injection Hk as <- <-.
        split; [lia|]. split; [lia|]. rewrite Hnext. fold c.
        eapply mirrors_transport; [exact Hmir|]. intros q Hq Hql.
        rewrite <- (dir_heap_insert h nm m). apply list_lookup_insert_ne. lia.
      * rewrite lookup_insert_ne in Hk by done.
        destruct (Hold m' k a e' Hk) as (Ha & Hb' & Hmir').
        split; [done|]. split; [lia|done].
    + exists m2, ext2, fo2. done.
  - assert (Hb : fs_builds e = false).
    { destruct (fs_builds e) eqn:E; [|done].
      apply fs_hash_builds in E as [? E]. congruence. }
    rewrite Hout. unfold ret.
    destruct (IH m kids (ext ++ extc) fo1 (fs_place am e) Hok1 Hidx' Hrel')
      as (m2 & ext2 & fo2 & Hrun & Hok2 & Hidx2 & Hrel2 & Hpl2).
    + unfold placed, fs_place. rewrite Hb. cbn [fst snd].
      rewrite dir_heap_length, length_app. split; [lia|]. split; [done|].
      intros k a e' Hk. destruct (Hold m k a e' Hk) as (Ha & Hb' & Hmir').
      split; [done|]. split; [lia|done].
    + exists m2, ext2, fo2. done.
Qed.

Lemma merkle_hash_enough (h : heap) (c : ptr) (v : string) (f : nat) :
  heap_ok h = true -> merkle_hash sha256 (length h) h c = Some v ->
  length h - c <= f -> merkle_hash sha256 f h c = Some v.
Proof.
  intros Hok Hm Hf.
  assert (Hc : is_Some (h !! c)).
  { destruct (length h); [done|]. cbn [merkle_hash] in Hm.
    destruct (h !! c); [eauto|done]. }
  destruct Hc as [n Hc].
  destruct (calculateHash_rec_total sha256 (length h - c) c h n Hok Hc
              ltac:(done)) as (r & h' & Hrun).
  apply calculateHash_rec_spec in Hrun as [Hr _].
  pose proof (merkle_hash_mono sha256 _ (length h) _ _ _ Hr ltac:(lia)) as Hr'.
  assert (r = v) as -> by congruence.
  by apply (merkle_hash_mono sha256 (length h - c)).
Qed.

Lemma map_keys_same_dom {A B} (m1 : gmap string A) (m2 : gmap string B) :
  (forall k, is_Some (m1 !! k) <-> is_Some (m2 !! k)) ->
  map_keys m1 = map_keys m2.
Proof.
  intros Hdom. apply (StronglySorted_unique String.le);
    [apply map_keys_sorted | apply map_keys_sorted |].
  apply NoDup_Permutation; [apply NoDup_map_keys | apply NoDup_map_keys |].
  intros k. by rewrite !elem_of_map_keys.
Qed.

(** The hash of a directory node whose children carry the hashes
    [kids]. *)
Lemma kids_rel_dir_hash (h : heap) (p : ptr) (n : MerkleNode)
    (kids : gmap string string) :
  heap_ok h = true -> h !! p = Some n -> isFile n = false ->
  kids_rel sha256 h p (children n) kids ->
  merkle_hash sha256 (length h) h p
  = Some (if decide (kids = ∅) then sha256 (name n)
          else sha256 (String.concat ""
                 ((fun kv : string * string =>
                     kv.1 +:+ ":" +:+ kv.2 +:+ ";") <$> map_items kids))).
Proof.
  intros Hok Hp Hdir Hrel.
  assert (Hdom : forall k, is_Some (children n !! k) <-> is_Some (kids !! k)).
  { intros k. specialize (Hrel k).
    destruct (children n !! k) as [[c|]|], (kids !! k); try done;
      split; intros [? ?]; done || eauto. }
  destruct (length h) as [|f] eqn:Hlen.
  { apply lookup_lt_Some in Hp. lia. }
  cbn [merkle_hash]. rewrite Hp. cbn. rewrite Hdir.
  destruct (decide (children n = ∅)) as [He|Hne].
  - rewrite decide_True; [done|]. apply map_empty. intros k.
    apply eq_None_not_Some. rewrite <- Hdom, He, lookup_empty.
    by intros [? ?].
  - rewrite decide_False.
    2:{ intros He. apply Hne, map_empty. intros k.
        apply eq_None_not_Some. rewrite Hdom, He, lookup_empty.
        by intros [? ?]. }
    rewrite mapM_map_items. unfold map_items.
    rewrite (map_keys_same_dom _ kids Hdom).
    assert (Hall : Forall (fun k => is_Some (kids !! k)) (map_keys kids)).
    { apply Forall_forall. intros k. apply elem_of_map_keys. }
    enough (Hparts : mapM (fun k => v ← children n !! k;
                child_part (merkle_hash sha256 f h) (k, v)) (map_keys kids)
              = Some ((fun kv : string * string =>
                         kv.1 +:+ ":" +:+ kv.2 +:+ ";")
                      <$> omap (fun k => pair k <$> kids !! k)
                               (map_keys kids))).
    { by rewrite Hparts. }
    induction Hall as [|k l [v Hv] _ IH]; [done|].
    cbn [mapM omap list_omap]. rewrite IH, Hv. specialize (Hrel k).
    rewrite Hv in Hrel.
    destruct (children n !! k) as [[c|]|]; try done.
    destruct Hrel as [Hpc Hm].
    apply merkle_hash_enough with (f := f) in Hm; [|done|lia].
    unfold child_part. cbn. rewrite Hm. done.
Qed.

Lemma fs_hash_dir (nm : string) (es : list FsEntry) (ok : bool) :
  fs_hash sha256 (FsDir nm es ok)
  = if ok then
      Some (if decide (foldl (fs_add_kid sha256) ∅ es = ∅) then sha256 nm
            else sha256 (String.concat ""
                   ((fun kv : string * string =>
                       kv.1 +:+ ":" +:+ kv.2 +:+ ";")
                    <$> map_items (foldl (fs_add_kid sha256) ∅ es))))
    else None.
Proof.
  cbn [fs_hash]. destruct ok; [|done].
  change (foldl _ ∅ es) with (foldl (fs_add_kid sha256) ∅ es).
  by case_decide.
Qed.

Lemma build_node_dir (nm : string) (es : list FsEntry) (ok : bool)
    (h : heap) (t : MerkleTree) :
  Forall (fun e => forall h t,
            0 < N.to_nat (CHUNK_SIZE t) -> heap_ok h = true ->
            build_post sha256 e (h, t) (build_node sha256 e (h, t))) es ->
  0 < N.to_nat (CHUNK_SIZE t) -> heap_ok h = true ->
  build_post sha256 (FsDir nm es ok) (h, t)
    (build_node sha256 (FsDir nm es ok) (h, t)).
Proof.
  intros Hes Hc Hok.
  destruct (build_node_loop_post nm h t es Hc Hes ∅ ∅ [] (file_objects t)
              (∅, S (length h)))
    as (m & ext & fo & Hrun & Hok' & Hidx & Hrel & Hnext & Hmap & Hkids).
  { apply heap_ok_snoc; [done | apply node_ok_new]. }
  { apply index_step_snoc_plain. by left. }
  { intros k. by rewrite !lookup_empty. }
  { unfold placed. rewrite dir_heap_length. cbn [fst snd length].
    split; [lia|]. split; [by rewrite fmap_empty|].
    intros k a e Hk. by rewrite lookup_empty in Hk. }
  rewrite fs_place_next, dir_heap_length in Hnext. cbn [fst snd] in Hnext.
  cbn [length] in Hrun.
  assert (Hout : build_node sha256 (FsDir nm es ok) (h, t)
    = if ok
      then Ret (length h) (dir_heap h nm m ext,
                           tree_ext t fo (length h) (S (length ext)))
      else Throw ErrorReadingDirectory
             (dir_heap h nm m ext,
              tree_ext t fo (length h) (S (length ext)))).
  { cbn [build_node fs_exists negb fs_filename fs_is_regular_file].
    unfold bind at 1. unfold lift at 1, make_shared. cbn [fst snd].
    unfold bind at 1, modify_tree at 1. cbn [fst snd].
    change (h ++ [new_node nm false]) with (dir_heap h nm ∅ []).
    change (set_nodes _ t) with (tree_ext t (file_objects t) (length h) 1).
    unfold bind at 1, try_catch at 1, bind at 1. rewrite Hrun.
    by destruct ok. }
  exists (set_children m (new_node nm false) :: ext), fo.
  cbn [fst snd length]. fold (dir_heap h nm m ext). rewrite Hout.
  split; [done|]. split; [done|]. split; [lia|]. split; [done|].
  split; [cbn [fs_alloc]; lia|].
  rewrite fs_hash_dir. cbn [build_error]. destruct ok; [|done].
  split; [done|]. split; [|split].
  - rewrite (kids_rel_dir_hash _ (length h) _ _ Hok'
               (dir_heap_lookup_dir h nm m ext) eq_refl Hrel). done.
  - by rewrite dir_heap_lookup_dir.
  - eapply mirrors_dir; [apply dir_heap_lookup_dir | by rewrite Hmap |].
    intros k a e Hk. by destruct (Hkids k a e Hk) as (_ & _ & Hmir).
Qed.

(** [build_node] on any entry, from any well-formed heap. *)
Lemma build_node_post (e : FsEntry) :
  forall h t, 0 < N.to_nat (CHUNK_SIZE t) -> heap_ok h = true ->
    build_post sha256 e (h, t) (build_node sha256 e (h, t)).
Proof.
  induction e as [nm|nm content sz readable|nm es ok IH|nm]
    using FsEntry_nested_ind; intros h t Hc Hok.
  - by apply build_node_missing.
  - by apply build_node_file.
  - by apply build_node_dir.
  - by apply build_node_other.
Qed.

End BuildNode.

Section BuildTree.

Context (sha256 : string -> string).

(** ** [build_tree] *)

Lemma build_tree_dir (fsys : filesystem) (path : string) (h : heap)
    (t : MerkleTree) :
  fs_is_directory (fsys path) = true ->
  build_tree sha256 fsys path (h, t)
  = match build_node sha256 (fsys path)
            (h, set_nodes [] (set_file_objects ∅ t)) with
    | Ret r s =>
        match calculateHash sha256 r s.1 with
        | Ret _ h2 => Ret (Some r) (h2, set_root (Some r) s.2)
        | Throw e h2 => Throw e (h2, set_root (Some r) s.2)
        | Undef => Undef
        end
    | Throw e s => Throw e s
    | Undef => Undef
    end.
Proof.
  intros Hdir. unfold build_tree. rewrite Hdir.
  destruct (fsys path) as [nm|nm content sz r|nm es ok|nm]; try done.
  cbn [fs_exists negb].
  unfold bind at 1, modify_tree at 1. cbn [fst snd].
  unfold bind at 1, modify_tree at 1. cbn [fst snd].
  unfold bind at 1. destruct (build_node _ _ _) as [r [h1 t1]| |]; try done.
  unfold bind at 1, modify_tree at 1. cbn [fst snd].
  unfold bind at 1, this_tree at 1. cbn [fst snd set_root root].
  unfold bind at 1, lift at 1. cbn [fst snd].
  by destruct (calculateHash sha256 r h1).
Qed.

(** The outcome of [build_tree], case by case. *)
Lemma build_tree_run (fsys : filesystem) (path : string) (h : heap)
    (t : MerkleTree) :
  0 < N.to_nat (CHUNK_SIZE t) -> heap_ok h = true ->
  match fsys path with
  | FsMissing _ =>
      build_tree sha256 fsys path (h, t) = Throw DirectoryDoesNotExist (h, t)
  | FsDir nm es ok =>
      exists ext fo,
        heap_ok (h ++ ext) = true
        /\ 0 < length ext
        /\ index_step h (h ++ ext) ∅ fo
        /\ if ok then
             exists v h',
               fs_hash sha256 (fsys path) = Some v
               /\ calculateHash sha256 (length h) (h ++ ext) = Ret v h'
               /\ erase h' = erase (h ++ ext)
               /\ hash <$> h' !! length h = Some v
               /\ build_tree sha256 fsys path (h, t)
                  = Ret (Some (length h))
                        (h', mkTree (Some (length h)) fo
                               (seq (length h) (length ext)) (CHUNK_SIZE t))
           else
             build_tree sha256 fsys path (h, t)
             = Throw ErrorReadingDirectory
                 (h ++ ext, mkTree (root t) fo
                              (seq (length h) (length ext)) (CHUNK_SIZE t))
  | _ =>
      build_tree sha256 fsys path (h, t) = Throw PathIsNotADirectory (h, t)
  end.
Proof.
  intros Hc Hok.
  destruct (fsys path) as [nm|nm content sz r|nm es ok|nm] eqn:Hpath;
    try (unfold build_tree; by rewrite Hpath).
  rewrite build_tree_dir by (by rewrite Hpath). rewrite Hpath.
  set (t0 := set_nodes [] (set_file_objects ∅ t)).
  destruct (build_node_post sha256 (FsDir nm es ok) h t0 Hc Hok)
    as (ext & fo & Hok' & Hidx & Hex & _ & _ & Hout).
  cbn [fst snd] in *. specialize (Hex eq_refl).
  change (tree_ext t0 fo (length h) (length ext))
    with (mkTree (root t) fo (seq (length h) (length ext)) (CHUNK_SIZE t))
    in Hout.
  exists ext, fo. split; [done|]. split; [done|]. split; [done|].
  rewrite fs_hash_dir in Hout. rewrite fs_hash_dir. destruct ok.
  - destruct Hout as (Hout & Hm & Hname & _).
    assert (Hp : is_Some ((h ++ ext) !! length h)).
    { apply lookup_lt_is_Some. rewrite length_app. lia. }
    destruct Hp as [n Hp].
    destruct (calculateHash_run sha256 (h ++ ext) (length h) n Hok' Hp)
      as (r & h' & Hrun & Hr & Hst & He).
    rewrite Hm in Hr. injection Hr as <-.
    eexists _, h'. split; [done|]. split; [done|]. split; [done|].
    split; [done|]. rewrite Hout. cbn [fst snd]. by rewrite Hrun.
  - by rewrite Hout.
Qed.

(** [mirrors] does not look at the [hash] fields. *)
Lemma mirrors_erase (c : nat) (h1 h2 : heap) (p : ptr) (e : FsEntry) :
  erase h2 = erase h1 -> mirrors sha256 c h1 p e -> mirrors sha256 c h2 p e.
Proof.
  intros E Hm.
  assert (Hn : forall q n, h1 !! q = Some n ->
            exists n', h2 !! q = Some n' /\ set_hash "" n' = set_hash "" n).
  { intros q n Hq. pose proof (erase_lookup h2 q) as H2.
    rewrite E, erase_lookup, Hq in H2. cbn in H2.
    destruct (h2 !! q) as [n'|]; [|done]. exists n'. split; [done|].
    cbn in H2. congruence. }
  induction Hm as [p n nm content sz Hp Hv|p n nm Hp Hv|p n nm es Hp Hv Hkids IH];
    destruct (Hn p n Hp) as (n' & Hp' & Hnn).
  - eapply mirrors_file; [exact Hp' | by rewrite Hnn].
  - eapply mirrors_other; [exact Hp' | by rewrite Hnn].
  - eapply mirrors_dir; [exact Hp' | by rewrite Hnn | exact IH].
Qed.

(** Where a [build_tree] call that returns leaves the tree: the root is
    the first node it allocated, it allocated [fs_alloc] nodes, and the
    heap under the root mirrors the directory. *)
Lemma build_tree_shape (fsys : filesystem) (path : string) (h : heap)
    (t : MerkleTree) (r : option ptr) (h' : heap) (t' : MerkleTree) :
  0 < N.to_nat (CHUNK_SIZE t) -> heap_ok h = true ->
  build_tree sha256 fsys path (h, t) = Ret r (h', t') ->
  r = Some (length h)
  /\ root t' = Some (length h)
  /\ CHUNK_SIZE t' = CHUNK_SIZE t
  /\ length h' = length h + fs_alloc (fsys path)
  /\ mirrors sha256 (N.to_nat (CHUNK_SIZE t)) h' (length h) (fsys path).
Proof.
  intros Hc Hok Hret.
  destruct (fsys path) as [nm|nm content sz rd|nm es ok|nm] eqn:Hpath;
    try (unfold build_tree in Hret; by rewrite Hpath in Hret).
  rewrite build_tree_dir in Hret by (by rewrite Hpath). rewrite Hpath in Hret.
  set (t0 := set_nodes [] (set_file_objects ∅ t)) in *.
  destruct (build_node_post sha256 (FsDir nm es ok) h t0 Hc Hok)
    as (ext & fo & Hok' & _ & Hex & _ & Hal & Hout).
  cbn [fst snd] in *. specialize (Hex eq_refl).
  rewrite fs_hash_dir in Hout. destruct ok; [|by rewrite Hout in Hret].
  destruct Hout as (Hout & _ & _ & Hmir).
  assert (Hp : is_Some ((h ++ ext) !! length h)).
  { apply lookup_lt_is_Some. rewrite length_app. lia. }
  destruct Hp as [n Hp].
  destruct (calculateHash_run sha256 (h ++ ext) (length h) n Hok' Hp)
    as (v & h2 & Hrun & _ & _ & He).
  rewrite Hout in Hret. cbn [fst snd] in Hret. rewrite Hrun in Hret.
  injection Hret as <- <- <-.
  split; [done|]. split; [done|]. split; [done|]. split.
  - by rewrite (erase_eq_length _ _ He), length_app, Hal.
  - by apply (mirrors_erase _ _ _ _ _ He).
Qed.

(** C6, as the code has it. A [build_tree] call whose path does not
    exist, or is not a directory, throws and changes nothing. A call on a
    directory empties the content index and the node registry, but not
    the root, before it builds; when listing the root directory then
    fails, the call throws with the root still the previous root, the
    registry holding exactly the nodes allocated by the failed call (the
    new root node at least, none of the previous tree) and the index
    holding only entries for those. *)
Theorem build_tree_failure_state (fsys : filesystem) (path : string)
    (h : heap) (t : MerkleTree) :
  (0 < CHUNK_SIZE t)%N ->
  heap_ok h = true ->
  (fs_exists (fsys path) = false ->
     build_tree sha256 fsys path (h, t) = Throw DirectoryDoesNotExist (h, t))
  /\ (fs_exists (fsys path) = true -> fs_is_directory (fsys path) = false ->
        build_tree sha256 fsys path (h, t)
        = Throw PathIsNotADirectory (h, t))
  /\ (forall nm es, fsys path = FsDir nm es false ->
        exists ext fo,
          build_tree sha256 fsys path (h, t)
          = Throw ErrorReadingDirectory
              (h ++ ext, mkTree (root t) fo (seq (length h) (length ext))
                           (CHUNK_SIZE t))
          /\ 0 < length ext
          /\ (forall k p, fo !! k = Some p ->
                length h <= p < length h + length ext)).
Proof.
  intros Hc0 Hok. assert (Hc : 0 < N.to_nat (CHUNK_SIZE t)) by lia.
  pose proof (build_tree_run fsys path h t Hc Hok) as Hrun.
  split; [|split].
  - intros He. by destruct (fsys path).
  - intros He Hd. by destruct (fsys path).
  - intros nm es Hpath. rewrite Hpath in Hrun.
    destruct Hrun as (ext & fo & _ & Hlen & (Hidx & _ & _) & Hout).
    exists ext, fo. split; [done|]. split; [done|].
    intros k p Hp. destruct (Hidx k p Hp) as [?|(Hle & n & Hn & _)]; [done|].
    apply lookup_lt_Some in Hn. rewrite length_app in Hn. lia.
Qed.

(** C8. After a [build_tree] call that returns, every entry of the
    content index points to a registered file node whose [contentHash] is
    the entry's key, and every registered file node with a content hash
    is covered by the entry of that hash, which points to that node or to
    one registered after it (the registry lists the nodes in the order of
    their allocation, which is the order of their addresses): of several
    files with the same content the index keeps the last one built.
    The tree under the root mirrors the directory: every entry that
    could be built has its node, attached under its name to the node of
    its directory, so files of equal content in different directories
    each have their node in the tree. *)
Theorem build_tree_index (fsys : filesystem) (path : string)
    (h : heap) (t : MerkleTree) (r : option ptr) (h' : heap)
    (t' : MerkleTree) :
  (0 < CHUNK_SIZE t)%N ->
  heap_ok h = true ->
  build_tree sha256 fsys path (h, t) = Ret r (h', t') ->
  nodes t' = seq (length h) (length h' - length h)
  /\ (forall k p, file_objects t' !! k = Some p ->
        p ∈ nodes t'
        /\ exists n, h' !! p = Some n /\ isFile n = true
                     /\ contentHash n = k)
  /\ (forall q n, q ∈ nodes t' -> h' !! q = Some n -> isFile n = true ->
        contentHash n <> "" ->
        exists p, file_objects t' !! contentHash n = Some p
                  /\ q <= p /\ p ∈ nodes t')
  /\ (exists p, r = Some p /\ root t' = Some p
                /\ mirrors sha256 (N.to_nat (CHUNK_SIZE t)) h' p
                     (fsys path)).
Proof.
  intros Hc0 Hok Hret. assert (Hc : 0 < N.to_nat (CHUNK_SIZE t)) by lia.
  assert (Hshape : exists p, r = Some p /\ root t' = Some p
                /\ mirrors sha256 (N.to_nat (CHUNK_SIZE t)) h' p
                     (fsys path)).
  { destruct (build_tree_shape fsys path h t r h' t' Hc Hok Hret)
      as (Hr & Hroot & _ & _ & Hmir). by exists (length h). }
  pose proof (build_tree_run fsys path h t Hc Hok) as Hrun.
  rewrite Hret in Hrun.
  destruct (fsys path) as [nm|nm content sz rd|nm es ok|nm]; try done.
  destruct Hrun as (ext & fo & Hok' & Hlen & (A & B & _) & Hout).
  destruct ok; [|done].
  destruct Hout as (v & h2 & _ & _ & He & _ & Heq).
  injection Heq as Hr Hh Ht. subst r h2 t'.
  cbn [nodes file_objects].
  assert (Hl : length h' = length h + length ext)
    by (by rewrite (erase_eq_length _ _ He), length_app).
  assert (Hin : forall p n, h' !! p = Some n -> length h <= p ->
                  p ∈ seq (length h) (length ext)).
  { intros p n Hp Hle. apply lookup_lt_Some in Hp. apply elem_of_seq. lia. }
  split; [f_equal; lia|]. split; [|split; [|exact Hshape]].
  - intros k p Hp. destruct (A k p Hp) as [H0|(Hle & n & Hn & Hf & Hk)].
    { by rewrite lookup_empty in H0. }
    destruct (erase_eq_lookup _ _ p n He Hn) as (n' & Hn' & Hnn).
    split; [by eapply Hin|]. exists n'. split; [done|].
    rewrite Hnn. done.
  - intros q n Hq Hn Hf Hk. apply elem_of_seq in Hq as [Hq _].
    symmetry in He.
    destruct (erase_eq_lookup _ _ q n He Hn) as (n0 & Hn0 & Hnn).
    assert (Hf0 : isFile n0 = true) by (by rewrite Hnn).
    assert (Hk0 : contentHash n0 = contentHash n) by (by rewrite Hnn).
    rewrite <- Hk0 in Hk.
    destruct (B q n0 Hq Hn0 Hf0 Hk) as (p & Hp & Hle).
    exists p. rewrite <- Hk0. split; [done|]. split; [done|].
    destruct (A _ p Hp) as [H0|(_ & n1 & Hn1 & _)].
    { by rewrite lookup_empty in H0. }
    apply lookup_lt_Some in Hn1. rewrite length_app in Hn1.
    apply elem_of_seq. lia.
Qed.

End BuildTree.

Section Verify.

Context (sha256 : string -> string).

(** ** Stored hashes and [verifyTreeIntegrity] *)

Lemma reach_erase (h h' : heap) (p q : ptr) :
  erase h' = erase h -> reach h p q -> reach h' p q.
Proof.
  intros E Hr. induction Hr as [p|p n k c q Hp Hk _ IH]; [constructor|].
  destruct (erase_eq_lookup h h' p n E Hp) as (n' & Hp' & Hn').
  eapply reach_child; [exact Hp'| |exact IH]. by rewrite Hn'.
Qed.

Lemma reach_above (h : heap) (p q : ptr) :
  heap_ok h = true -> reach h p q -> p <= q.
Proof.
  intros Hok Hr. induction Hr as [p|p n k c q Hp Hk _ IH]; [done|].
  destruct (heap_ok_child h p n k _ Hok Hp Hk) as (c' & ? & ?).
  simplify_eq. lia.
Qed.

Lemma hash_writes_refl (h : heap) : hash_writes sha256 h h.
Proof. intros q n Hq. by left. Qed.

Lemma hash_writes_trans (h h1 h2 : heap) :
  erase h1 = erase h ->
  hash_writes sha256 h h1 -> hash_writes sha256 h1 h2 ->
  hash_writes sha256 h h2.
Proof.
  intros E W1 W2 q n2 Hq. destruct (W2 q n2 Hq) as [H1|Hm].
  - by apply W1.
  - right. rewrite (erase_eq_length _ _ E) in Hm.
    by rewrite <- (merkle_hash_erase_eq sha256 _ h h1).
Qed.

Lemma hash_writes_store (h : heap) (p : ptr) (n : MerkleNode) (v : string)
    (f : nat) :
  h !! p = Some n -> merkle_hash sha256 f h p = Some v -> f <= length h ->
  hash_writes sha256 h (<[p := set_hash v n]> h).
Proof.
  intros Hp Hm Hf q n' Hq. destruct (decide (q = p)) as [->|Hne].
  - rewrite list_lookup_insert_eq in Hq by (by eapply lookup_lt_Some).
    simplify_eq. right. cbn. by eapply merkle_hash_mono.
  - rewrite list_lookup_insert_ne in Hq by done. by left.
Qed.

Lemma consistent_keep (h h' : heap) (q : ptr) :
  erase h' = erase h -> hash_writes sha256 h h' ->
  consistent sha256 h q -> consistent sha256 h' q.
Proof.
  intros E W (n & Hq & Hm).
  destruct (erase_eq_lookup h h' q n E Hq) as (n' & Hq' & Hn').
  exists n'. split; [done|].
  rewrite (erase_eq_length _ _ E), (merkle_hash_erase_eq sha256 _ h h') by done.
  destruct (W q n' Hq') as [H1|H1]; [|done].
  by assert (n' = n) as -> by congruence.
Qed.

(** Each step of the loop, spelled out. *)
Lemma calculateHash_loop_step (f : nat) (p : ptr) (k : string)
    (names : list string) (combined : string) (h : heap) (r : string)
    (h' : heap) :
  calculateHash_loop (calculateHash_rec sha256 f) p (k :: names) combined h
  = Ret r h' ->
  exists n c ch h1,
    h !! p = Some n /\ children n !! k = Some (Some c)
    /\ calculateHash_rec sha256 f c h = Ret ch h1
    /\ calculateHash_loop (calculateHash_rec sha256 f) p names
         (combined +:+ k +:+ ":" +:+ ch +:+ ";") h1 = Ret r h'.
Proof.
  cbn [calculateHash_loop]. unfold bind at 1, load.
  destruct (h !! p) as [n|] eqn:Hp; [|done].
  unfold map_subscript.
  destruct (children n !! k) as [[c|]|] eqn:Hk.
  - unfold bind at 1, modify. rewrite Hp.
    rewrite set_children_id, list_insert_id by done.
    unfold bind at 1.
    destruct (calculateHash_rec sha256 f c h) as [ch h1| |] eqn:Hc;
      [|done|done].
    intros Hrun. by exists n, c, ch, h1.
  - unfold bind at 1, modify. by rewrite Hp.
  - unfold bind at 1, modify. by rewrite Hp.
Qed.

Lemma calculateHash_rec_cases (f : nat) (p : ptr) (h : heap) (r : string)
    (h' : heap) :
  calculateHash_rec sha256 (S f) p h = Ret r h' ->
  exists n, h !! p = Some n /\
    ((h' = <[p := set_hash r n]> h
      /\ (isFile n = true \/ children n = ∅))
     \/ (isFile n = false /\ children n <> ∅ /\
         exists comb h1 n1,
           calculateHash_loop (calculateHash_rec sha256 f) p
             (map_keys (children n)) "" h = Ret comb h1
           /\ h1 !! p = Some n1 /\ r = sha256 comb
           /\ h' = <[p := set_hash r n1]> h1)).
Proof.
  cbn [calculateHash_rec]. unfold bind at 1, load.
  destruct (h !! p) as [n|] eqn:Hp; [|done]. intros Hrun. exists n.
  split; [done|]. destruct (isFile n) eqn:Hf.
  - unfold bind, modify, ret in Hrun. rewrite Hp in Hrun.
    injection Hrun as <- <-. left. auto.
  - case_decide as He.
    + unfold bind, modify, ret in Hrun. rewrite Hp in Hrun.
      injection Hrun as <- <-. left. auto.
    + right. split; [done|]. split; [done|].
      rewrite sort_map_keys in Hrun. unfold bind at 1 in Hrun.
      destruct (calculateHash_loop _ _ _ _ _) as [comb h1| |] eqn:Hloop;
        [|done|done].
      unfold bind, modify, ret in Hrun.
      destruct (h1 !! p) as [n1|] eqn:Hp1; [|done].
      injection Hrun as <- <-. by exists comb, h1, n1.
Qed.

Lemma calculateHash_rec_writes (f : nat) :
  forall p h r h', calculateHash_rec sha256 f p h = Ret r h' ->
    f <= length h -> hash_writes sha256 h h'.
Proof.
  induction f as [|f IH]; intros p h r h' Hrun Hf; [done|].
  pose proof (calculateHash_rec_spec sha256 _ _ _ _ _ Hrun) as [Hm E].
  apply calculateHash_rec_cases in Hrun
    as (n & Hp & [[-> _]|(Hfile & Hne & comb & h1 & n1 & Hloop & Hp1 & -> & ->)]).
  { by eapply hash_writes_store. }
  assert (Hl : forall names combined h0 r0 h2,
    erase h0 = erase h ->
    calculateHash_loop (calculateHash_rec sha256 f) p names combined h0
    = Ret r0 h2 -> erase h2 = erase h /\ hash_writes sha256 h0 h2).
  { induction names as [|k names IHn]; intros combined h0 r0 h2 E0 Hrun.
    - injection Hrun as <- <-. split; [done | apply hash_writes_refl].
    - apply calculateHash_loop_step in Hrun
        as (n0 & c & ch & h3 & Hp0 & Hk & Hc & Hrest).
      pose proof (calculateHash_rec_spec sha256 _ _ _ _ _ Hc) as [_ E3].
      destruct (IHn _ h3 _ _ ltac:(congruence) Hrest) as [E2 W2].
      split; [done|].
      eapply hash_writes_trans; [exact E3| |exact W2].
      eapply IH; [exact Hc|]. rewrite (erase_eq_length _ _ E0). lia. }
  destruct (Hl _ _ _ _ _ eq_refl Hloop) as [E1 W1].
  eapply hash_writes_trans; [exact E1|exact W1|].
  eapply hash_writes_store; [done| |].
  - rewrite (merkle_hash_erase_eq sha256 _ h h1) by done. exact Hm.
  - rewrite (erase_eq_length _ _ E1). lia.
Qed.

Lemma calculateHash_loop_shape (f : nat) (p : ptr) :
  forall names combined h r h',
    calculateHash_loop (calculateHash_rec sha256 f) p names combined h
    = Ret r h' ->
    f < length h ->
    erase h' = erase h /\ hash_writes sha256 h h'.
Proof.
  induction names as [|k names IHn]; intros combined h r h' Hrun Hf.
  - injection Hrun as <- <-. split; [done | apply hash_writes_refl].
  - apply calculateHash_loop_step in Hrun
      as (n0 & c & ch & h3 & Hp0 & Hk & Hc & Hrest).
    pose proof (calculateHash_rec_spec sha256 _ _ _ _ _ Hc) as [_ E3].
    destruct (IHn _ h3 _ _ Hrest) as [E2 W2].
    { rewrite (erase_eq_length _ _ E3). lia. }
    split; [congruence|].
    eapply hash_writes_trans; [exact E3| |exact W2].
    eapply calculateHash_rec_writes; [exact Hc|lia].
Qed.

(** After [calculateHash] every node of the tree under [p] carries its
    Merkle hash. *)
Lemma calculateHash_rec_consistent (f : nat) :
  forall p h r h', heap_ok h = true ->
    calculateHash_rec sha256 f p h = Ret r h' -> f <= length h ->
    forall q, reach h p q -> consistent sha256 h' q.
Proof.
  induction f as [|f IH]; intros p h r h' Hok Hrun Hf q Hq; [done|].
  pose proof (calculateHash_rec_spec sha256 _ _ _ _ _ Hrun) as [Hm E].
  pose proof (calculateHash_rec_stored sha256 _ _ _ _ _ Hrun) as Hst.
  assert (Hself : consistent sha256 h' p).
  { destruct (h' !! p) as [n'|] eqn:Hp'; [|done]. exists n'.
    split; [done|]. cbn in Hst. injection Hst as ->.
    rewrite (erase_eq_length _ _ E), (merkle_hash_erase_eq sha256 _ h h')
      by done.
    by eapply merkle_hash_mono. }
  destruct Hq as [p|p n k c q Hp Hk Hq]; [done|].
  apply calculateHash_rec_cases in Hrun
    as (n0 & Hp0 & [[-> [Hfile|He]]|
         (Hfile & Hne & comb & h1 & n1 & Hloop & Hp1 & -> & ->)]);
    assert (n0 = n) as -> by congruence.
  { rewrite (heap_ok_file h p n Hok Hp Hfile) in Hk.
    by rewrite lookup_empty in Hk. }
  { rewrite He in Hk. by rewrite lookup_empty in Hk. }
  assert (Hl : forall names combined h0 r0 h2,
    erase h0 = erase h ->
    calculateHash_loop (calculateHash_rec sha256 f) p names combined h0
    = Ret r0 h2 -> k ∈ names -> consistent sha256 h2 q).
  { induction names as [|k0 names IHn]; intros combined h0 r0 h2 E0 Hrun Hin.
    { by apply elem_of_nil in Hin. }
    apply calculateHash_loop_step in Hrun
      as (n0 & c0 & ch & h3 & Hp0' & Hk0 & Hc & Hrest).
    pose proof (calculateHash_rec_spec sha256 _ _ _ _ _ Hc) as [_ E3].
    assert (Hlen0 : length h0 = length h) by (by apply erase_eq_length).
    apply elem_of_cons in Hin as [<-|Hin].
    - destruct (erase_eq_lookup h h0 p n E0 Hp) as (n0' & Hn0' & Hnn).
      assert (n0 = n0') as -> by congruence.
      assert (c0 = c) as ->.
      { rewrite Hnn in Hk0. cbn in Hk0. congruence. }
      assert (Hcq : consistent sha256 h3 q).
      { eapply (IH c h0); [by rewrite (heap_ok_erase_eq h h0)|exact Hc|lia|].
        by apply (reach_erase h h0). }
      destruct (calculateHash_loop_shape f p _ _ _ _ _ Hrest) as [E2 W2].
      { rewrite (erase_eq_length _ _ E3). lia. }
      by eapply consistent_keep.
    - eapply (IHn _ h3); [congruence|exact Hrest|done]. }
  assert (Hkin : k ∈ map_keys (children n))
    by (apply elem_of_map_keys; eauto).
  pose proof (Hl _ _ _ _ _ eq_refl Hloop Hkin) as Hc1.
  destruct (calculateHash_loop_shape f p _ _ _ _ _ Hloop ltac:(lia))
    as [E1 W1].
  eapply consistent_keep; [| |exact Hc1].
  - by apply erase_insert.
  - eapply hash_writes_store; [done| |].
    + rewrite (merkle_hash_erase_eq sha256 _ h h1) by done. exact Hm.
    + rewrite (erase_eq_length _ _ E1). lia.
Qed.

(** On a tree whose nodes all carry their Merkle hash, [calculateHash]
    changes nothing. *)
Lemma calculateHash_rec_stable (f : nat) :
  forall p h r h',
    (forall q, reach h p q -> consistent sha256 h q) ->
    calculateHash_rec sha256 f p h = Ret r h' -> f <= length h ->
    h' = h /\ hash <$> h !! p = Some r.
Proof.
  induction f as [|f IH]; intros p h r h' Hcons Hrun Hf; [done|].
  pose proof (calculateHash_rec_spec sha256 _ _ _ _ _ Hrun) as [Hm E].
  destruct (Hcons p (reach_here h p)) as (n & Hp & Hmp).
  assert (Hr : hash n = r).
  { apply (merkle_hash_mono sha256 _ (length h)) in Hm; [|done]. congruence. }
  assert (Hfix : <[p := set_hash r n]> h = h).
  { rewrite <- Hr, set_hash_id. by apply list_insert_id. }
  apply calculateHash_rec_cases in Hrun
    as (n0 & Hp0 & [[-> _]|
         (Hfile & Hne & comb & h1 & n1 & Hloop & Hp1 & Hrc & ->)]);
    assert (n0 = n) as -> by congruence.
  { split; [done|]. by rewrite Hp, <- Hr. }
  assert (Hl : forall names combined r0 h2,
    calculateHash_loop (calculateHash_rec sha256 f) p names combined h
    = Ret r0 h2 -> h2 = h).
  { induction names as [|k0 names IHn]; intros combined r0 h2 Hrun.
    { by injection Hrun as <- <-. }
    apply calculateHash_loop_step in Hrun
      as (n0 & c0 & ch & h3 & Hp0' & Hk0 & Hc & Hrest).
    assert (n0 = n) as -> by congruence.
    destruct (IH c0 h ch h3) as [-> _]; [|exact Hc|lia|].
    - intros q Hq. apply Hcons. by eapply reach_child.
    - by eapply IHn. }
  pose proof (Hl _ _ _ _ Hloop) as ->.
  assert (n1 = n) as -> by congruence.
  split; [done|]. by rewrite Hp, <- Hr.
Qed.

Lemma verifyNodeIntegrity_loop_true (rec : option ptr -> M heap bool)
    (kids : list (string * option ptr)) (h : heap) :
  Forall (fun kc => rec kc.2 h = Ret true h) kids ->
  verifyNodeIntegrity_loop rec kids h = Ret true h.
Proof.
  induction 1 as [|kc kids Hkc _ IH]; [done|].
  cbn [verifyNodeIntegrity_loop]. unfold bind at 1. by rewrite Hkc.
Qed.

(** On such a tree the check succeeds and changes nothing. *)
Lemma verifyNodeIntegrity_rec_true (f : nat) :
  forall p h, heap_ok h = true -> p < length h ->
    (forall q, reach h p q -> consistent sha256 h q) ->
    length h - p < f ->
    verifyNodeIntegrity_rec sha256 f (Some p) h = Ret true h.
Proof.
  induction f as [|f IH]; intros p h Hok Hp Hcons Hf; [lia|].
  destruct (lookup_lt_is_Some_2 h p Hp) as [n Hn].
  cbn [verifyNodeIntegrity_rec]. unfold bind at 1, load. rewrite Hn.
  unfold bind at 1, calculateHash.
  destruct (calculateHash_rec_total sha256 (length h) p h n Hok Hn
              ltac:(lia)) as (r & h' & Hrun).
  rewrite Hrun.
  destruct (calculateHash_rec_stable _ _ _ _ _ Hcons Hrun ltac:(done))
    as [-> Hr].
  rewrite Hn in Hr. injection Hr as <-.
  rewrite String.eqb_refl. cbn [negb].
  unfold bind at 1, load. rewrite Hn.
  apply verifyNodeIntegrity_loop_true, Forall_forall.
  intros [k v] Hin. apply elem_of_map_items in Hin. cbn [snd].
  destruct (heap_ok_child h p n k v Hok Hn Hin) as (c & -> & Hpc & Hc).
  apply IH; [done|done| |lia].
  intros q Hq. apply Hcons. by eapply reach_child.
Qed.

(** What [verifyNodeIntegrity] decides: whether the [hash] field of the
    node it is called on equals the recomputed hash. The recomputation
    has by then rewritten the [hash] field of every node below, so the
    checks of the children that follow cannot fail. *)
Lemma verifyNodeIntegrity_root_only (h : heap) (p : ptr) (n : MerkleNode) :
  heap_ok h = true -> h !! p = Some n ->
  exists r h',
    calculateHash sha256 p h = Ret r h'
    /\ verifyNodeIntegrity sha256 (Some p) h
       = Ret (String.eqb (hash n) r) h'.
Proof.
  intros Hok Hn.
  destruct (calculateHash_run sha256 h p n Hok Hn)
    as (r & h' & Hrun & Hm & Hst & E).
  exists r, h'. split; [done|].
  unfold verifyNodeIntegrity. cbn [verifyNodeIntegrity_rec].
  unfold bind at 1, load. rewrite Hn. unfold bind at 1. rewrite Hrun.
  destruct (String.eqb (hash n) r) eqn:Heq; cbn [negb]; [|done].
  destruct (erase_eq_lookup h h' p n E Hn) as (n' & Hn' & Hnn).
  unfold bind at 1, load. rewrite Hn'.
  apply verifyNodeIntegrity_loop_true, Forall_forall.
  intros [k v] Hin. apply elem_of_map_items in Hin. cbn [snd].
  rewrite Hnn in Hin. cbn in Hin.
  destruct (heap_ok_child h p n k v Hok Hn Hin) as (c & -> & Hpc & Hc).
  rewrite <- (erase_eq_length _ _ E).
  apply verifyNodeIntegrity_rec_true.
  - by rewrite (heap_ok_erase_eq h h').
  - rewrite (erase_eq_length _ _ E). lia.
  - intros q Hq. unfold calculateHash in Hrun.
    eapply calculateHash_rec_consistent; [exact Hok|exact Hrun|done|].
    eapply reach_child; [exact Hn|exact Hin|].
    apply (reach_erase h' h); [done|exact Hq].
  - rewrite (erase_eq_length _ _ E). lia.
Qed.

(** A tree as [build_tree] leaves it: every node under the root carries
    its Merkle hash. *)
Lemma build_tree_consistent (fsys : filesystem) (path : string)
    (h : heap) (t : MerkleTree) (r : option ptr) (h' : heap)
    (t' : MerkleTree) :
  0 < N.to_nat (CHUNK_SIZE t) -> heap_ok h = true ->
  build_tree sha256 fsys path (h, t) = Ret r (h', t') ->
  heap_ok h' = true
  /\ exists p, r = Some p /\ root t' = Some p /\ p < length h'
       /\ forall q, reach h' p q -> consistent sha256 h' q.
Proof.
  intros Hc Hok Hret.
  pose proof (build_tree_run sha256 fsys path h t Hc Hok) as Hrun.
  rewrite Hret in Hrun.
  destruct (fsys path) as [nm|nm content sz rd|nm es ok|nm]; try done.
  destruct Hrun as (ext & fo & Hok' & Hlen & _ & Hout).
  destruct ok; [|done].
  destruct Hout as (v & h2 & _ & Hcalc & He & _ & Heq).
  injection Heq as Hr Hh Ht. subst r h2 t'.
  split; [by rewrite (heap_ok_erase_eq _ _ He)|].
  exists (length h). split; [done|]. split; [done|]. split.
  - rewrite (erase_eq_length _ _ He), length_app. lia.
  - intros q Hq. unfold calculateHash in Hcalc.
    eapply calculateHash_rec_consistent; [exact Hok'|exact Hcalc|done|].
    by apply (reach_erase h' (h ++ ext)).
Qed.

(** On a tree as built, the check succeeds and writes nothing. *)
Lemma verifyTreeIntegrity_fresh (fsys : filesystem) (path : string)
    (w w' : world) (r : option ptr) :
  0 < N.to_nat (CHUNK_SIZE w.2) -> heap_ok w.1 = true ->
  build_tree sha256 fsys path w = Ret r w' ->
  verifyTreeIntegrity sha256 w' = Ret true w'.
Proof.
  destruct w as [h t], w' as [h' t']. cbn [fst snd]. intros Hc Hok Hret.
  destruct (build_tree_consistent _ _ _ _ _ _ _ Hc Hok Hret)
    as (Hok' & p & -> & Hroot & Hp & Hcons).
  unfold verifyTreeIntegrity, bind, this_tree. cbn [fst snd].
  rewrite Hroot. unfold lift, verifyNodeIntegrity. cbn [fst snd].
  rewrite verifyNodeIntegrity_rec_true; [done|done|done|done|lia].
Qed.

(** Overwriting the stored hash of the root with another value makes the
    check fail. *)
Lemma verifyTreeIntegrity_root_tampered (h : heap) (t : MerkleTree)
    (p : ptr) (n : MerkleNode) (v : string) :
  heap_ok h = true -> root t = Some p -> h !! p = Some n ->
  merkle_hash sha256 (length h) h p = Some (hash n) ->
  v <> hash n ->
  exists h',
    verifyTreeIntegrity sha256 (<[p := set_hash v n]> h, t)
    = Ret false (h', t).
Proof.
  intros Hok Hroot Hn Hm Hv.
  set (h1 := <[p := set_hash v n]> h).
  assert (E : erase h1 = erase h) by (by apply erase_insert).
  assert (Hn1 : h1 !! p = Some (set_hash v n)).
  { apply list_lookup_insert_eq. by eapply lookup_lt_Some. }
  destruct (verifyNodeIntegrity_root_only h1 p _
              ltac:(by rewrite (heap_ok_erase_eq h h1)) Hn1)
    as (r & h' & Hrun & Hver).
  exists h'. unfold verifyTreeIntegrity, bind, this_tree. cbn [fst snd].
  rewrite Hroot. unfold lift. cbn [fst snd]. rewrite Hver.
  unfold calculateHash in Hrun.
  apply calculateHash_rec_spec in Hrun as [Hr _].
  rewrite (erase_eq_length _ _ E), (merkle_hash_erase_eq sha256 _ h h1) in Hr
    by done.
  assert (r = hash n) as -> by congruence.
  cbn [hash set_hash]. by rewrite (proj2 (String.eqb_neq v (hash n))).
Qed.

(** Overwriting the stored hash of any other node of a tree whose root
    carries its Merkle hash goes unnoticed: the check returns [true]. *)
Lemma verifyTreeIntegrity_below_root_unnoticed (h : heap) (t : MerkleTree)
    (p q : ptr) (n nq : MerkleNode) (v : string) :
  heap_ok h = true -> root t = Some p -> h !! p = Some n ->
  merkle_hash sha256 (length h) h p = Some (hash n) ->
  h !! q = Some nq -> q <> p ->
  exists h',
    verifyTreeIntegrity sha256 (<[q := set_hash v nq]> h, t)
    = Ret true (h', t).
Proof.
  intros Hok Hroot Hn Hm Hq Hne.
  set (h1 := <[q := set_hash v nq]> h).
  assert (E : erase h1 = erase h) by (by apply erase_insert).
  assert (Hn1 : h1 !! p = Some n)
    by (unfold h1; by rewrite list_lookup_insert_ne).
  destruct (verifyNodeIntegrity_root_only h1 p _
              ltac:(by rewrite (heap_ok_erase_eq h h1)) Hn1)
    as (r & h' & Hrun & Hver).
  exists h'. unfold verifyTreeIntegrity, bind, this_tree. cbn [fst snd].
  rewrite Hroot. unfold lift. cbn [fst snd]. rewrite Hver.
  unfold calculateHash in Hrun.
  apply calculateHash_rec_spec in Hrun as [Hr _].
  rewrite (erase_eq_length _ _ E), (merkle_hash_erase_eq sha256 _ h h1) in Hr
    by done.
  assert (r = hash n) as -> by congruence.
  by rewrite String.eqb_refl.
Qed.

End Verify.

Section Traversals.

Context (sha256 : string -> string).

(** ** Traversals: statistics, lookup, export *)

Lemma wrap_small (n : N) : (n < size_t_modulus)%N -> wrap n = n.
Proof. apply N.mod_small. Qed.

Lemma wrap_lt (n : N) : (wrap n < size_t_modulus)%N.
Proof. apply N.mod_lt. done. Qed.

Lemma wrap_add_l (a b : N) : wrap (wrap a + b) = wrap (a + b).
Proof. unfold wrap. by rewrite N.Div0.add_mod_idemp_l. Qed.

Lemma file_count_app (h : heap) (l1 l2 : list ptr) :
  file_count h (l1 ++ l2) = (file_count h l1 + file_count h l2)%N.
Proof. unfold file_count. rewrite filter_app, length_app. lia. Qed.

Lemma dir_count_app (h : heap) (l1 l2 : list ptr) :
  dir_count h (l1 ++ l2) = (dir_count h l1 + dir_count h l2)%N.
Proof. unfold dir_count. rewrite filter_app, length_app. lia. Qed.

Lemma total_size_app (h : heap) (l1 l2 : list ptr) :
  total_size h (l1 ++ l2) = (total_size h l1 + total_size h l2)%N.
Proof.
  unfold total_size. induction l1 as [|q l1 IH]; [done|].
  cbn [app foldr]. rewrite IH.
  destruct (h !! q) as [n|]; [|done]. destruct (isFile n); lia.
Qed.

Lemma add_stats_in_range (h : heap) acc l : stats_in_range (add_stats h acc l).
Proof. repeat split; apply wrap_lt. Qed.

Lemma add_stats_nil (h : heap) acc :
  stats_in_range acc -> add_stats h acc [] = acc.
Proof.
  destruct acc as [[a b] c]. intros (Ha & Hb & Hc). cbn in *.
  unfold add_stats, file_count, dir_count. cbn.
  by rewrite !N.add_0_r, !wrap_small.
Qed.

Lemma add_stats_app (h : heap) acc l1 l2 :
  add_stats h (add_stats h acc l1) l2 = add_stats h acc (l1 ++ l2).
Proof.
  unfold add_stats. cbn [fst snd].
  rewrite !wrap_add_l, file_count_app, dir_count_app, total_size_app.
  by rewrite !N.add_assoc.
Qed.

Lemma preorder_total (f : nat) :
  forall p h, heap_ok h = true -> p < length h -> length h - p < f ->
    is_Some (preorder f h (Some p)).
Proof.
  induction f as [|f IH]; intros p h Hok Hp Hf; [lia|].
  destruct (lookup_lt_is_Some_2 h p Hp) as [n Hn].
  cbn [preorder]. rewrite Hn. cbn.
  assert (Hall : is_Some (mapM (fun kc : string * option ptr =>
                   preorder f h kc.2) (map_items (children n)))).
  { apply mapM_is_Some, Forall_forall. intros [k v] Hin.
    apply elem_of_map_items in Hin. cbn.
    destruct (heap_ok_child h p n k v Hok Hn Hin) as (c & -> & ? & ?).
    apply IH; [done|done|lia]. }
  destruct Hall as [below ->]. by eexists.
Qed.

Lemma calculateStats_loop_spec
    (rec : option ptr -> N * N * N -> M heap (N * N * N)) (h : heap)
    (kids : list (string * option ptr)) (ls : list (list ptr)) :
  Forall2 (fun kc l => forall acc, stats_in_range acc ->
             rec kc.2 acc h = Ret (add_stats h acc l) h) kids ls ->
  forall acc, stats_in_range acc ->
    calculateStats_loop rec kids acc h = Ret (add_stats h acc (concat ls)) h.
Proof.
  induction 1 as [|kc l kids ls Hkc _ IH]; intros acc Hacc.
  - cbn. by rewrite add_stats_nil.
  - cbn [calculateStats_loop concat]. unfold bind at 1.
    rewrite Hkc by done. rewrite IH by apply add_stats_in_range.
    by rewrite add_stats_app.
Qed.

(** [calculateStatsRecursive] counts the nodes of the pre-order listing:
    it adds, modulo [2^64], the number of file nodes, the number of other
    nodes and the sizes of the file nodes, and writes nothing. *)
Lemma calculateStatsRecursive_rec_spec (f : nat) :
  forall node h l acc, heap_ok h = true ->
    preorder f h node = Some l -> stats_in_range acc ->
    calculateStatsRecursive_rec f node acc h = Ret (add_stats h acc l) h.
Proof.
  induction f as [|f IH]; intros node h l acc Hok Hl Hacc; [done|].
  cbn [preorder calculateStatsRecursive_rec] in *.
  destruct node as [p|].
  2:{ injection Hl as <-. unfold ret. by rewrite add_stats_nil. }
  destruct acc as [[a b] c]. unfold bind at 1, load.
  destruct (h !! p) as [n|] eqn:Hn; [|done]. cbn in Hl.
  destruct (mapM _ _) as [below|] eqn:Hb; [|done]. cbn in Hl.
  injection Hl as <-. destruct Hacc as (Ha & Hb' & Hc'). cbn in *.
  destruct (isFile n) eqn:Hf.
  - rewrite (heap_ok_file h p n Hok Hn Hf), map_items_empty in Hb.
    injection Hb as <-. unfold ret, add_stats, file_count, dir_count.
    cbn [concat fst snd total_size foldr filter list_filter].
    unfold is_file_at, is_dir_at. rewrite Hn, Hf. cbn [negb].
    rewrite !decide_True by done. rewrite decide_False by done. cbn.
    by rewrite N.add_0_r, (wrap_small b), N.add_0_r.
  - apply mapM_Some_1 in Hb.
    rewrite (calculateStats_loop_spec _ h _ below).
    + unfold add_stats, file_count, dir_count.
      cbn [fst snd total_size foldr filter list_filter].
      unfold is_file_at, is_dir_at. rewrite Hn, Hf. cbn [negb].
      rewrite decide_False by done. rewrite decide_True by done.
      rewrite wrap_add_l. cbn [length].
      by rewrite Nat2N.inj_succ, <- N.add_1_l, N.add_assoc.
    + eapply Forall2_impl; [exact Hb|]. intros kc l Hkc acc Hacc.
      by apply IH.
    + repeat split; cbn; [done|apply wrap_lt|done].
Qed.

Lemma first_named_cons (h : heap) (nm : string) (q : ptr) (l : list ptr) :
  first_named h nm (q :: l)
  = if decide (name <$> h !! q = Some nm) then Some q
    else first_named h nm l.
Proof. unfold first_named. rewrite filter_cons. by case_decide. Qed.

Lemma first_named_app (h : heap) (nm : string) (l1 l2 : list ptr) :
  first_named h nm (l1 ++ l2)
  = match first_named h nm l1 with
    | Some q => Some q
    | None => first_named h nm l2
    end.
Proof.
  induction l1 as [|q l1 IH]; [done|].
  rewrite <- app_comm_cons, !first_named_cons. by case_decide.
Qed.

Lemma findNode_loop_spec (rec : option ptr -> M heap (option ptr))
    (h : heap) (nm : string) (kids : list (string * option ptr))
    (ls : list (list ptr)) :
  Forall2 (fun kc l => rec kc.2 h = Ret (first_named h nm l) h) kids ls ->
  findNode_loop rec kids h = Ret (first_named h nm (concat ls)) h.
Proof.
  induction 1 as [|kc l kids ls Hkc _ IH]; [done|].
  cbn [findNode_loop concat]. unfold bind at 1. rewrite Hkc.
  rewrite first_named_app. by destruct (first_named h nm l).
Qed.

(** [findNodeRecursive] returns the first node of the pre-order listing
    whose name is the query, and writes nothing. *)
Lemma findNodeRecursive_rec_spec (f : nat) (nm : string) :
  forall node h l, preorder f h node = Some l ->
    findNodeRecursive_rec f node nm h = Ret (first_named h nm l) h.
Proof.
  induction f as [|f IH]; intros node h l Hl; [done|].
  cbn [preorder findNodeRecursive_rec] in *.
  destruct node as [p|]; [|by injection Hl as <-].
  unfold bind at 1, load.
  destruct (h !! p) as [n|] eqn:Hn; [|done]. cbn in Hl.
  destruct (mapM _ _) as [below|] eqn:Hb; [|done]. cbn in Hl.
  injection Hl as <-. rewrite first_named_cons, Hn. cbn [fmap option_fmap option_map].
  destruct (String.eqb_spec (name n) nm) as [->|Hne].
  - by rewrite decide_True.
  - rewrite decide_False by congruence.
    apply findNode_loop_spec. apply mapM_Some_1 in Hb.
    eapply Forall2_impl; [exact Hb|]. intros kc l Hkc. by apply IH.
Qed.

Lemma elem_of_concat {A} (x : A) (ls : list (list A)) :
  x ∈ concat ls <-> exists l, x ∈ l /\ l ∈ ls.
Proof.
  rewrite list_elem_of_In, in_concat. split.
  - intros (l & Hl & Hx). exists l. by rewrite !list_elem_of_In.
  - intros (l & Hx & Hl). exists l. by rewrite <- !list_elem_of_In.
Qed.

(** The pre-order listing holds exactly the nodes of the tree. *)
Lemma preorder_reach (f : nat) :
  forall p h l, preorder f h (Some p) = Some l ->
    forall q, q ∈ l <-> reach h p q.
Proof.
  induction f as [|f IH]; intros p h l Hl q; [done|].
  cbn [preorder] in Hl.
  destruct (h !! p) as [n|] eqn:Hn; [|done]. cbn in Hl.
  destruct (mapM _ _) as [below|] eqn:Hb; [|done]. cbn in Hl.
  injection Hl as <-. apply mapM_Some_1 in Hb.
  rewrite elem_of_cons, elem_of_concat. split.
  - intros [->|(lc & Hq & Hlc)]; [constructor|].
    apply list_elem_of_lookup in Hlc as [i Hi].
    destruct (Forall2_lookup_r _ _ _ _ _ Hb Hi) as ([k v] & Hkv & Hpre).
    cbn in Hpre. destruct v as [c|].
    + eapply reach_child; [exact Hn| |by eapply IH].
      eapply elem_of_map_items, list_elem_of_lookup_2, Hkv.
    + destruct f; [done|]. cbn in Hpre. injection Hpre as <-.
      by apply elem_of_nil in Hq.
  - intros Hr. inversion Hr as [|p' n' k c q' Hn' Hk Hc]; subst; [by left|].
    right. assert (n' = n) as -> by congruence.
    apply elem_of_map_items, list_elem_of_lookup in Hk as [i Hi].
    destruct (Forall2_lookup_l _ _ _ _ _ Hb Hi) as (lc & Hlc & Hpre).
    exists lc. split; [by eapply IH|]. by eapply list_elem_of_lookup_2.
Qed.

(** C9. [getTreeStats] on a tree without root returns [(0, 0, 0)]. On a
    tree with a root it returns, from one pass over the nodes of the tree
    in pre-order, the number of file nodes, the number of directory
    nodes (the ones without children included) and the sum of [fileSize]
    over the file nodes; directory nodes add nothing to the size. The
    three counters are [size_t]: each is the number reduced modulo
    [2^64], which is the number itself below [2^64]. Nothing is
    written. *)
Theorem getTreeStats_counts (h : heap) (t : MerkleTree) :
  heap_ok h = true ->
  (root t = None -> getTreeStats (h, t) = Ret (0, 0, 0)%N (h, t))
  /\ (forall r, root t = Some r -> r < length h ->
        exists l,
          preorder (S (length h)) h (Some r) = Some l
          /\ (forall q, q ∈ l <-> reach h r q)
          /\ getTreeStats (h, t)
             = Ret (wrap (file_count h l), wrap (dir_count h l),
                    wrap (total_size h l)) (h, t)
          /\ ((file_count h l < size_t_modulus)%N ->
              (dir_count h l < size_t_modulus)%N ->
              (total_size h l < size_t_modulus)%N ->
              getTreeStats (h, t)
              = Ret (file_count h l, dir_count h l, total_size h l) (h, t))).
Proof.
  intros Hok. split.
  - intros Hr. unfold getTreeStats, bind, this_tree. cbn. by rewrite Hr.
  - intros r Hr Hlen.
    destruct (preorder_total (S (length h)) r h Hok Hlen ltac:(lia))
      as [l Hl].
    exists l. split; [done|]. split; [by eapply preorder_reach|].
    assert (Hrun : getTreeStats (h, t)
      = Ret (wrap (file_count h l), wrap (dir_count h l),
             wrap (total_size h l)) (h, t)).
    { unfold getTreeStats, bind, this_tree. cbn [fst snd]. rewrite Hr.
      unfold lift, calculateStatsRecursive. cbn [fst snd]. rewrite <- Hr.
      rewrite (calculateStatsRecursive_rec_spec _ _ h l); try done.
      by rewrite Hr. }
    split; [done|]. intros H1 H2 H3. rewrite Hrun.
    by rewrite !wrap_small.
Qed.

(** C10. [findNode] on a tree without root returns null. On a tree with
    a root it searches the nodes in pre-order, a node before its
    children and the children of a node in increasing order of name, and
    returns the first node whose name equals the query, or null when no
    node has that name. Nothing is written. *)
Theorem findNode_first_match (h : heap) (t : MerkleTree) (nm : string) :
  heap_ok h = true ->
  (root t = None -> findNode nm (h, t) = Ret None (h, t))
  /\ (forall r, root t = Some r -> r < length h ->
        exists l,
          preorder (S (length h)) h (Some r) = Some l
          /\ (forall q, q ∈ l <-> reach h r q)
          /\ findNode nm (h, t) = Ret (first_named h nm l) (h, t)
          /\ (forall q, first_named h nm l = Some q ->
                exists i, l !! i = Some q
                  /\ name <$> h !! q = Some nm
                  /\ forall j q', j < i -> l !! j = Some q' ->
                       name <$> h !! q' <> Some nm)
          /\ (first_named h nm l = None ->
                forall q, q ∈ l -> name <$> h !! q <> Some nm)).
Proof.
  intros Hok. split.
  - intros Hr. unfold findNode, bind, this_tree. cbn. by rewrite Hr.
  - intros r Hr Hlen.
    destruct (preorder_total (S (length h)) r h Hok Hlen ltac:(lia))
      as [l Hl].
    exists l. split; [done|]. split; [by eapply preorder_reach|]. split.
    { unfold findNode, bind, this_tree. cbn [fst snd]. rewrite Hr.
      unfold lift, findNodeRecursive. cbn [fst snd]. rewrite <- Hr.
      rewrite (findNodeRecursive_rec_spec _ nm _ h l); [done|].
      by rewrite Hr. }
    clear Hl. split.
    + induction l as [|q0 l IH]; intros q Hq; [done|].
      rewrite first_named_cons in Hq. case_decide as Hd.
      * injection Hq as <-. exists 0. split; [done|]. split; [done|].
        intros j q' Hj. lia.
      * destruct (IH q Hq) as (i & Hi & Hnm & Hbefore).
        exists (S i). split; [done|]. split; [done|].
        intros [|j] q' Hj Hq'; [by injection Hq' as <-|].
        apply (Hbefore j); [lia|done].
    + induction l as [|q0 l IH]; intros Hnone q Hq.
      { by apply elem_of_nil in Hq. }
      rewrite first_named_cons in Hnone. case_decide as Hd; [done|].
      apply elem_of_cons in Hq as [->|Hq]; [done|]. by apply IH.
Qed.

Lemma nodeToJson_loop_frame (rec : option ptr -> M heap string) (p : ptr)
    (h : heap) (n : MerkleNode) :
  h !! p = Some n ->
  forall names ss,
    Forall (fun k => exists v, children n !! k = Some v
                       /\ exists text, rec v h = Ret text h) names ->
    exists s, nodeToJson_loop rec p names ss h = Ret s h.
Proof.
  intros Hn. induction names as [|k names IH]; intros ss Hall.
  - by exists ss.
  - apply Forall_cons in Hall as [(v & Hk & text & Hv) Hall].
    cbn [nodeToJson_loop]. unfold bind at 1, load. rewrite Hn.
    rewrite (map_subscript_present None v) by done.
    unfold bind at 1, modify. rewrite Hn.
    rewrite set_children_id, list_insert_id by done.
    unfold bind at 1. rewrite Hv. apply IH, Hall.
Qed.

(** [nodeToJson] returns and writes nothing. *)
Lemma nodeToJson_rec_frame (f : nat) :
  forall p depth h, heap_ok h = true -> p < length h -> length h - p < f ->
    exists s, nodeToJson_rec f (Some p) depth h = Ret s h.
Proof.
  induction f as [|f IH]; intros p depth h Hok Hp Hf; [lia|].
  destruct (lookup_lt_is_Some_2 h p Hp) as [n Hn].
  cbn [nodeToJson_rec]. unfold bind at 1, load. rewrite Hn.
  destruct (isFile n); [by eexists|].
  case_decide; [by eexists|].
  assert (Hloop : forall ss, exists s,
    nodeToJson_loop (fun c => nodeToJson_rec f c (depth + 2)) p
      (sort (map_keys (children n))) ss h = Ret s h).
  { intros ss. apply (nodeToJson_loop_frame _ p h n Hn).
    apply Forall_forall. intros k Hk. rewrite sort_map_keys in Hk.
    apply elem_of_map_keys in Hk as [v Hv]. exists v. split; [done|].
    destruct (heap_ok_child h p n k v Hok Hn Hv) as (c & -> & ? & ?).
    apply IH; [done|done|lia]. }
  unfold bind.
  match goal with
  | |- context [nodeToJson_loop _ _ _ ?ss h] =>
      destruct (Hloop ss) as [s ->]
  end.
  by eexists.
Qed.

Lemma exportToJson_frame (h : heap) (t : MerkleTree) :
  heap_ok h = true -> (forall r, root t = Some r -> r < length h) ->
  exists s, exportToJson (h, t) = Ret s (h, t).
Proof.
  intros Hok Hr. unfold exportToJson, bind at 1, this_tree. cbn [fst snd].
  destruct (root t) as [r|] eqn:Hroot; [|by eexists].
  destruct (nodeToJson_rec_frame (S (length h)) r 1 h Hok (Hr r eq_refl)
              ltac:(lia)) as [s Hs].
  unfold bind, lift, nodeToJson. cbn [fst snd]. rewrite Hs. by eexists.
Qed.

End Traversals.

Section Determinism.

Context (sha256 : string -> string).

(** ** Determinism *)

Lemma fs_same_nested_ind (P : FsEntry -> FsEntry -> Prop) :
  (forall nm, P (FsMissing nm) (FsMissing nm)) ->
  (forall nm content size readable,
     P (FsFile nm content size readable)
       (FsFile nm content size readable)) ->
  (forall nm, P (FsOther nm) (FsOther nm)) ->
  (forall nm es es' es'' ok,
     Forall2 (fun a b => fs_same a b /\ P a b) es es' -> es' ≡ₚ es'' ->
     P (FsDir nm es ok) (FsDir nm es'' ok)) ->
  forall e e', fs_same e e' -> P e e'.
Proof.
  intros Hm Hf Ho Hd. fix IH 3. intros e e' H.
  destruct H as [nm|nm c sz r|nm|nm es es' es'' ok Hes Hperm].
  - apply Hm.
  - apply Hf.
  - apply Ho.
  - apply (Hd nm es es' es'' ok); [|done].
    clear Hperm. induction Hes as [|a b l l' Hab _ IHl]; [constructor|].
    constructor; [|done]. split; [done | by apply IH].
Qed.

Lemma fs_unique_dir (nm : string) (es : list FsEntry) (ok : bool) :
  fs_unique (FsDir nm es ok)
  <-> NoDup (fs_filename <$> es) /\ Forall fs_unique es.
Proof.
  cbn [fs_unique]. split; intros [Hn Hu]; (split; [done|]).
  - induction es as [|e es IH]; [constructor|].
    cbn in Hu. destruct Hu as [He Hes]. apply NoDup_cons in Hn as [_ Hn].
    constructor; [done | by apply IH].
  - clear Hn. induction Hu as [|e es He _ IH]; cbn; [done|]. done.
Qed.

Lemma fs_add_kid_perm (es es' : list FsEntry) :
  es ≡ₚ es' -> NoDup (fs_filename <$> es) ->
  forall m, foldl (fs_add_kid sha256) m es = foldl (fs_add_kid sha256) m es'.
Proof.
  induction 1 as [|x l l' _ IH|x y l|l l' l'' H1 IH1 H2 IH2];
    intros Hn m.
  - done.
  - cbn. apply IH. by apply NoDup_cons in Hn as [_ ?].
  - cbn. f_equal. cbn in Hn.
    apply NoDup_cons in Hn as [Hy _].
    assert (Hne : fs_filename y <> fs_filename x).
    { intros E. apply Hy. rewrite E. by left. }
    unfold fs_add_kid.
    destruct (fs_hash sha256 x), (fs_hash sha256 y); try done.
    by apply insert_insert_ne.
  - rewrite IH1 by done. apply IH2. by rewrite <- H1.
Qed.

(** Listing the directories in another order changes neither what can be
    built nor its hash. *)
Lemma fs_hash_same (e e' : FsEntry) :
  fs_same e e' -> fs_unique e ->
  fs_hash sha256 e = fs_hash sha256 e' /\ fs_filename e = fs_filename e'.
Proof.
  intros H. induction H as [nm|nm c r|nm|nm es es' es'' ok Hes Hperm]
    using fs_same_nested_ind; intros Hu; try done.
  apply fs_unique_dir in Hu as [Hn Hu]. split; [|done].
  rewrite !fs_hash_dir. destruct ok; [|done].
  assert (Hnames : fs_filename <$> es = fs_filename <$> es').
  { clear Hn Hperm. induction Hes as [|a b l l' [_ Hab] _ IH]; [done|].
    apply Forall_cons in Hu as [Ha Hu]. cbn.
    rewrite (proj2 (Hab Ha)), IH by done. done. }
  assert (Hk : forall m, foldl (fs_add_kid sha256) m es
                       = foldl (fs_add_kid sha256) m es').
  { clear Hn Hperm Hnames.
    induction Hes as [|a b l l' [_ Hab] _ IH]; intros m; [done|].
    apply Forall_cons in Hu as [Ha Hu]. cbn.
    destruct (Hab Ha) as [Hh Hnm]. unfold fs_add_kid at 2 4.
    rewrite Hh, Hnm. by apply IH. }
  rewrite Hk. rewrite (fs_add_kid_perm es' es'' Hperm) by (by rewrite <- Hnames).
  done.
Qed.

(** C4. Two builds over the same directory contents, names unique among
    the entries of each directory, give the same root hash, in whatever
    order the entries of each directory are reported and so attached with
    [addChild], from whatever state each build starts and whatever its
    chunk size. *)
Theorem build_tree_deterministic (fsys1 fsys2 : filesystem)
    (path1 path2 : string) (w1 w2 w1' : world) (r1 : option ptr) :
  (0 < CHUNK_SIZE w1.2)%N -> heap_ok w1.1 = true ->
  (0 < CHUNK_SIZE w2.2)%N -> heap_ok w2.1 = true ->
  fs_same (fsys1 path1) (fsys2 path2) ->
  fs_unique (fsys1 path1) ->
  build_tree sha256 fsys1 path1 w1 = Ret r1 w1' ->
  exists p1 p2 w2' v,
    r1 = Some p1
    /\ build_tree sha256 fsys2 path2 w2 = Ret (Some p2) w2'
    /\ hash <$> w1'.1 !! p1 = Some v
    /\ hash <$> w2'.1 !! p2 = Some v.
Proof.
  destruct w1 as [h1 t1], w2 as [h2 t2], w1' as [h1' t1']. cbn [fst snd].
  intros Hc1' Hok1 Hc2' Hok2 Hsame Hu Hret.
  assert (Hc1 : 0 < N.to_nat (CHUNK_SIZE t1)) by lia.
  assert (Hc2 : 0 < N.to_nat (CHUNK_SIZE t2)) by lia.
  destruct (fs_hash_same _ _ Hsame Hu) as [Hh _].
  pose proof (build_tree_run sha256 fsys1 path1 h1 t1 Hc1 Hok1) as Hrun1.
  pose proof (build_tree_run sha256 fsys2 path2 h2 t2 Hc2 Hok2) as Hrun2.
  rewrite Hret in Hrun1.
  inversion Hsame as [nm E1 E2|nm c sz r E1 E2|nm E1 E2
                     |nm es es' es'' ok Hes Hperm E1 E2];
    rewrite <- E1 in Hrun1; try done.
  rewrite <- E2 in Hrun2. rewrite <- E1, <- E2 in Hh.
  destruct Hrun1 as (ext1 & fo1 & _ & _ & _ & Hout1).
  destruct Hrun2 as (ext2 & fo2 & _ & _ & _ & Hout2).
  destruct ok; [|done].
  destruct Hout1 as (v1 & h1'' & Hv1 & _ & _ & Hst1 & Heq1).
  destruct Hout2 as (v2 & h2' & Hv2 & _ & _ & Hst2 & Heq2).
  injection Heq1 as -> -> ->.
  rewrite E1 in Hv1. rewrite E2 in Hv2.
  assert (v2 = v1) as -> by congruence.
  eexists (length h1), (length h2), _, v1. done.
Qed.

End Determinism.

Section NodeOperations.

(** ** [addChild] *)

Lemma addChild_run (h : heap) (this c : ptr) (n cn : MerkleNode) :
  h !! this = Some n -> isFile n = false -> h !! c = Some cn ->
  addChild this (Some c) h
  = Ret tt (<[this := set_cachedDepth (-1)
                        (set_children (<[name cn := Some c]> (children n)) n)]>
              h).
Proof.
  intros Hn Hf Hc. unfold addChild, bind, load, modify, throw.
  by rewrite Hn, Hf, Hc, Hn.
Qed.

(** X1. [addChild] on a file node throws whatever the child is, and a null
    child is refused by a directory node; in both cases nothing is
    changed. *)
Theorem addChild_rejects (h : heap) (this : ptr) (n : MerkleNode)
    (child : option ptr) :
  h !! this = Some n ->
  (isFile n = true -> addChild this child h = Throw AddChildToFileNode h)
  /\ (isFile n = false -> child = None ->
      addChild this child h = Throw AddNullChild h).
Proof.
  intros Hn. unfold addChild, bind, load, throw. rewrite Hn. split.
  - by intros ->.
  - by intros -> ->.
Qed.

(** X2. [addChild] of a live node to a directory node returns; afterwards
    the child is found under its own name, the other children are the
    same, the cached depth of the parent is unset and nothing else in the
    parent or in any other node has changed. *)
Theorem addChild_attaches (h : heap) (this c : ptr) (n cn : MerkleNode) :
  h !! this = Some n -> isFile n = false -> h !! c = Some cn ->
  exists h' n',
    addChild this (Some c) h = Ret tt h'
    /\ length h' = length h
    /\ (forall q, q <> this -> h' !! q = h !! q)
    /\ h' !! this = Some n'
    /\ children n' !! name cn = Some (Some c)
    /\ (forall k, k <> name cn -> children n' !! k = children n !! k)
    /\ cachedDepth n' = (-1)%Z
    /\ set_cachedDepth 0 (set_children ∅ n')
       = set_cachedDepth 0 (set_children ∅ n).
Proof.
  intros Hn Hf Hc. eexists _, _. split; [by apply addChild_run|].
  split; [by rewrite length_insert|].
  split; [intros q Hq; by rewrite list_lookup_insert_ne|].
  split; [apply list_lookup_insert_eq; by eapply lookup_lt_Some|].
  cbn. split; [by rewrite lookup_insert_eq|].
  split; [intros k Hk; by rewrite lookup_insert_ne|]. done.
Qed.

(** X3. Children of different names can be added in either order: the heap
    is the same. *)
Theorem addChild_commutes (h : heap) (this c1 c2 : ptr)
    (n n1 n2 : MerkleNode) :
  h !! this = Some n -> isFile n = false ->
  h !! c1 = Some n1 -> h !! c2 = Some n2 -> name n1 <> name n2 ->
  exists h',
    (addChild this (Some c1) ;;; addChild this (Some c2)) h = Ret tt h'
    /\ (addChild this (Some c2) ;;; addChild this (Some c1)) h = Ret tt h'.
Proof.
  intros Hn Hf H1 H2 Hne.
  assert (Hlt : this < length h) by (by eapply lookup_lt_Some).
  assert (Hstep : forall (ca cb : ptr) (na nb : MerkleNode),
            h !! ca = Some na -> h !! cb = Some nb ->
            (addChild this (Some ca) ;;; addChild this (Some cb)) h
            = Ret tt (<[this := set_cachedDepth (-1)
                         (set_children
                            (<[name nb := Some cb]>
                               (<[name na := Some ca]> (children n))) n)]> h)).
  { intros ca cb na nb Ha Hb. unfold bind at 1.
    rewrite (addChild_run h this ca n na Hn Hf Ha).
    set (n' := set_cachedDepth _ _).
    assert (Hb' : exists nb', <[this := n']> h !! cb = Some nb'
                              /\ name nb' = name nb).
    { destruct (decide (cb = this)) as [->|Hd].
      - rewrite list_lookup_insert_eq by done. exists n'. split; [done|].
        cbn. congruence.
      - rewrite list_lookup_insert_ne by done. by exists nb. }
    destruct Hb' as (nb' & Hb' & Hnm).
    rewrite (addChild_run _ this cb n' nb'); [|by apply list_lookup_insert_eq
                                               |done|done].
    by rewrite list_insert_insert_eq, Hnm. }
  eexists. split; [by apply Hstep|].
  rewrite (Hstep c2 c1 n2 n1 H2 H1). by rewrite insert_insert_ne.
Qed.


(** ** The chunk size *)

(** X5. The constructor with a chunk size accepts exactly the sizes from
    1024 to 104857600 bytes, the ones [setChunkSize] accepts, and then
    builds an empty tree with that chunk size; the default constructor
    builds the empty tree with a chunk size of 1048576 bytes. *)
Theorem new_tree_sized_bounds (chunkSize : N) (w : world) :
  ((1024 <= chunkSize <= 104857600)%N ->
     new_tree_sized chunkSize = inr (mkTree None ∅ [] chunkSize)
     /\ setChunkSize chunkSize w
        = Ret tt (w.1, set_CHUNK_SIZE chunkSize w.2))
  /\ (~ (1024 <= chunkSize <= 104857600)%N ->
        new_tree_sized chunkSize = inl InvalidChunkSize
        /\ setChunkSize chunkSize w = Throw InvalidChunkSize w)
  /\ new_tree_sized 1048576 = inr new_tree.
Proof.
  unfold new_tree_sized, setChunkSize, modify_tree, throw.
  pose proof chunk_bounds_values as (-> & -> & _).
  split; [|split; [|done]].
  - intros [H1 H2].
    assert ((chunkSize <? 1024)%N = false) as -> by (apply N.ltb_ge; lia).
    assert ((104857600 <? chunkSize)%N = false) as ->
      by (apply N.ltb_ge; lia).
    done.
  - intros Hn.
    destruct (chunkSize <? 1024)%N eqn:E1; [done|].
    destruct (104857600 <? chunkSize)%N eqn:E2; [done|].
    apply N.ltb_ge in E1, E2. lia.
Qed.

(** X6. After a [setChunkSize] that returns, [getChunkSize] gives the size
    that was set; the nodes, the root, the content index and the registry
    are as before. *)
Theorem setChunkSize_getChunkSize (chunkSize : N) (w w' : world) :
  setChunkSize chunkSize w = Ret tt w' ->
  getChunkSize w' = Ret chunkSize w'
  /\ w'.1 = w.1 /\ root w'.2 = root w.2
  /\ file_objects w'.2 = file_objects w.2 /\ nodes w'.2 = nodes w.2.
Proof.
  unfold setChunkSize, getChunkSize, modify_tree, throw, bind, this_tree, ret.
  destruct (_ || _); [done|]. intros [= <-]. done.
Qed.

End NodeOperations.

Section Recomputation.

Context (sha256 : string -> string).

(** ** What [calculateHash] and [verifyTreeIntegrity] write *)

(** [calculateHash] at [p] leaves the nodes outside the tree under [p]
    alone. *)
Lemma calculateHash_rec_unreached (f : nat) :
  forall p h r h', calculateHash_rec sha256 f p h = Ret r h' ->
    forall q, ~ reach h p q -> h' !! q = h !! q.
Proof.
  induction f as [|f IH]; intros p h r h' Hrun q Hq; [done|].
  assert (Hqp : q <> p) by (intros ->; apply Hq, reach_here).
  apply calculateHash_rec_cases in Hrun
    as (n & Hp & [[-> _]|(Hfile & Hne & comb & h1 & n1 & Hloop & Hp1 & -> & ->)]).
  { by rewrite list_lookup_insert_ne. }
  rewrite list_lookup_insert_ne by done.
  assert (Hl : forall names combined h0 r0 h2,
    erase h0 = erase h ->
    calculateHash_loop (calculateHash_rec sha256 f) p names combined h0
    = Ret r0 h2 -> erase h2 = erase h /\ h2 !! q = h0 !! q).
  { induction names as [|k names IHn]; intros combined h0 r0 h2 E0 Hrun.
    - by injection Hrun as <- <-.
    - apply calculateHash_loop_step in Hrun
        as (n0 & c & ch & h3 & Hp0 & Hk & Hc & Hrest).
      pose proof (calculateHash_rec_spec sha256 _ _ _ _ _ Hc) as [_ E3].
      destruct (IHn _ h3 _ _ ltac:(congruence) Hrest) as [E2 L2].
      split; [done|]. rewrite L2. eapply IH; [exact Hc|].
      intros Hr. apply Hq.
      destruct (erase_eq_lookup h0 h p n0 ltac:(done) Hp0)
        as (n' & Hn' & Hnn).
      assert (n' = n) as -> by congruence.
      eapply reach_child; [exact Hp| |].
      + rewrite Hnn. cbn. exact Hk.
      + eapply reach_erase; [|exact Hr]. done. }
  by destruct (Hl _ _ _ _ _ eq_refl Hloop) as [_ ->].
Qed.

(** Two heaps that differ in [hash] fields only, and hold the Merkle
    hashes in the same places, are equal there. *)
Lemma consistent_unique (h h' : heap) (q : ptr) :
  erase h' = erase h ->
  consistent sha256 h q -> consistent sha256 h' q -> h' !! q = h !! q.
Proof.
  intros E (n & Hn & Hm) (n' & Hn' & Hm').
  rewrite (merkle_hash_erase_eq sha256 _ h h') in Hm' by done.
  rewrite (erase_eq_length _ _ E) in Hm'.
  destruct (erase_eq_lookup h h' q n E Hn) as (n2 & Hn2 & Hnn).
  assert (n2 = n') as -> by congruence.
  rewrite Hn, Hn'. f_equal. rewrite Hnn.
  assert (hash n' = hash n) as -> by congruence.
  apply set_hash_id.
Qed.

(** X7. [calculateHash] changes [hash] fields only, and only of the nodes
    of the tree under the node it is called on. *)
Theorem calculateHash_frame (h h' : heap) (p : ptr) (r : string) :
  calculateHash sha256 p h = Ret r h' ->
  erase h' = erase h
  /\ length h' = length h
  /\ (forall q, ~ reach h p q -> h' !! q = h !! q).
Proof.
  unfold calculateHash. intros Hrun.
  pose proof (calculateHash_rec_spec sha256 _ _ _ _ _ Hrun) as [_ E].
  split; [done|]. split; [by apply erase_eq_length|].
  by eapply calculateHash_rec_unreached.
Qed.

(** X8. A second [calculateHash] returns the same hash as the first and
    changes nothing: after the first every node under [p] holds its
    Merkle hash. *)
Theorem calculateHash_idempotent (h : heap) (p : ptr) (n : MerkleNode) :
  heap_ok h = true -> h !! p = Some n ->
  exists r h',
    calculateHash sha256 p h = Ret r h'
    /\ calculateHash sha256 p h' = Ret r h'.
Proof.
  intros Hok Hp.
  destruct (calculateHash_run sha256 h p n Hok Hp)
    as (r & h' & Hrun & Hm & Hst & E).
  exists r, h'. split; [done|].
  assert (Hok' : heap_ok h' = true) by (by rewrite (heap_ok_erase_eq _ _ E)).
  destruct (erase_eq_lookup h h' p n E Hp) as (n' & Hp' & _).
  destruct (calculateHash_run sha256 h' p n' Hok' Hp')
    as (r2 & h2 & Hrun2 & Hm2 & _ & _).
  assert (Hcons : forall q, reach h' p q -> consistent sha256 h' q).
  { intros q Hq. unfold calculateHash in Hrun.
    eapply (calculateHash_rec_consistent sha256); [exact Hok|exact Hrun|done|].
    eapply reach_erase; [|exact Hq]. done. }
  unfold calculateHash in Hrun2.
  destruct (calculateHash_rec_stable sha256 _ _ _ _ _ Hcons Hrun2 ltac:(done))
    as [-> Hr2].
  unfold calculateHash. rewrite Hrun2. f_equal. congruence.
Qed.

Lemma reach_dec (h : heap) (p q : ptr) :
  heap_ok h = true -> p < length h -> reach h p q \/ ~ reach h p q.
Proof.
  intros Hok Hp.
  destruct (preorder_total (S (length h)) p h Hok Hp ltac:(lia)) as [l Hl].
  pose proof (preorder_reach _ _ _ _ Hl q) as Hq.
  destruct (decide (q ∈ l)) as [Hin|Hin]; [left|right]; by rewrite <- Hq.
Qed.

(** The heap [calculateHash] leaves when some [hash] fields of a tree
    that held its Merkle hashes have been overwritten: the tree as it
    was. *)
Lemma calculateHash_restores (h ht : heap) (p : ptr) (r : string)
    (h' : heap) :
  heap_ok h = true ->
  (forall q, reach h p q -> consistent sha256 h q) ->
  erase ht = erase h -> (forall q, ~ reach h p q -> ht !! q = h !! q) ->
  calculateHash sha256 p ht = Ret r h' ->
  h' = h.
Proof.
  intros Hok Hcons E Hout Hrun.
  assert (Hokt : heap_ok ht = true) by (by rewrite (heap_ok_erase_eq _ _ E)).
  unfold calculateHash in Hrun.
  pose proof (calculateHash_rec_spec sha256 _ _ _ _ _ Hrun) as [_ E'].
  assert (Hp : p < length h).
  { destruct (Hcons p (reach_here h p)) as (n0 & Hn0 & _).
    by eapply lookup_lt_Some. }
  apply list_eq. intros q. destruct (reach_dec h p q Hok Hp) as [Hq|Hq].
  - apply consistent_unique; [congruence|by apply Hcons|].
    eapply (calculateHash_rec_consistent sha256); [exact Hokt|exact Hrun|done|].
    eapply reach_erase; [|exact Hq]. done.
  - rewrite <- (Hout q Hq).
    eapply calculateHash_rec_unreached; [exact Hrun|].
    intros Hr. apply Hq. eapply reach_erase; [|exact Hr]. done.
Qed.

(** X9. However many [hash] fields of a tree that held its Merkle hashes
    have been overwritten, the answer of [verifyTreeIntegrity] depends
    on the stored hash of the root alone: [true] exactly when that one
    is still the hash of the root. Whatever the answer, the call leaves
    the tree with every overwritten field restored. *)
Theorem verifyTreeIntegrity_root_alone (h ht : heap) (t : MerkleTree)
    (p : ptr) (n nt : MerkleNode) :
  heap_ok h = true -> root t = Some p ->
  (forall q, reach h p q -> consistent sha256 h q) ->
  erase ht = erase h -> (forall q, ~ reach h p q -> ht !! q = h !! q) ->
  h !! p = Some n -> ht !! p = Some nt ->
  verifyTreeIntegrity sha256 (ht, t)
  = Ret (String.eqb (hash nt) (hash n)) (h, t)
  /\ verifyTreeIntegrity sha256 (h, t) = Ret true (h, t).
Proof.
  intros Hok Hroot Hcons E Hout Hp Hpt.
  assert (Hokt : heap_ok ht = true) by (by rewrite (heap_ok_erase_eq _ _ E)).
  assert (Hone : forall hx nx, heap_ok hx = true -> erase hx = erase h ->
            (forall q, ~ reach h p q -> hx !! q = h !! q) ->
            hx !! p = Some nx ->
            verifyTreeIntegrity sha256 (hx, t)
            = Ret (String.eqb (hash nx) (hash n)) (h, t)).
  { intros hx nx Hokx Ex Houtx Hpx.
    destruct (verifyNodeIntegrity_root_only sha256 hx p nx Hokx Hpx)
      as (r & h' & Hrun & Hver).
    assert (h' = h) as ->
      by (by eapply (calculateHash_restores h hx p r h')).
    assert (r = hash n) as ->.
    { unfold calculateHash in Hrun.
      apply calculateHash_rec_spec in Hrun as [Hm _].
      rewrite (merkle_hash_erase_eq sha256 _ h hx) in Hm by done.
      rewrite (erase_eq_length _ _ Ex) in Hm.
      destruct (Hcons p (reach_here h p)) as (n0 & Hn0 & Hm0).
      congruence. }
    unfold verifyTreeIntegrity, bind, this_tree, lift. cbn [fst snd].
    rewrite Hroot. cbn [fst snd]. by rewrite Hver. }
  split; [by apply Hone|].
  rewrite (Hone h n Hok eq_refl ltac:(done) Hp).
  by rewrite String.eqb_refl.
Qed.

End Recomputation.

Section NodeQueries.

(** ** [getFileCount] and [getTotalSize] *)

Lemma wrap_add_r (a b : N) : wrap (a + wrap b) = wrap (a + b).
Proof. by rewrite N.add_comm, wrap_add_l, N.add_comm. Qed.

(** The loop adds up, modulo [2^64], what the calls on the children
    return. *)
Lemma sum_loop_spec (F : list ptr -> N) (rec : ptr -> M heap N) (h : heap)
    (kids : list (string * option ptr)) (ls : list (list ptr)) :
  F [] = 0%N ->
  (forall l1 l2, F (l1 ++ l2) = (F l1 + F l2)%N) ->
  Forall2 (fun kc l => exists c, kc.2 = Some c
                        /\ rec c h = Ret (wrap (F l)) h) kids ls ->
  forall total, (total < size_t_modulus)%N ->
    sum_loop rec kids total h = Ret (wrap (total + F (concat ls))) h.
Proof.
  intros F0 Fapp. induction 1 as [|kc l kids ls (c & Hc & Hrun) _ IH];
    intros total Ht.
  - cbn. unfold ret. by rewrite F0, N.add_0_r, wrap_small.
  - cbn [sum_loop concat]. rewrite Hc. unfold bind at 1. rewrite Hrun.
    rewrite IH by apply wrap_lt. rewrite wrap_add_l, Fapp.
    replace (total + wrap (F l) + F (concat ls))%N
      with (total + F (concat ls) + wrap (F l))%N by lia.
    rewrite wrap_add_r. f_equal. f_equal. lia.
Qed.

(** The children of a node of a well-formed heap, against the pre-order
    listings below it. *)
Lemma preorder_children (f : nat) (h : heap) (p : ptr) (n : MerkleNode)
    (below : list (list ptr)) :
  heap_ok h = true -> h !! p = Some n ->
  mapM (fun kc : string * option ptr => preorder f h kc.2)
       (map_items (children n)) = Some below ->
  Forall2 (fun kc l => exists c, kc.2 = Some c
                        /\ preorder f h (Some c) = Some l)
          (map_items (children n)) below.
Proof.
  intros Hok Hn Hb. apply mapM_Some_1 in Hb.
  assert (Hall : Forall (fun kc : string * option ptr =>
                           exists c, kc.2 = Some c) (map_items (children n))).
  { apply Forall_forall. intros [k v] Hin. apply elem_of_map_items in Hin.
    destruct (heap_ok_child h p n k v Hok Hn Hin) as (c & -> & _).
    by exists c. }
  induction Hb as [|kc l kids ls Hkc _ IH]; [constructor|].
  apply Forall_cons in Hall as [[c Hc] Hall].
  constructor; [|by apply IH]. exists c. split; [done|]. by rewrite <- Hc.
Qed.

Lemma getFileCount_rec_spec (f : nat) :
  forall p h l, heap_ok h = true -> preorder f h (Some p) = Some l ->
    getFileCount_rec f p h = Ret (wrap (file_count h l)) h.
Proof.
  induction f as [|f IH]; intros p h l Hok Hl; [done|].
  cbn [preorder getFileCount_rec] in *. unfold bind at 1, load.
  destruct (h !! p) as [n|] eqn:Hn; [|done]. cbn in Hl.
  destruct (mapM _ _) as [below|] eqn:Hb; [|done]. cbn in Hl.
  injection Hl as <-.
  assert (Hhead : forall rest, file_count h (p :: rest)
            = ((if isFile n then 1 else 0) + file_count h rest)%N).
  { intros rest. unfold file_count. rewrite filter_cons.
    assert (Hat : is_file_at h p = isFile n)
      by (unfold is_file_at; by rewrite Hn).
    destruct (isFile n).
    - rewrite decide_True by done. cbn [length]. lia.
    - rewrite decide_False by (by rewrite Hat). lia. }
  rewrite Hhead. destruct (isFile n) eqn:Hf.
  - rewrite (heap_ok_file h p n Hok Hn Hf), map_items_empty in Hb.
    injection Hb as <-. by cbn.
  - rewrite (sum_loop_spec (file_count h) _ h _ below); [done|done| | |done].
    + apply file_count_app.
    + eapply Forall2_impl; [by eapply preorder_children|].
      intros kc l (c & Hc & Hl). exists c. split; [done|]. by apply IH.
Qed.

Lemma getTotalSize_rec_spec (f : nat) :
  forall p h l, heap_ok h = true ->
    Forall (fun n => (fileSize n < size_t_modulus)%N) h ->
    preorder f h (Some p) = Some l ->
    getTotalSize_rec f p h = Ret (wrap (total_size h l)) h.
Proof.
  induction f as [|f IH]; intros p h l Hok Hsz Hl; [done|].
  cbn [preorder getTotalSize_rec] in *. unfold bind at 1, load.
  destruct (h !! p) as [n|] eqn:Hn; [|done]. cbn in Hl.
  destruct (mapM _ _) as [below|] eqn:Hb; [|done]. cbn in Hl.
  injection Hl as <-.
  assert (Hhead : forall rest, total_size h (p :: rest)
            = ((if isFile n then fileSize n else 0) + total_size h rest)%N).
  { intros rest. cbn [total_size foldr]. rewrite Hn. by destruct (isFile n). }
  rewrite Hhead. destruct (isFile n) eqn:Hf.
  - rewrite (heap_ok_file h p n Hok Hn Hf), map_items_empty in Hb.
    injection Hb as <-. cbn. unfold ret. rewrite N.add_0_r, wrap_small; [done|].
    by apply (Forall_lookup_1 _ _ _ _ Hsz Hn).
  - rewrite (sum_loop_spec (total_size h) _ h _ below); [done|done| | |done].
    + apply total_size_app.
    + eapply Forall2_impl; [by eapply preorder_children|].
      intros kc l (c & Hc & Hl). exists c. split; [done|]. by apply IH.
Qed.

Lemma preorder_mono (f : nat) :
  forall f' h node l, preorder f h node = Some l -> f <= f' ->
    preorder f' h node = Some l.
Proof.
  induction f as [|f IH]; intros f' h node l Hl Hf; [done|].
  destruct f' as [|f']; [lia|]. cbn [preorder] in *.
  destruct node as [p|]; [|done].
  destruct (h !! p) as [n|]; [|done]. cbn in *.
  destruct (mapM _ _) as [below|] eqn:Hb; [|done]. cbn in Hl.
  injection Hl as <-.
  assert (mapM (fun kc : string * option ptr => preorder f' h kc.2)
            (map_items (children n)) = Some below) as ->; [|done].
  apply mapM_Some. apply mapM_Some_1 in Hb.
  eapply Forall2_impl; [exact Hb|]. intros kc l Hkc. cbn in *.
  apply IH; [done|lia].
Qed.

(** In a well-formed heap the tree under [p] is no deeper than the
    number of nodes allocated from [p] on. *)
Lemma preorder_enough (f : nat) :
  forall p h, heap_ok h = true -> p < length h -> length h - p <= f ->
    is_Some (preorder f h (Some p)).
Proof.
  induction f as [|f IH]; intros p h Hok Hp Hf; [lia|].
  destruct (lookup_lt_is_Some_2 h p Hp) as [n Hn].
  cbn [preorder]. rewrite Hn. cbn.
  assert (Hall : is_Some (mapM (fun kc : string * option ptr =>
                   preorder f h kc.2) (map_items (children n)))).
  { apply mapM_is_Some, Forall_forall. intros [k v] Hin.
    apply elem_of_map_items in Hin. cbn.
    destruct (heap_ok_child h p n k v Hok Hn Hin) as (c & -> & ? & ?).
    apply IH; [done|done|lia]. }
  destruct Hall as [below ->]. by eexists.
Qed.

(** X10. [getFileCount] and [getTotalSize] on the root return the number of
    files and the total size that [getTreeStats] returns, and write
    nothing. The file sizes are [size_t] values. *)
Theorem node_counts_agree_with_stats (h : heap) (t : MerkleTree) (p : ptr) :
  heap_ok h = true ->
  Forall (fun n => (fileSize n < size_t_modulus)%N) h ->
  root t = Some p -> p < length h ->
  exists files dirs size,
    getTreeStats (h, t) = Ret (files, dirs, size) (h, t)
    /\ getFileCount p h = Ret files h
    /\ getTotalSize p h = Ret size h.
Proof.
  intros Hok Hsz Hroot Hp.
  destruct (preorder_enough (length h) p h Hok Hp ltac:(lia)) as [l Hl].
  pose proof (preorder_mono _ (S (length h)) _ _ _ Hl ltac:(lia)) as Hl'.
  exists (wrap (file_count h l)), (wrap (dir_count h l)),
         (wrap (total_size h l)).
  split; [|split].
  - unfold getTreeStats, bind, this_tree, lift. cbn [fst snd].
    rewrite Hroot. cbn [fst snd]. unfold calculateStatsRecursive.
    rewrite (calculateStatsRecursive_rec_spec _ _ h l (0, 0, 0)%N Hok Hl').
    + done.
    + repeat split; by vm_compute.
  - by apply getFileCount_rec_spec.
  - by apply getTotalSize_rec_spec.
Qed.

End NodeQueries.
Section Depth.

Context (sha256 : string -> string).

(** ** [getDepth] *)

Lemma uncache_length (h : heap) : length (uncache h) = length h.
Proof. apply length_fmap. Qed.

Lemma uncache_eq_length (h h' : heap) :
  uncache h' = uncache h -> length h' = length h.
Proof. intros E. by rewrite <- (uncache_length h), <- E, uncache_length. Qed.

Lemma uncache_eq_lookup (h h' : heap) (p : ptr) (n : MerkleNode) :
  uncache h' = uncache h -> h !! p = Some n ->
  exists n', h' !! p = Some n'
             /\ set_cachedDepth (-1) n' = set_cachedDepth (-1) n.
Proof.
  intros E Hp. assert (H' : uncache h' !! p = uncache h !! p) by (by rewrite E).
  unfold uncache in H'. rewrite !list_lookup_fmap, Hp in H'. cbn in H'.
  destruct (h' !! p) as [n'|]; [|done]. exists n'. split; [done|].
  cbn in H'. congruence.
Qed.

Lemma uncache_eq_children (h h' : heap) (p : ptr) (n n' : MerkleNode) :
  uncache h' = uncache h -> h !! p = Some n -> h' !! p = Some n' ->
  children n' = children n /\ isFile n' = isFile n.
Proof.
  intros E Hp Hp'. destruct (uncache_eq_lookup h h' p n E Hp)
    as (n2 & Hn2 & Hnn).
  assert (n2 = n') as -> by congruence.
  split; [exact (f_equal children Hnn) | exact (f_equal isFile Hnn)].
Qed.

Lemma uncache_insert (h : heap) (p : ptr) (n : MerkleNode) (d : Z) :
  h !! p = Some n -> uncache (<[p := set_cachedDepth d n]> h) = uncache h.
Proof.
  intros Hp. unfold uncache. rewrite list_fmap_insert. cbn.
  apply list_insert_id. by rewrite list_lookup_fmap, Hp.
Qed.

Lemma heap_ok_uncache_eq (h h' : heap) :
  uncache h' = uncache h -> heap_ok h = true -> heap_ok h' = true.
Proof.
  intros E Hok. apply heap_ok_lookup. intros p n' Hp'.
  destruct (uncache_eq_lookup h' h p n' (eq_sym E) Hp') as (n & Hp & Hnn).
  pose proof (proj1 (heap_ok_lookup h) Hok p n Hp) as Hn.
  rewrite (uncache_eq_length _ _ E).
  apply node_ok_spec. apply node_ok_spec in Hn as [H1 H2].
  pose proof (f_equal children Hnn) as Hc. pose proof (f_equal isFile Hnn) as Hf.
  cbn in Hc, Hf. rewrite <- Hc, <- Hf. done.
Qed.

Lemma mapM_pointwise {A B} (f g : A -> option B) (l : list A) :
  (forall x, x ∈ l -> f x = g x) -> mapM f l = mapM g l.
Proof.
  induction l as [|x l IH]; intros Hfg; [done|]. cbn.
  rewrite (Hfg x) by left. rewrite IH; [done|].
  intros y Hy. apply Hfg. by right.
Qed.

(** The height does not look at the caches. *)
Lemma height_uncache_eq (f : nat) :
  forall h h' p, uncache h' = uncache h -> height f h' p = height f h p.
Proof.
  induction f as [|f IH]; intros h h' p E; [done|]. cbn [height].
  destruct (h !! p) as [n|] eqn:Hp.
  - destruct (uncache_eq_lookup h h' p n E Hp) as (n' & Hp' & Hnn).
    rewrite Hp'. cbn. pose proof (f_equal children Hnn) as Hc. cbn in Hc.
    rewrite Hc. case_decide; [done|].
    by rewrite (mapM_pointwise _ (fun kc : string * option ptr =>
                  c ← kc.2; height f h c))
      by (intros [k [c|]] _; cbn; [by apply IH|done]).
  - destruct (h' !! p) as [n'|] eqn:Hp'; [|done].
    destruct (uncache_eq_lookup h' h p n' (eq_sym E) Hp') as (? & ? & _).
    congruence.
Qed.

Lemma height_mono (f : nat) :
  forall f' h p d, height f h p = Some d -> f <= f' ->
    height f' h p = Some d.
Proof.
  induction f as [|f IH]; intros f' h p d Hd Hf; [done|].
  destruct f' as [|f']; [lia|]. cbn [height] in *.
  destruct (h !! p) as [n|]; [|done]. cbn in *.
  case_decide; [done|].
  destruct (mapM _ _) as [ds|] eqn:Hds; [|done]. cbn in Hd.
  assert (mapM (fun kc : string * option ptr => c ← kc.2; height f' h c)
            (map_items (children n)) = Some ds) as ->; [|done].
  apply mapM_Some. apply mapM_Some_1 in Hds.
  eapply Forall2_impl; [exact Hds|]. intros [k [c|]] d' Hk; cbn in *; [|done].
  apply IH; [done|lia].
Qed.

Lemma foldl_max_bounds (ds : list Z) (acc b : Z) :
  (0 <= acc < b)%Z -> Forall (fun d => (0 <= d < b)%Z) ds ->
  (0 <= foldl Z.max acc ds < b)%Z.
Proof.
  intros Ha Hds. revert acc Ha.
  induction Hds as [|d ds Hd _ IH]; intros acc Ha; [done|].
  cbn. apply IH. lia.
Qed.

(** In a well-formed heap the height is defined, and below the number
    of nodes allocated from [p] on. *)
Lemma height_total (f : nat) :
  forall h p, heap_ok h = true -> p < length h -> length h - p <= f ->
    exists d, height f h p = Some d
              /\ (0 <= d < Z.of_nat (length h - p))%Z.
Proof.
  induction f as [|f IH]; intros h p Hok Hp Hf; [lia|].
  destruct (lookup_lt_is_Some_2 h p Hp) as [n Hn].
  cbn [height]. rewrite Hn. cbn. case_decide; [exists 0%Z; split; [done|lia]|].
  assert (Hall : exists ds,
            mapM (fun kc : string * option ptr => c ← kc.2; height f h c)
                 (map_items (children n)) = Some ds
            /\ Forall (fun d => (0 <= d < Z.of_nat (length h - p) - 1)%Z) ds).
  { assert (Hin : Forall (fun kc : string * option ptr =>
                            children n !! kc.1 = Some kc.2)
                         (map_items (children n))).
    { apply Forall_forall. intros [k v] Hkv. by apply elem_of_map_items. }
    induction Hin as [|[k v] l Hk _ IHl]; [by exists []|].
    destruct IHl as (ds & Hds & Hb). cbn in Hk.
    destruct (heap_ok_child h p n k v Hok Hn Hk) as (c & -> & Hpc & Hcl).
    destruct (IH h c Hok Hcl ltac:(lia)) as (d & Hd & Hdb).
    exists (d :: ds). cbn. rewrite Hd. cbn. rewrite Hds. cbn.
    split; [done|]. constructor; [lia|done]. }
  destruct Hall as (ds & -> & Hb). cbn. eexists. split; [done|].
  assert (Hm : (0 <= foldl Z.max 0 ds < Z.of_nat (length h - p) - 1)%Z).
  { apply foldl_max_bounds; [|done].
    destruct (map_choose (children n)) as (k & v & Hk); [done|].
    destruct (heap_ok_child h p n k v Hok Hn Hk) as (c & _ & Hpc & Hcl).
    lia. }
  lia.
Qed.

Lemma reach_uncache (h h' : heap) (p q : ptr) :
  uncache h' = uncache h -> reach h p q -> reach h' p q.
Proof.
  intros E Hr. induction Hr as [p|p n k c q Hp Hk _ IH]; [constructor|].
  destruct (uncache_eq_lookup h h' p n E Hp) as (n' & Hp' & Hnn).
  eapply reach_child; [exact Hp'| |exact IH].
  pose proof (f_equal children Hnn) as Hc. cbn in Hc. by rewrite Hc.
Qed.

Lemma cache_valid_store (h : heap) (p q : ptr) (n : MerkleNode) (d : Z) :
  h !! p = Some n -> height (length h) h p = Some d ->
  cache_valid h q -> cache_valid (<[p := set_cachedDepth d n]> h) q.
Proof.
  intros Hp Hd Hval n' Hq. rewrite length_insert.
  rewrite (height_uncache_eq _ h) by (by apply uncache_insert).
  destruct (decide (q = p)) as [->|Hne].
  - rewrite list_lookup_insert_eq in Hq by (by eapply lookup_lt_Some).
    injection Hq as <-. by right.
  - rewrite list_lookup_insert_ne in Hq by done. by apply Hval.
Qed.

Lemma getDepth_rec_spec (f : nat) :
  forall p h, heap_ok h = true ->
    (forall q, reach h p q -> cache_valid h q) ->
    p < length h -> length h - p <= f ->
    (Z.of_nat (length h) <= INT_MAX)%Z ->
    exists d h',
      getDepth_rec f p h = Ret d h'
      /\ height (length h) h p = Some d
      /\ uncache h' = uncache h
      /\ (forall q, cache_valid h q -> cache_valid h' q)
      /\ cachedDepth <$> h' !! p = Some d.
Proof.
  induction f as [|f IH]; intros p h Hok Hval Hp Hf Hmax; [lia|].
  destruct (lookup_lt_is_Some_2 h p Hp) as [n Hn].
  cbn [getDepth_rec]. unfold bind at 1, load. rewrite Hn.
  destruct (cachedDepth n =? -1)%Z eqn:Ec; cbn [negb].
  2:{ apply Z.eqb_neq in Ec.
      destruct (Hval p (reach_here h p) n Hn) as [?|Hh]; [done|].
      exists (cachedDepth n), h. unfold ret. repeat split; try done.
      by rewrite Hn. }
  destruct (bool_decide (children n = ∅)) eqn:Eb.
  - apply bool_decide_eq_true in Eb. unfold bind, modify, ret. rewrite Hn.
    assert (Hh : height (length h) h p = Some 0%Z).
    { destruct (length h) as [|f0]; [lia|]. cbn [height]. rewrite Hn. cbn.
      by rewrite decide_True. }
    exists 0%Z, (<[p := set_cachedDepth 0 n]> h).
    split; [done|]. split; [done|]. split; [by apply uncache_insert|].
    split; [intros q; by apply cache_valid_store|].
    by rewrite list_lookup_insert_eq.
  - apply bool_decide_eq_false in Eb.
    assert (Hloop : forall kids,
      Forall (fun kc : string * option ptr =>
                children n !! kc.1 = Some kc.2) kids ->
      forall acc h0, uncache h0 = uncache h ->
        (forall q, cache_valid h q -> cache_valid h0 q) ->
        exists ds h1,
          getDepth_loop (getDepth_rec f) kids acc h0
          = Ret (foldl Z.max acc ds) h1
          /\ Forall2 (fun (kc : string * option ptr) d =>
                        exists c, kc.2 = Some c /\ p < c < length h
                                  /\ height (length h) h c = Some d) kids ds
          /\ uncache h1 = uncache h
          /\ (forall q, cache_valid h q -> cache_valid h1 q)).
    { induction 1 as [|[k v] kids Hk _ IHk]; intros acc h0 E0 V0.
      - exists [], h0. done.
      - cbn in Hk.
        destruct (heap_ok_child h p n k v Hok Hn Hk) as (c & -> & Hpc & Hcl).
        assert (Hok0 : heap_ok h0 = true)
          by (by eapply heap_ok_uncache_eq).
        pose proof (uncache_eq_length _ _ E0) as L0.
        destruct (IH c h0 Hok0) as (d & h0' & Hrun & Hd & E0' & V0' & _);
          [|lia|lia|lia|].
        { intros q Hq. apply V0, Hval.
          eapply reach_child; [exact Hn|exact Hk|].
          eapply reach_uncache; [|exact Hq]. done. }
        destruct (IHk (Z.max acc d) h0' ltac:(congruence))
          as (ds & h1 & Hrun1 & Hds & E1 & V1).
        { intros q Hq. by apply V0', V0. }
        exists (d :: ds), h1. cbn [getDepth_loop snd foldl].
        unfold bind at 1. rewrite Hrun. split; [done|]. split; [|done].
        constructor; [|done]. exists c. split; [done|]. split; [done|].
        rewrite <- Hd, L0. symmetry. by apply height_uncache_eq. }
    destruct (Hloop (map_items (children n))) with (acc := 0%Z) (h0 := h)
      as (ds & h1 & Hrun & Hds & E1 & V1); [|done|done|].
    { apply Forall_forall. intros [k v] Hkv. by apply elem_of_map_items. }
    unfold bind at 1. rewrite Hrun.
    assert (Hh : height (length h) h p = Some (foldl Z.max 0 ds + 1)%Z).
    { destruct (length h) as [|f0] eqn:L; [lia|]. cbn [height].
      rewrite Hn. cbn. rewrite decide_False by done.
      assert (mapM (fun kc : string * option ptr => c ← kc.2; height f0 h c)
                (map_items (children n)) = Some ds) as ->; [|done].
      apply mapM_Some. eapply Forall2_impl; [exact Hds|].
      intros [k v] d (c & Hc & Hpc & Hd). cbn in Hc. subst v. cbn.
      destruct (height_total f0 h c Hok ltac:(lia) ltac:(lia))
        as (d' & Hd' & _).
      pose proof (height_mono _ (S f0) _ _ _ Hd' ltac:(lia)) as Hd2.
      congruence. }
    destruct (height_total (length h) h p Hok Hp ltac:(lia))
      as (d0 & Hd0 & Hb0).
    assert ((foldl Z.max 0 ds <? INT_MAX)%Z = true) as ->.
    { apply Z.ltb_lt. assert (d0 = (foldl Z.max 0 ds + 1)%Z) by congruence.
      lia. }
    destruct (uncache_eq_lookup h h1 p n E1 Hn) as (n1 & Hn1 & _).
    unfold bind, modify, ret. rewrite Hn1.
    pose proof (uncache_eq_length _ _ E1) as L1.
    eexists _, _. split; [done|]. split; [done|].
    split; [by rewrite uncache_insert|]. split.
    + intros q Hq. apply cache_valid_store; [done| |by apply V1].
      rewrite L1. by rewrite (height_uncache_eq _ h).
    + rewrite list_lookup_insert_eq by (by eapply lookup_lt_Some). done.
Qed.

Lemma caches_unset_valid (h : heap) (q : ptr) :
  Forall (fun n => cachedDepth n = (-1)%Z) h -> cache_valid h q.
Proof.
  intros Hall n Hn. left. by apply (Forall_lookup_1 _ _ _ _ Hall Hn).
Qed.

(** The value [getDepth] returns is never the marker of an unset cache,
    and it is the value the cache holds afterwards. *)
Lemma getDepth_rec_cached (f : nat) (p : ptr) (h h' : heap) (d : Z) :
  getDepth_rec f p h = Ret d h' ->
  d <> (-1)%Z /\ cachedDepth <$> h' !! p = Some d.
Proof.
  destruct f as [|f]; [done|]. cbn [getDepth_rec]. unfold bind at 1, load.
  destruct (h !! p) as [n|] eqn:Hn; [|done].
  destruct (cachedDepth n =? -1)%Z eqn:Ec; cbn [negb].
  2:{ intros [= <- <-]. apply Z.eqb_neq in Ec. by rewrite Hn. }
  destruct (bool_decide (children n = ∅)).
  - unfold bind, modify, ret. rewrite Hn. intros [= <- <-].
    split; [done|]. rewrite list_lookup_insert_eq by (by eapply lookup_lt_Some).
    done.
  - unfold bind at 1.
    destruct (getDepth_loop _ _ _ _) as [m h1| |] eqn:Hloop; [|done|done].
    destruct (m <? INT_MAX)%Z; [|done]. unfold bind, modify, ret.
    destruct (h1 !! p) as [n1|] eqn:Hn1; [|done]. intros [= <- <-].
    split.
    + assert (Hm : forall kids acc h0 m' h2,
                getDepth_loop (getDepth_rec f) kids acc h0 = Ret m' h2 ->
                (acc <= m')%Z).
      { induction kids as [|[k [c|]] kids IHk]; intros acc h0 m' h2 Hr;
          cbn in Hr; [injection Hr as <- <-; lia| |done].
        unfold bind in Hr.
        destruct (getDepth_rec f c h0) as [dc hc| |]; [|done|done].
        apply IHk in Hr. lia. }
      apply Hm in Hloop. lia.
    + rewrite list_lookup_insert_eq by (by eapply lookup_lt_Some). done.
Qed.

(** X11. On a tree whose depth caches are unset or right, [getDepth] returns
    the height of the tree under the node: 0 for a node without children,
    not 0 for the root. It changes depth caches only, a cache that was
    right stays right, and the node it was called on holds the value
    returned, which a second call returns without a change. *)
Theorem getDepth_height (h : heap) (p : ptr) :
  heap_ok h = true -> (forall q, reach h p q -> cache_valid h q) ->
  p < length h -> (Z.of_nat (length h) <= INT_MAX)%Z ->
  exists d h',
    getDepth p h = Ret d h'
    /\ height (length h) h p = Some d
    /\ (0 <= d < Z.of_nat (length h - p))%Z
    /\ uncache h' = uncache h
    /\ (forall q, cache_valid h q -> cache_valid h' q)
    /\ cachedDepth <$> h' !! p = Some d
    /\ getDepth p h' = Ret d h'.
Proof.
  intros Hok Hval Hp Hmax.
  destruct (getDepth_rec_spec (length h) p h Hok Hval Hp ltac:(lia) Hmax)
    as (d & h' & Hrun & Hh & E & V & Hc).
  destruct (height_total (length h) h p Hok Hp ltac:(lia))
    as (d0 & Hd0 & Hb0).
  assert (d0 = d) as -> by congruence.
  exists d, h'. unfold getDepth. split; [done|]. split; [done|].
  split; [done|]. split; [done|]. split; [done|]. split; [done|].
  apply getDepth_rec_cached in Hrun as [Hne _].
  rewrite (uncache_eq_length _ _ E).
  destruct (length h) as [|f0]; [lia|]. cbn [getDepth_rec].
  unfold bind, load, ret. destruct (h' !! p) as [n'|]; [|done].
  cbn in Hc. injection Hc as ->.
  by destruct (d =? -1)%Z eqn:Ed; [apply Z.eqb_eq in Ed|].
Qed.

(** X12. The cache is reset on the node a child is added to, not on the nodes
    above it: once [getDepth] has run on a node, it keeps returning the
    same value there whatever is added to other nodes, also below it. *)
Theorem getDepth_stale_after_addChild (h h1 h2 : heap) (g p c : ptr)
    (d : Z) :
  getDepth g h = Ret d h1 ->
  p <> g ->
  addChild p (Some c) h1 = Ret tt h2 ->
  getDepth g h2 = Ret d h2.
Proof.
  unfold getDepth. intros Hrun Hpg Hadd.
  apply getDepth_rec_cached in Hrun as [Hne Hc].
  assert (Hg : h2 !! g = h1 !! g /\ length h2 = length h1).
  { unfold addChild, bind, load, modify, throw in Hadd.
    destruct (h1 !! p) as [n|] eqn:Hp1; [|done].
    destruct (isFile n); [done|]. destruct (h1 !! c) as [cn|]; [|done].
    rewrite Hp1 in Hadd. injection Hadd as <-. rewrite length_insert.
    by rewrite list_lookup_insert_ne. }
  destruct Hg as [Hg Hl].
  destruct (h1 !! g) as [n|] eqn:Hn; [|done]. cbn in Hc. injection Hc as <-.
  assert (Hlen : g < length h2)
    by (rewrite Hl; by eapply lookup_lt_Some).
  destruct (length h2) as [|f0]; [lia|]. cbn [getDepth_rec].
  unfold bind, load, ret. rewrite Hg.
  by destruct (cachedDepth n =? -1)%Z eqn:Ed; [apply Z.eqb_eq in Ed|].
Qed.

(** The nodes of a tree that mirrors a directory have their depth caches
    unset. *)
Lemma mirrors_reach_unset (c : nat) (h : heap) (p : ptr) (e : FsEntry) :
  mirrors sha256 c h p e ->
  forall q, reach h p q ->
    exists n, h !! q = Some n /\ cachedDepth n = (-1)%Z.
Proof.
  intros Hm. induction Hm as [p n nm content sz Hp Hv|p n nm Hp Hv
                             |p n nm es Hp Hv Hkids IH]; intros q Hq.
  - pose proof (f_equal children Hv) as Hc. cbn in Hc.
    pose proof (f_equal cachedDepth Hv) as Hd. cbn in Hd.
    inversion Hq as [|? n' k c' ? Hp' Hk]; subst; [by exists n|].
    rewrite Hp in Hp'. injection Hp' as <-.
    by rewrite Hc, lookup_empty in Hk.
  - pose proof (f_equal children Hv) as Hc. cbn in Hc.
    pose proof (f_equal cachedDepth Hv) as Hd. cbn in Hd.
    inversion Hq as [|? n' k c' ? Hp' Hk]; subst; [by exists n|].
    rewrite Hp in Hp'. injection Hp' as <-.
    by rewrite Hc, lookup_empty in Hk.
  - pose proof (f_equal children Hv) as Hc. cbn in Hc.
    pose proof (f_equal cachedDepth Hv) as Hd. cbn in Hd.
    inversion Hq as [|? n' k c' ? Hp' Hk Hr]; subst; [by exists n|].
    rewrite Hp in Hp'. injection Hp' as <-.
    rewrite Hc, lookup_fmap in Hk.
    destruct (fs_children (S p) es !! k) as [[a e]|] eqn:Hke; [|done].
    cbn in Hk. injection Hk as <-. by apply (IH k a e Hke).
Qed.

(** X13. [getDepth] on the root of a tree [build_tree] has just built, as
    [process_directory] and the statistics of the command line call it:
    the call returns the height of the tree. *)
Theorem build_tree_then_getDepth (fsys : filesystem) (path : string)
    (h : heap) (t : MerkleTree) (r : option ptr) (h' : heap)
    (t' : MerkleTree) :
  (0 < CHUNK_SIZE t)%N -> heap_ok h = true ->
  build_tree sha256 fsys path (h, t) = Ret r (h', t') ->
  (Z.of_nat (length h') <= INT_MAX)%Z ->
  exists p d h'',
    r = Some p
    /\ getDepth p h' = Ret d h''
    /\ height (length h') h' p = Some d
    /\ uncache h'' = uncache h'.
Proof.
  intros Hc0 Hok Hret Hmax. assert (Hc : 0 < N.to_nat (CHUNK_SIZE t)) by lia.
  destruct (build_tree_shape sha256 fsys path h t r h' t' Hc Hok Hret)
    as (-> & _ & _ & Hlen & Hmir).
  destruct (build_tree_consistent sha256 fsys path h t _ h' t' Hc Hok Hret)
    as (Hok' & p & Hr & _ & Hp & _).
  injection Hr as <-.
  destruct (getDepth_rec_spec (length h') (length h) h' Hok')
    as (d & h'' & Hrun & Hh & E & _ & _); [|done|lia|done|].
  { intros q Hq n Hn. left.
    destruct (mirrors_reach_unset _ _ _ _ Hmir q Hq) as (n' & Hn' & Hd).
    congruence. }
  by exists (length h), d, h''.
Qed.

End Depth.
Section BuildEffects.

Context (sha256 : string -> string).

(** ** What a build allocates, registers and leaves behind *)

Lemma reach_in_heap (h : heap) (p q : ptr) :
  heap_ok h = true -> p < length h -> reach h p q -> q < length h.
Proof.
  intros Hok Hp Hr. induction Hr as [p|p n k c q Hn Hk _ IH]; [done|].
  apply IH. destruct (heap_ok_child _ _ _ _ _ Hok Hn Hk) as (c' & Hc & ?).
  injection Hc as <-. lia.
Qed.

(** X14. [build_node] returns exactly on the entries that exist and can be
    read or listed, and throws the error of the entry otherwise. In both
    cases it changes nothing in the nodes that were there, allocates one
    node per entry that exists below and including the entry, also for
    the entries it fails on, registers the nodes it allocates in the
    order of their allocation, and leaves the root and the chunk size as
    they were; a new index entry points to a node it allocated. *)
Theorem build_node_effects (e : FsEntry) (h : heap) (t : MerkleTree) :
  (0 < CHUNK_SIZE t)%N -> heap_ok h = true ->
  exists ext fo,
    let w' := (h ++ ext,
               mkTree (root t) fo (nodes t ++ seq (length h) (length ext))
                 (CHUNK_SIZE t)) in
    build_node sha256 e (h, t)
    = (if fs_builds e then Ret (length h) w' else Throw (build_error e) w')
    /\ length ext = fs_alloc e
    /\ heap_ok (h ++ ext) = true
    /\ (forall k p, fo !! k = Some p ->
          file_objects t !! k = Some p
          \/ length h <= p < length h + length ext).
Proof.
  intros Hc0 Hok. assert (Hc : 0 < N.to_nat (CHUNK_SIZE t)) by lia.
  destruct (build_node_post sha256 e h t Hc Hok)
    as (ext & fo & Hok' & (Hidx & _ & _) & _ & _ & Hal & Hout).
  cbn [fst snd] in *. exists ext, fo. cbn zeta.
  split; [|split; [done|split; [done|]]].
  - unfold tree_ext in Hout.
    destruct (fs_hash sha256 e) as [v|] eqn:Hv.
    + destruct Hout as (-> & _).
      assert (fs_builds e = true) as ->
        by (apply (fs_hash_builds sha256 e); eauto).
      done.
    + rewrite Hout. destruct (fs_builds e) eqn:Hb; [|done].
      apply (fs_hash_builds sha256 e) in Hb as [? Hb]. congruence.
  - intros k p Hp. destruct (Hidx k p Hp) as [?|(Hle & n & Hn & _)];
      [by left|right].
    apply lookup_lt_Some in Hn. rewrite length_app in Hn. lia.
Qed.

(** X15. The root hash after a build is a function of the directory alone:
    the state the call started from, the nodes allocated before and the
    chunk size have no part in it. *)
Theorem build_tree_root_hash (fsys : filesystem) (path : string)
    (h : heap) (t : MerkleTree) (r : option ptr) (h' : heap)
    (t' : MerkleTree) :
  (0 < CHUNK_SIZE t)%N -> heap_ok h = true ->
  build_tree sha256 fsys path (h, t) = Ret r (h', t') ->
  exists p v,
    r = Some p /\ root t' = Some p
    /\ fs_hash sha256 (fsys path) = Some v
    /\ hash <$> h' !! p = Some v.
Proof.
  intros Hc0 Hok Hret. assert (Hc : 0 < N.to_nat (CHUNK_SIZE t)) by lia.
  pose proof (build_tree_run sha256 fsys path h t Hc Hok) as Hrun.
  rewrite Hret in Hrun.
  destruct (fsys path) as [nm|nm content sz rd|nm es ok|nm]; try done.
  destruct Hrun as (ext & fo & _ & _ & _ & Hout).
  destruct ok; [|done].
  destruct Hout as (v & h2 & Hv & _ & _ & Hst & Heq).
  injection Heq as -> -> ->. by exists (length h), v.
Qed.

(** X16. A build that returns has allocated one node for every entry that
    exists in the directory tree, whether or not the entry could be
    built, and the registry lists exactly these nodes; the nodes that
    were there before are as they were, and every node of the new tree
    is registered. *)
Theorem build_tree_registry (fsys : filesystem) (path : string)
    (h : heap) (t : MerkleTree) (r : option ptr) (h' : heap)
    (t' : MerkleTree) :
  (0 < CHUNK_SIZE t)%N -> heap_ok h = true ->
  build_tree sha256 fsys path (h, t) = Ret r (h', t') ->
  length h' = length h + fs_alloc (fsys path)
  /\ nodes t' = seq (length h) (fs_alloc (fsys path))
  /\ (forall q, q < length h -> h' !! q = h !! q)
  /\ (forall p q, root t' = Some p -> reach h' p q -> q ∈ nodes t').
Proof.
  intros Hc0 Hok Hret. assert (Hc : 0 < N.to_nat (CHUNK_SIZE t)) by lia.
  destruct (build_tree_shape sha256 fsys path h t r h' t' Hc Hok Hret)
    as (-> & Hroot & _ & Hlen & _).
  pose proof (build_tree_run sha256 fsys path h t Hc Hok) as Hrun.
  rewrite Hret in Hrun.
  destruct (fsys path) as [nm|nm content sz rd|nm es ok|nm] eqn:Hpath;
    try done.
  destruct Hrun as (ext & fo & Hok' & _ & _ & Hout).
  destruct ok; [|done].
  destruct Hout as (v & h2 & _ & Hcalc & He & _ & Heq).
  injection Heq as Hh Ht. subst h2 t'.
  assert (Hext : length ext = fs_alloc (FsDir nm es true)).
  { rewrite (erase_eq_length _ _ He), length_app in Hlen. lia. }
  split; [done|]. split; [cbn [nodes]; by rewrite Hext|]. split.
  - intros q Hq. unfold calculateHash in Hcalc.
    rewrite (calculateHash_rec_unreached sha256 _ _ _ _ _ Hcalc).
    + by apply lookup_app_l.
    + intros Hr. apply (reach_above _ _ _ Hok') in Hr. lia.
  - intros p q Hp Hr. cbn [root nodes] in *. injection Hp as <-.
    assert (Hok2 : heap_ok h' = true)
      by (by rewrite (heap_ok_erase_eq _ _ He)).
    pose proof (reach_above _ _ _ Hok2 Hr) as Hle.
    assert (Hq : q < length h').
    { eapply reach_in_heap; [exact Hok2| |exact Hr].
      rewrite Hlen. cbn [fs_alloc]. lia. }
    apply elem_of_seq. rewrite Hext. lia.
Qed.

(** X17. A file that fits into one chunk has one chunk hash, its content
    hash; an empty file has none. *)
Theorem hash_file_content_single_chunk (w : world) (nm : string)
    (content : list byte) (reported : N) :
  (0 < CHUNK_SIZE w.2)%N ->
  length content <= N.to_nat (CHUNK_SIZE w.2) ->
  exists size,
    hash_file_content sha256 (FsFile nm content reported true) w
    = Ret (sha256 (string_of_list_byte content), size,
           if decide (content = []) then []
           else [sha256 (string_of_list_byte content)]) w.
Proof.
  intros Hc0 Hlen. assert (Hc : 0 < N.to_nat (CHUNK_SIZE w.2)) by lia.
  rewrite hash_file_content_run by done. eexists. f_equal. f_equal.
  destruct content as [|b content].
  - cbn [length]. by rewrite chunk_count_0.
  - rewrite decide_False by done.
    rewrite chunk_count_short by (cbn [length] in *; lia).
    unfold chunk_hashes, chunk_at. cbn [seq fmap list_fmap].
    rewrite Nat.mul_0_l, drop_0, take_ge by done. done.
Qed.

End BuildEffects.
Section ApiSafety.

Context (sha256 : string -> string).

(** ** No call goes wrong *)

Lemma getTreeStats_total (h : heap) (t : MerkleTree) :
  heap_ok h = true -> (forall p, root t = Some p -> p < length h) ->
  exists stats, getTreeStats (h, t) = Ret stats (h, t).
Proof.
  intros Hok Hroot. unfold getTreeStats, bind, this_tree. cbn [fst snd].
  destruct (root t) as [p|] eqn:Hr; [|by eexists].
  destruct (preorder_total (S (length h)) p h Hok (Hroot p eq_refl)
              ltac:(lia)) as [l Hl].
  unfold lift, calculateStatsRecursive. cbn [fst snd].
  rewrite (calculateStatsRecursive_rec_spec _ _ h l (0, 0, 0)%N Hok Hl).
  - by eexists.
  - repeat split; by vm_compute.
Qed.

Lemma findNode_total (h : heap) (t : MerkleTree) (nm : string) :
  heap_ok h = true -> (forall p, root t = Some p -> p < length h) ->
  exists r, findNode nm (h, t) = Ret r (h, t).
Proof.
  intros Hok Hroot. unfold findNode, bind, this_tree. cbn [fst snd].
  destruct (root t) as [p|] eqn:Hr; [|by eexists].
  destruct (preorder_total (S (length h)) p h Hok (Hroot p eq_refl)
              ltac:(lia)) as [l Hl].
  unfold lift, findNodeRecursive. cbn [fst snd].
  rewrite (findNodeRecursive_rec_spec _ nm _ h l Hl). by eexists.
Qed.

Lemma verifyTreeIntegrity_total (h : heap) (t : MerkleTree) :
  heap_ok h = true -> (forall p, root t = Some p -> p < length h) ->
  exists b h', verifyTreeIntegrity sha256 (h, t) = Ret b (h', t)
               /\ erase h' = erase h.
Proof.
  intros Hok Hroot. unfold verifyTreeIntegrity, bind, this_tree.
  cbn [fst snd].
  destruct (root t) as [p|] eqn:Hr; [|by exists true, h].
  destruct (lookup_lt_is_Some_2 h p (Hroot p eq_refl)) as [n Hn].
  destruct (verifyNodeIntegrity_root_only sha256 h p n Hok Hn)
    as (r & h' & Hrun & Hver).
  unfold lift. cbn [fst snd]. rewrite Hver. eexists _, h'. split; [done|].
  unfold calculateHash in Hrun.
  by apply calculateHash_rec_spec in Hrun as [_ E].
Qed.

(** Every call returns or throws, and keeps [tree_inv]. *)
Lemma run_call_safe (c : call) (w : world) :
  tree_inv w ->
  exists w', tree_inv w'
    /\ (run_call sha256 c w = Ret tt w'
        \/ exists e, run_call sha256 c w = Throw e w').
Proof.
  destruct w as [h t]. intros Hinv.
  pose proof Hinv as (Hok & Hchunk & Hroot). cbn [fst snd] in *.
  assert (Hc : 0 < N.to_nat (CHUNK_SIZE t)).
  { pose proof chunk_bounds_values as (Hmin & _). rewrite Hmin in Hchunk.
    lia. }
  destruct c as [fsys path| | | |nm| |chunkSize|]; cbn [run_call].
  - pose proof (build_tree_run sha256 fsys path h t Hc Hok) as Hrun.
    unfold bind.
    destruct (fsys path) as [nm|nm content sz rd|nm es ok|nm];
      try (rewrite Hrun; exists (h, t); split; [exact Hinv|right; by eexists]).
    destruct Hrun as (ext & fo & Hok' & Hlen & _ & Hout).
    destruct ok.
    + destruct Hout as (v & h' & _ & _ & He & _ & ->).
      eexists. split; [|by left].
      split; [|split]; cbn [fst snd root CHUNK_SIZE].
      * by rewrite (heap_ok_erase_eq _ _ He).
      * done.
      * intros p [= <-]. rewrite (erase_eq_length _ _ He), length_app. lia.
    + rewrite Hout. eexists. split; [|right; by eexists].
      split; [|split]; cbn [fst snd root CHUNK_SIZE]; [done|done|].
      intros p Hp. apply Hroot in Hp. rewrite length_app. lia.
  - exists (h, t). split; [exact Hinv|]. by left.
  - destruct (getTreeStats_total h t Hok Hroot) as [stats Hrun].
    unfold bind. rewrite Hrun. exists (h, t). split; [exact Hinv|]. by left.
  - destruct (verifyTreeIntegrity_total h t Hok Hroot)
      as (b & h' & Hrun & He).
    unfold bind. rewrite Hrun. exists (h', t). split; [|by left].
    split; [|split]; cbn [fst snd].
    + by rewrite (heap_ok_erase_eq _ _ He).
    + done.
    + intros p Hp. rewrite (erase_eq_length _ _ He). by apply Hroot.
  - destruct (findNode_total h t nm Hok Hroot) as [r Hrun].
    unfold bind. rewrite Hrun. exists (h, t). split; [exact Hinv|]. by left.
  - destruct (exportToJson_frame h t Hok Hroot) as [s Hrun].
    unfold bind. rewrite Hrun. exists (h, t). split; [exact Hinv|]. by left.
  - unfold setChunkSize, modify_tree, throw.
    destruct ((chunkSize <? MIN_CHUNK_SIZE)%N || _) eqn:Eb.
    + exists (h, t). split; [exact Hinv|]. right. by eexists.
    + eexists. split; [|by left]. apply orb_false_iff in Eb as [E1 E2].
      apply N.ltb_ge in E1, E2. split; [done|]. split; [|done].
      cbn [fst snd CHUNK_SIZE set_CHUNK_SIZE]. lia.
  - exists (h, t). split; [exact Hinv|]. by left.
Qed.

(** X18. From a tree as the constructors make it, no sequence of calls of the
    public member functions, by a caller that catches their exceptions,
    dereferences a null or dangling pointer or fails to end: every call
    returns or throws. Throughout, the chunk size stays within its
    bounds and the root, when set, is a live node. *)
Theorem run_calls_safe (cs : list call) (w : world) :
  tree_inv w ->
  exists w', run_calls sha256 cs w = Ret tt w' /\ tree_inv w'.
Proof.
  revert w. induction cs as [|c cs IH]; intros w Hinv.
  - by exists w.
  - destruct (run_call_safe c w Hinv) as (w1 & Hinv1 & Hrun).
    destruct (IH w1 Hinv1) as (w' & Hrest & Hinv').
    exists w'. split; [|done]. cbn [run_calls].
    unfold bind at 1, try_catch.
    by destruct Hrun as [->|[e ->]].
Qed.

(** X19. The trees the two constructors make satisfy [tree_inv]. *)
Theorem constructors_establish_invariant (chunkSize : N) (t : MerkleTree) :
  tree_inv ([], new_tree)
  /\ (new_tree_sized chunkSize = inr t -> tree_inv ([], t)).
Proof.
  split.
  - split; [done|]. split; [by vm_compute|done].
  - unfold new_tree_sized.
    destruct ((chunkSize <? MIN_CHUNK_SIZE)%N || _) eqn:Eb; [done|].
    intros [= <-]. apply orb_false_iff in Eb as [E1 E2].
    apply N.ltb_ge in E1, E2. split; [done|]. split; [|done].
    cbn [snd CHUNK_SIZE]. lia.
Qed.

End ApiSafety.
Section Utilities.

(** ** [getFileExtension] and [isBinaryFile] *)

Lemma find_last_of_None (c : ascii) (s : string) :
  find_last_of c s = None <-> ~ In c (list_ascii_of_string s).
Proof.
  induction s as [|a s IH]; cbn; [tauto|].
  destruct (find_last_of c s) as [i|].
  - split; [done|]. intros Hn. exfalso.
    assert (Hs : ~ In c (list_ascii_of_string s)) by tauto.
    apply IH in Hs. done.
  - destruct (Ascii.eqb_spec a c) as [->|Hne].
    + split; [done|]. intros Hn. exfalso. apply Hn. by left.
    + split; [|done]. intros _ [?|Hin]; [done|]. by apply IH in Hin.
Qed.

(** The last occurrence splits the string. *)
Lemma find_last_of_Some (c : ascii) (s : string) (i : nat) :
  find_last_of c s = Some i ->
  exists s1 s2, s = s1 +:+ String c s2 /\ String.length s1 = i
                /\ find_last_of c s2 = None.
Proof.
  revert i. induction s as [|a s IH]; intros i Hi; cbn in Hi; [done|].
  destruct (find_last_of c s) as [j|] eqn:Hj.
  - injection Hi as <-. destruct (IH j eq_refl) as (s1 & s2 & -> & <- & H2).
    by exists (String a s1), s2.
  - destruct (Ascii.eqb_spec a c) as [->|Hne]; [|done]. injection Hi as <-.
    by exists "", s.
Qed.

Lemma find_last_of_app (c : ascii) (s1 s2 : string) :
  find_last_of c s2 = None ->
  find_last_of c (s1 +:+ String c s2) = Some (String.length s1).
Proof.
  intros H2. induction s1 as [|a s1 IH].
  - change (find_last_of c (String c s2) = Some 0). cbn.
    by rewrite H2, Ascii.eqb_refl.
  - rewrite append_cons. cbn. by rewrite IH.
Qed.

Lemma length_append (s1 s2 : string) :
  String.length (s1 +:+ s2) = String.length s1 + String.length s2.
Proof.
  induction s1 as [|a s1 IH]; [done|]. rewrite append_cons. cbn. by rewrite IH.
Qed.

Lemma substring_all (s : string) : substring 0 (String.length s) s = s.
Proof. induction s as [|a s IH]; [done|]. cbn. by rewrite IH. Qed.

Lemma substring_append (s1 s2 : string) :
  substring (String.length s1) (String.length s2) (s1 +:+ s2) = s2.
Proof.
  induction s1 as [|a s1 IH]; [apply substring_all|].
  rewrite append_cons. cbn. exact IH.
Qed.

(** X20. [getFileExtension] on any name: a name without a dot has no
    extension; a name with a dot is a stem, a dot and
    a rest without a dot, and its extension is the dot and the rest,
    unless the stem is empty (a hidden file) or the rest is empty (a
    trailing dot), when it is empty. *)
Theorem getFileExtension_cases (filename : string) :
  (~ In "."%char (list_ascii_of_string filename)
   /\ getFileExtension filename = "")
  \/ exists stem ext,
       filename = stem +:+ "." +:+ ext
       /\ ~ In "."%char (list_ascii_of_string ext)
       /\ getFileExtension filename
          = if decide (stem = "" \/ ext = "") then "" else "." +:+ ext.
Proof.
  unfold getFileExtension.
  destruct (find_last_of "." filename) as [pos|] eqn:Hpos.
  - right. apply find_last_of_Some in Hpos as (stem & ext & -> & <- & Hext).
    exists stem, ext. split; [done|]. split; [by apply find_last_of_None|].
    rewrite length_append. cbn [String.length].
    assert (Hs : stem = "" <-> String.length stem = 0)
      by (destruct stem; cbn; split; congruence || lia).
    assert (He : ext = "" <-> String.length ext = 0)
      by (destruct ext; cbn; split; congruence || lia).
    destruct (Nat.eqb_spec (String.length stem) 0) as [E0|E0]; cbn [orb].
    { rewrite decide_True; [done|]. left. tauto. }
    destruct (Nat.eqb_spec (String.length stem)
                (String.length stem + S (String.length ext) - 1)) as [E1|E1].
    { rewrite decide_True; [done|]. right. apply He. lia. }
    rewrite decide_False
      by (intros [H|H]; [tauto|apply He in H; apply E1; lia]).
    replace (String.length stem + S (String.length ext) - String.length stem)
      with (String.length (String "." ext)) by (cbn [String.length]; lia).
    apply (substring_append stem (String "." ext)).
  - left. split; [by apply find_last_of_None|done].
Qed.


End Utilities.
Section ReadOnly.

Context (sha256 : string -> string).

(** ** What the traversals of a tree write *)

(** C7, as the code has it. On every well-formed tree [getTreeStats] and
    [exportToJson] return and leave the whole state as it was.
    [verifyTreeIntegrity] returns too and leaves the name, content hash,
    chunk hashes, size and children of every node as they were, but it
    writes [hash] fields: outside the tree under the root it changes
    nothing, in the tree it leaves every node with its Merkle hash
    stored. So it leaves every node unchanged exactly when every node of
    the tree stored its Merkle hash before the call, and then it returns
    [true]; this is so on the tree a [build_tree] call has just
    returned. On a tree with an overwritten [hash] field the call
    changes the heap. *)
Theorem traversals_read_only (h : heap) (t : MerkleTree) :
  heap_ok h = true ->
  (forall p, root t = Some p -> p < length h) ->
  (exists stats, getTreeStats (h, t) = Ret stats (h, t))
  /\ (exists text, exportToJson (h, t) = Ret text (h, t))
  /\ (exists b h',
        verifyTreeIntegrity sha256 (h, t) = Ret b (h', t)
        /\ length h' = length h
        /\ (forall q n, h !! q = Some n ->
              exists n', h' !! q = Some n'
                /\ name n' = name n /\ contentHash n' = contentHash n
                /\ chunkHashes n' = chunkHashes n
                /\ fileSize n' = fileSize n /\ children n' = children n
                /\ isFile n' = isFile n)
        /\ (root t = None -> h' = h /\ b = true)
        /\ (forall p, root t = Some p ->
              (forall q, ~ reach h p q -> h' !! q = h !! q)
              /\ (forall q, reach h p q -> consistent sha256 h' q)
              /\ (h' = h <-> forall q, reach h p q -> consistent sha256 h q)
              /\ ((forall q, reach h p q -> consistent sha256 h q) ->
                  b = true)))
  /\ (forall fsys path w0 r,
        (0 < CHUNK_SIZE w0.2)%N -> heap_ok w0.1 = true ->
        build_tree sha256 fsys path w0 = Ret r (h, t) ->
        verifyTreeIntegrity sha256 (h, t) = Ret true (h, t)).
Proof.
  intros Hok Hroot.
  split; [by apply getTreeStats_total|].
  split; [by apply exportToJson_frame|]. split.
  - destruct (root t) as [p|] eqn:Hr.
    + pose proof (Hroot p eq_refl) as Hp.
      destruct (lookup_lt_is_Some_2 h p Hp) as [n Hn].
      destruct (verifyNodeIntegrity_root_only sha256 h p n Hok Hn)
        as (r & h' & Hrun & Hver).
      pose proof Hrun as Hrun'. unfold calculateHash in Hrun'.
      pose proof (calculateHash_rec_spec sha256 _ _ _ _ _ Hrun') as [Hm E].
      exists (String.eqb (hash n) r), h'. split.
      { unfold verifyTreeIntegrity, bind, this_tree, lift. cbn [fst snd].
        rewrite Hr. cbn [fst snd]. by rewrite Hver. }
      split; [by apply erase_eq_length|]. split.
      { intros q nq Hq.
        destruct (erase_eq_lookup h h' q nq E Hq) as (n' & Hn' & Hnn).
        exists n'. split; [done|]. rewrite Hnn. done. }
      split; [done|]. intros p' [= <-].
      assert (Hcons' : forall q, reach h p q -> consistent sha256 h' q).
      { intros q Hq.
        by eapply (calculateHash_rec_consistent sha256 _ _ _ _ _ Hok Hrun'). }
      split; [intros q Hq; by eapply calculateHash_rec_unreached|].
      split; [done|].
      assert (Hsame : (forall q, reach h p q -> consistent sha256 h q) ->
                      h' = h).
      { intros Hcons.
        by apply (calculateHash_restores sha256 h h p r h' Hok Hcons). }
      split; [split|].
      * intros -> q Hq. by apply Hcons'.
      * done.
      * intros Hcons. destruct (Hcons p (reach_here h p)) as (n0 & Hn0 & Hm0).
        assert (n0 = n) as -> by congruence.
        assert (r = hash n) as -> by congruence.
        apply String.eqb_refl.
    + exists true, h. split.
      { unfold verifyTreeIntegrity, bind, this_tree. cbn [fst snd].
        by rewrite Hr. }
      split; [done|]. split; [intros q n Hq; by exists n|].
      split; [done|]. done.
  - intros fsys path [h0 t0] r Hc0 Hok0 Hret. cbn [fst snd] in *.
    assert (Hc : 0 < N.to_nat (CHUNK_SIZE t0)) by lia.
    destruct (build_tree_consistent sha256 _ _ _ _ _ _ _ Hc Hok0 Hret)
      as (Hok' & p & -> & Hrt & Hp & Hcons).
    unfold verifyTreeIntegrity, bind, this_tree. cbn [fst snd].
    rewrite Hrt. unfold lift, verifyNodeIntegrity. cbn [fst snd].
    rewrite (verifyNodeIntegrity_rec_true sha256); [done|done|done|done|lia].
Qed.

End ReadOnly.

(** * The properties on the sample data *)

Lemma sample_world_built :
  build_tree toy_digest sample_fs "data" empty_world
  = Ret (Some 0) sample_world.
Proof. vm_compute. reflexivity. Qed.

Lemma calculateHash_value_witness :
  exists r h', calculateHash toy_digest 0 sample_world.1 = Ret r h'.
Proof.
  destruct (sample_world.1 !! 0) as [n|] eqn:E.
  - destruct (calculateHash_value toy_digest sample_world.1 0 n)
      as (r & h' & Hrun & _); [by vm_compute | exact E |].
    by exists r, h'.
  - vm_compute in E. discriminate.
Defined.



(** C2, where it fails. In the sample tree the node at address 2 is the
    file [x/a.txt], whose stored hash is the digest of its content. With
    that stored hash overwritten by another value, [verifyTreeIntegrity]
    still returns [true], and the heap it leaves is the untampered one:
    the recomputation at the root has rewritten the field before the
    node is checked. *)
Lemma verifyTreeIntegrity_misses_tampered_file :
  hash <$> sample_world.1 !! 2 = Some (toy_digest "hello")
  /\ "forged" <> toy_digest "hello"
  /\ verifyTreeIntegrity toy_digest
       (alter (set_hash "forged") 2 sample_world.1, sample_world.2)
     = Ret true sample_world.
Proof. split; [|split]; by vm_compute. Qed.

(** C6, where it fails. A [build_tree] on a directory that cannot be
    listed, after a successful build: the call throws, and the root is
    still the root of the previous tree and the registry holds the node
    allocated for the new root; neither is cleared. *)
Lemma failed_rebuild_not_cleared :
  build_tree toy_digest sample_fs "locked" sample_world
  = Throw ErrorReadingDirectory sample_world_failed
  /\ root sample_world.2 = Some 0
  /\ root sample_world_failed.2 = Some 0
  /\ nodes sample_world_failed.2 = [6]
  /\ ~ (root sample_world_failed.2 = None
        /\ file_objects sample_world_failed.2 = ∅
        /\ nodes sample_world_failed.2 = []).
Proof.
  split; [by vm_compute|]. split; [by vm_compute|].
  split; [by vm_compute|]. split; [by vm_compute|].
  intros (H & _). vm_compute in H. discriminate.
Qed.

Lemma build_tree_failure_state_witness :
  exists w,
    build_tree toy_digest sample_fs "locked"
      (sample_world.1, sample_world.2)
    = Throw ErrorReadingDirectory w.
Proof.
  destruct (build_tree_failure_state toy_digest sample_fs "locked"
              sample_world.1 sample_world.2) as (_ & _ & H).
  - by vm_compute.
  - by vm_compute.
  - destruct (H "locked" [] eq_refl) as (ext & fo & Hrun & _).
    eexists. exact Hrun.
Defined.

Lemma traversals_read_only_witness :
  (exists stats, getTreeStats (sample_world.1, sample_world.2)
                 = Ret stats (sample_world.1, sample_world.2))
  /\ (exists text, exportToJson (sample_world.1, sample_world.2)
                   = Ret text (sample_world.1, sample_world.2))
  /\ verifyTreeIntegrity toy_digest (sample_world.1, sample_world.2)
     = Ret true (sample_world.1, sample_world.2).
Proof.
  destruct (traversals_read_only toy_digest sample_world.1 sample_world.2)
    as (Hs & Hj & _ & Hfresh).
  - by vm_compute.
  - intros p Hp. vm_compute in Hp. injection Hp as <-. vm_compute. lia.
  - split; [exact Hs|]. split; [exact Hj|].
    apply (Hfresh sample_fs "data" empty_world (Some 0));
      [by vm_compute | by vm_compute | exact sample_world_built].
Defined.

(** C7, where it fails. The sample tree with the stored hash of its root
    overwritten is a built tree; [verifyTreeIntegrity] on it returns
    [false] and leaves the root with its hash field changed back. *)
Lemma verifyTreeIntegrity_writes_hash :
  verifyTreeIntegrity toy_digest
    (alter (set_hash "forged") 0 sample_world.1, sample_world.2)
  = Ret false sample_world
  /\ hash <$> alter (set_hash "forged") 0 sample_world.1 !! 0
     = Some "forged"
  /\ hash <$> sample_world.1 !! 0 <> Some "forged".
Proof. split; [|split]; by vm_compute. Qed.

Lemma build_tree_index_witness :
  contentHash <$> sample_world.1 !! 2 = Some (toy_digest "hello")
  /\ contentHash <$> sample_world.1 !! 5 = Some (toy_digest "hello")
  /\ file_objects sample_world.2 !! toy_digest "hello" = Some 5
  /\ nodes sample_world.2 = seq 0 6
  /\ mirrors toy_digest (N.to_nat (CHUNK_SIZE new_tree)) sample_world.1 0
       (sample_fs "data").
Proof.
  destruct (build_tree_index toy_digest sample_fs "data" [] new_tree
              (Some 0) sample_world.1 sample_world.2)
    as (Hn & _ & _ & p & Hp & _ & Hmir).
  - by vm_compute.
  - by vm_compute.
  - by vm_compute.
  - injection Hp as <-.
    split; [by vm_compute|]. split; [by vm_compute|].
    split; [by vm_compute|]. split; [rewrite Hn; by vm_compute|].
    exact Hmir.
Defined.

Lemma getTreeStats_counts_witness :
  getTreeStats (sample_world.1, sample_world.2)
  = Ret (3, 3, 16)%N (sample_world.1, sample_world.2).
Proof.
  destruct (getTreeStats_counts sample_world.1 sample_world.2) as [_ H].
  - by vm_compute.
  - destruct (H 0) as (l & Hl & _ & Hrun & _).
    + by vm_compute.
    + vm_compute. lia.
    + rewrite Hrun. vm_compute in Hl. injection Hl as <-. by vm_compute.
Defined.

Lemma findNode_first_match_witness :
  findNode "a.txt" (sample_world.1, sample_world.2)
  = Ret (Some 2) (sample_world.1, sample_world.2).
Proof.
  destruct (findNode_first_match sample_world.1 sample_world.2 "a.txt")
    as [_ H].
  - by vm_compute.
  - destruct (H 0) as (l & Hl & _ & Hrun & _).
    + by vm_compute.
    + vm_compute. lia.
    + rewrite Hrun. vm_compute in Hl. injection Hl as <-. by vm_compute.
Defined.

Lemma sample_reordered_same :
  fs_same (sample_fs "data") (sample_fs_reordered "data").
Proof.
  change (fs_same sample_data sample_data_reordered).
  unfold sample_data, sample_data_reordered.
  eapply fs_same_dir.
  - repeat constructor.
    + eapply fs_same_dir; [repeat constructor | reflexivity].
    + eapply fs_same_dir; [repeat constructor | reflexivity].
  - symmetry. etrans; [apply perm_swap|]. apply perm_skip, perm_swap.
Qed.

Lemma build_tree_deterministic_witness :
  exists p1 p2 w2' v,
    build_tree toy_digest sample_fs_reordered "data" sample_small_chunks
    = Ret (Some p2) w2'
    /\ hash <$> sample_world.1 !! p1 = Some v
    /\ hash <$> w2'.1 !! p2 = Some v.
Proof.
  destruct (build_tree_deterministic toy_digest sample_fs sample_fs_reordered
              "data" "data" empty_world sample_small_chunks sample_world
              (Some 0)) as (p1 & p2 & w2' & v & _ & H2 & H3 & H4).
  - by vm_compute.
  - by vm_compute.
  - by vm_compute.
  - by vm_compute.
  - exact sample_reordered_same.
  - change (fs_unique sample_data). cbn.
    repeat split;
      repeat (apply NoDup_cons; split;
              [rewrite ?not_elem_of_cons; repeat split;
                 [discriminate.. | apply not_elem_of_nil]|]);
      apply NoDup_nil_2.
  - exact sample_world_built.
  - exists p1, p2, w2', v. split; [exact H2|]. split; [exact H3|exact H4].
Defined.

(** ** Further properties on the sample data *)

Lemma sample_world_ok : heap_ok sample_world.1 = true.
Proof. by vm_compute. Qed.

Lemma sample_world_consistent (q : ptr) :
  reach sample_world.1 0 q -> consistent toy_digest sample_world.1 q.
Proof.
  destruct (build_tree_consistent toy_digest sample_fs "data" [] new_tree
              (Some 0) sample_world.1 sample_world.2)
    as (_ & p & Hp & _ & _ & Hcons).
  - assert (0 < CHUNK_SIZE new_tree)%N by (by vm_compute). lia.
  - by vm_compute.
  - exact sample_world_built.
  - injection Hp as <-. apply Hcons.
Qed.

Lemma sample_reach_file : reach sample_world.1 0 2.
Proof.
  eapply (reach_child _ 0 _ "x" 1); [by vm_compute|by vm_compute|].
  eapply (reach_child _ 1 _ "a.txt" 2); [by vm_compute|by vm_compute|].
  apply reach_here.
Qed.

Lemma addChild_rejects_witness :
  addChild 2 (Some 3) sample_world.1
  = Throw AddChildToFileNode sample_world.1
  /\ addChild 1 None sample_world.1 = Throw AddNullChild sample_world.1.
Proof.
  destruct (sample_world.1 !! 2) as [n2|] eqn:E2; [|by vm_compute in E2].
  destruct (sample_world.1 !! 1) as [n1|] eqn:E1; [|by vm_compute in E1].
  destruct (addChild_rejects sample_world.1 2 n2 (Some 3) E2) as [H2 _].
  destruct (addChild_rejects sample_world.1 1 n1 None E1) as [_ H1].
  split.
  - apply H2. vm_compute in E2. injection E2 as <-. reflexivity.
  - apply H1; [|reflexivity]. vm_compute in E1. injection E1 as <-.
    reflexivity.
Defined.

Lemma addChild_attaches_witness :
  exists h' n',
    addChild 4 (Some 3) sample_world.1 = Ret tt h'
    /\ h' !! 4 = Some n'
    /\ children n' !! "b.txt" = Some (Some 3).
Proof.
  destruct (sample_world.1 !! 4) as [n|] eqn:E; [|by vm_compute in E].
  destruct (sample_world.1 !! 3) as [cn|] eqn:Ec; [|by vm_compute in Ec].
  destruct (addChild_attaches sample_world.1 4 3 n cn E)
    as (h' & n' & Hrun & _ & _ & Hn' & Hk & _); [|exact Ec|].
  - vm_compute in E. injection E as <-. reflexivity.
  - exists h', n'. split; [exact Hrun|]. split; [exact Hn'|].
    vm_compute in Ec. injection Ec as <-. exact Hk.
Defined.

Lemma addChild_commutes_witness :
  exists h',
    (addChild 4 (Some 3) ;;; addChild 4 (Some 2)) sample_world.1 = Ret tt h'
    /\ (addChild 4 (Some 2) ;;; addChild 4 (Some 3)) sample_world.1
       = Ret tt h'.
Proof.
  destruct (sample_world.1 !! 4) as [n|] eqn:E; [|by vm_compute in E].
  destruct (sample_world.1 !! 3) as [n1|] eqn:E1; [|by vm_compute in E1].
  destruct (sample_world.1 !! 2) as [n2|] eqn:E2; [|by vm_compute in E2].
  apply (addChild_commutes sample_world.1 4 3 2 n n1 n2 E); [|exact E1|exact E2|].
  - vm_compute in E. injection E as <-. reflexivity.
  - vm_compute in E1, E2. injection E1 as <-. injection E2 as <-.
    cbn. discriminate.
Defined.


Lemma setChunkSize_getChunkSize_witness :
  getChunkSize sample_small_chunks = Ret 1024%N sample_small_chunks.
Proof.
  apply (setChunkSize_getChunkSize 1024 empty_world sample_small_chunks).
  reflexivity.
Defined.

Lemma calculateHash_frame_witness :
  exists r h',
    calculateHash toy_digest 1 sample_world.1 = Ret r h'
    /\ erase h' = erase sample_world.1
    /\ h' !! 4 = sample_world.1 !! 4.
Proof.
  destruct (calculateHash toy_digest 1 sample_world.1) as [r h'| |] eqn:E;
    [|by vm_compute in E|by vm_compute in E].
  destruct (calculateHash_frame toy_digest sample_world.1 h' 1 r E)
    as (He & _ & Hout).
  exists r, h'. split; [reflexivity|]. split; [exact He|].
  apply Hout. intros Hr.
  apply (preorder_reach 7 1 sample_world.1 [1; 2]) in Hr; [|by vm_compute].
  apply elem_of_cons in Hr as [Hr|Hr]; [discriminate|].
  apply elem_of_cons in Hr as [Hr|Hr]; [discriminate|].
  by apply elem_of_nil in Hr.
Defined.

Lemma calculateHash_idempotent_witness :
  exists r h',
    calculateHash toy_digest 0 sample_world.1 = Ret r h'
    /\ calculateHash toy_digest 0 h' = Ret r h'.
Proof.
  destruct (sample_world.1 !! 0) as [n|] eqn:E; [|by vm_compute in E].
  exact (calculateHash_idempotent toy_digest sample_world.1 0 n
           sample_world_ok E).
Defined.

Lemma verifyTreeIntegrity_root_alone_witness :
  verifyTreeIntegrity toy_digest
    (alter (set_hash "forged") 2 sample_world.1, sample_world.2)
  = Ret true (sample_world.1, sample_world.2)
  /\ verifyTreeIntegrity toy_digest
       (alter (set_hash "forged") 0 sample_world.1, sample_world.2)
     = Ret false (sample_world.1, sample_world.2).
Proof.
  destruct (sample_world.1 !! 0) as [n|] eqn:E; [|by vm_compute in E].
  assert (Hroot : root sample_world.2 = Some 0) by reflexivity.
  split.
  - destruct (verifyTreeIntegrity_root_alone toy_digest sample_world.1
                (alter (set_hash "forged") 2 sample_world.1) sample_world.2
                0 n n sample_world_ok Hroot sample_world_consistent)
      as [Hrun _].
    + by vm_compute.
    + intros q Hq. apply list_lookup_alter_ne. intros <-.
      apply Hq, sample_reach_file.
    + exact E.
    + rewrite list_lookup_alter_ne by discriminate. exact E.
    + rewrite Hrun. by rewrite String.eqb_refl.
  - destruct (verifyTreeIntegrity_root_alone toy_digest sample_world.1
                (alter (set_hash "forged") 0 sample_world.1) sample_world.2
                0 n (set_hash "forged" n) sample_world_ok Hroot
                sample_world_consistent)
      as [Hrun _].
    + by vm_compute.
    + intros q Hq. apply list_lookup_alter_ne. intros <-.
      apply Hq, reach_here.
    + exact E.
    + rewrite list_lookup_alter, E. reflexivity.
    + rewrite Hrun. vm_compute in E. injection E as <-. reflexivity.
Defined.

Lemma node_counts_agree_with_stats_witness :
  getTreeStats (sample_world.1, sample_world.2)
  = Ret (3, 3, 16)%N (sample_world.1, sample_world.2)
  /\ getFileCount 0 sample_world.1 = Ret 3%N sample_world.1
  /\ getTotalSize 0 sample_world.1 = Ret 16%N sample_world.1.
Proof.
  destruct (node_counts_agree_with_stats sample_world.1 sample_world.2 0)
    as (files & dirs & size & Hs & Hf & Ht).
  - exact sample_world_ok.
  - unfold sample_world. cbn [fst]. repeat constructor.
  - reflexivity.
  - vm_compute. lia.
  - assert (Hv : getTreeStats (sample_world.1, sample_world.2)
                 = Ret (3, 3, 16)%N (sample_world.1, sample_world.2))
      by (by vm_compute).
    rewrite Hv in Hs. injection Hs as <- <- <-.
    split; [reflexivity|]. split; [exact Hf|exact Ht].
Defined.

Lemma sample_caches_unset :
  Forall (fun n => cachedDepth n = (-1)%Z) sample_world.1.
Proof. unfold sample_world. cbn [fst]. repeat constructor. Qed.

Lemma getDepth_height_witness :
  exists h',
    getDepth 0 sample_world.1 = Ret 2%Z h'
    /\ uncache h' = uncache sample_world.1.
Proof.
  destruct (getDepth_height sample_world.1 0 sample_world_ok)
    as (d & h' & Hrun & Hh & _ & He & _).
  - intros q _. apply caches_unset_valid, sample_caches_unset.
  - vm_compute. lia.
  - by vm_compute.
  - vm_compute in Hh. injection Hh as <-. exists h'.
    split; [exact Hrun|exact He].
Defined.

(** The height of the sample tree is 2. With the directory [new], which
    holds a directory, attached under [x] the height is 3, but
    [getDepth] on the root, which has run before, still returns 2. *)
Lemma getDepth_stale_after_addChild_witness :
  getDepth 0 sample_pending = Ret 2%Z sample_depth_cached
  /\ addChild 1 (Some 6) sample_depth_cached = Ret tt sample_grown
  /\ height (length sample_grown) sample_grown 0 = Some 3%Z
  /\ getDepth 0 sample_grown = Ret 2%Z sample_grown.
Proof.
  assert (E1 : getDepth 0 sample_pending = Ret 2%Z sample_depth_cached)
    by (vm_compute; reflexivity).
  assert (E2 : addChild 1 (Some 6) sample_depth_cached = Ret tt sample_grown)
    by (vm_compute; reflexivity).
  split; [exact E1|]. split; [exact E2|].
  split; [vm_compute; reflexivity|].
  exact (getDepth_stale_after_addChild sample_pending sample_depth_cached
           sample_grown 0 1 6 2 E1 ltac:(discriminate) E2).
Defined.

Lemma build_tree_then_getDepth_witness :
  exists h'',
    getDepth 0 sample_world.1 = Ret 2%Z h''
    /\ height (length sample_world.1) sample_world.1 0 = Some 2%Z.
Proof.
  destruct (build_tree_then_getDepth toy_digest sample_fs "data" [] new_tree
              (Some 0) sample_world.1 sample_world.2)
    as (p & d & h'' & Hp & Hrun & Hh & _).
  - by vm_compute.
  - by vm_compute.
  - exact sample_world_built.
  - vm_compute. discriminate.
  - injection Hp as <-. vm_compute in Hh. injection Hh as <-.
    exists h''. split; [exact Hrun|by vm_compute].
Defined.

Lemma build_node_effects_witness :
  exists w', build_node toy_digest sample_data ([], new_tree) = Ret 0 w'
             /\ length w'.1 = 6.
Proof.
  destruct (build_node_effects toy_digest sample_data [] new_tree)
    as (ext & fo & Hrun & Hlen & _).
  - by vm_compute.
  - by vm_compute.
  - cbn zeta in Hrun. cbn [fs_builds sample_data] in Hrun.
    eexists. split; [exact Hrun|]. cbn [fst app]. rewrite Hlen.
    reflexivity.
Defined.

Lemma build_tree_root_hash_witness :
  exists p1 p2 w2 v,
    build_tree toy_digest sample_fs "data" sample_small_chunks
    = Ret (Some p2) w2
    /\ hash <$> sample_world.1 !! p1 = Some v
    /\ hash <$> w2.1 !! p2 = Some v.
Proof.
  destruct (build_tree toy_digest sample_fs "data" sample_small_chunks)
    as [r2 [h2 t2]| |] eqn:E2; [|by vm_compute in E2..].
  destruct (build_tree_root_hash toy_digest sample_fs "data" [] new_tree
              (Some 0) sample_world.1 sample_world.2)
    as (p1 & v1 & Hp1 & _ & Hv1 & Hh1);
    [by vm_compute|by vm_compute|exact sample_world_built|].
  destruct (build_tree_root_hash toy_digest sample_fs "data" []
              (set_CHUNK_SIZE 1024 new_tree) r2 h2 t2)
    as (p2 & v2 & Hp2 & _ & Hv2 & Hh2);
    [by vm_compute|by vm_compute|exact E2|].
  subst r2. exists p1, p2, (h2, t2), v1.
  split; [reflexivity|]. split; [exact Hh1|].
  rewrite Hv1 in Hv2. injection Hv2 as <-. exact Hh2.
Defined.

Lemma build_tree_registry_witness :
  length sample_world.1 = 6 /\ nodes sample_world.2 = seq 0 6.
Proof.
  destruct (build_tree_registry toy_digest sample_fs "data" [] new_tree
              (Some 0) sample_world.1 sample_world.2)
    as (Hlen & Hn & _).
  - by vm_compute.
  - by vm_compute.
  - exact sample_world_built.
  - split; [rewrite Hlen|rewrite Hn]; reflexivity.
Defined.

Lemma hash_file_content_single_chunk_witness :
  exists size,
    hash_file_content toy_digest (FsFile "a.txt" (bytes "hello") 5 true)
      sample_small_chunks
    = Ret (toy_digest "hello", size, [toy_digest "hello"])
          sample_small_chunks.
Proof.
  destruct (hash_file_content_single_chunk toy_digest sample_small_chunks
              "a.txt" (bytes "hello") 5) as [size Hrun].
  - by vm_compute.
  - vm_compute. lia.
  - exists size. rewrite Hrun. reflexivity.
Defined.

Lemma run_calls_safe_witness :
  exists w',
    run_calls toy_digest
      [call_build_tree sample_fs "data"; call_verifyTreeIntegrity;
       call_setChunkSize 5; call_build_tree sample_fs "locked";
       call_getTreeStats; call_findNode "a.txt"; call_exportToJson]
      empty_world
    = Ret tt w'
    /\ tree_inv w'.
Proof.
  apply run_calls_safe. split; [reflexivity|]. split; [by vm_compute|].
  intros p Hp. discriminate Hp.
Defined.
